(** * fluxpart: flux-variance-similarity partitioning ([fluxpart/partition.py])

    A shallow embedding of the partitioning routines of [partition.py] and
    the properties of their validity logic.

    Scalars are IEEE binary64 values, modelled by Rocq's primitive floats.
    A scalar is either a Python [float] or a NumPy [float64] (the entries of
    [np.cov]); the two agree on every operation used here except that
    Python's [/] raises [ZeroDivisionError] on a zero divisor and Python's
    [**] raises [OverflowError], where NumPy returns inf or nan.  The kind of
    a scalar is carried with its value, as Python's dynamic typing does. *)

From Stdlib Require Import Floats ZArith String List Bool Lia.
From Stdlib Require Import Sorted Permutation.
Import ListNotations.

Set Warnings "-inexact-float".
Local Open Scope string_scope.

(** ** Python values, exceptions and float arithmetic *)

Module Py.

Inductive exn : Set :=
| ZeroDivisionError
| ValueError
| OverflowError
| AssertionError
| TypeError
| UnboundLocalError.

Inductive result (A : Type) : Type :=
| Ret (a : A)
| Raise (e : exn).

Arguments Ret {A} a.
Arguments Raise {A} e.

Definition bind {A B : Type} (m : result A) (k : A -> result B) : result B :=
  match m with
  | Ret a => k a
  | Raise e => Raise e
  end.

Definition returns {A : Type} (m : result A) : bool :=
  match m with
  | Ret _ => true
  | Raise _ => false
  end.

(** A scalar: its IEEE value and whether it is a NumPy [float64]. *)
Record num : Set := Num { is_np : bool; val : float }.

(** A Python [float] (or [int]) literal. *)
Definition lit (x : float) : num := Num false x.

(** [np.nan] is a Python float. *)
Definition np_nan : num := lit nan.

Definition lift2 (f : float -> float -> float) (a b : num) : num :=
  Num (is_np a || is_np b) (f (val a) (val b)).

Definition add : num -> num -> num := lift2 PrimFloat.add.
Definition sub : num -> num -> num := lift2 PrimFloat.sub.
Definition mul : num -> num -> num := lift2 PrimFloat.mul.
Definition neg (a : num) : num := Num (is_np a) (- val a)%float.
Definition abs (a : num) : num := Num (is_np a) (PrimFloat.abs (val a)).

(** [a / b]: between two Python floats a zero divisor raises. *)
Definition truediv (a b : num) : result num :=
  if is_np a || is_np b then Ret (Num true (val a / val b)%float)
  else if (val b =? 0)%float then Raise ZeroDivisionError
  else Ret (Num false (val a / val b)%float).

(** [a ** 2], taken as the product [a * a] rounded to nearest: on a Python
    float an overflowing square of a finite value raises.  CPython and NumPy
    call the C library's [pow], which can differ from the rounded product by
    one unit in the last place. *)
Definition pow2 (a : num) : result num :=
  let r := (val a * val a)%float in
  if is_np a then Ret (Num true r)
  else if is_finite (val a) && is_infinity r then Raise OverflowError
  else Ret (Num false r).

(** [math.sqrt(a)]: a Python float; a negative argument is a domain error. *)
Definition math_sqrt (a : num) : result num :=
  if (val a <? 0)%float then Raise ValueError
  else Ret (lit (PrimFloat.sqrt (val a))).

Definition lt (a b : num) : bool := (val a <? val b)%float.
Definition le (a b : num) : bool := (val a <=? val b)%float.
Definition ge (a b : num) : bool := (val b <=? val a)%float.

(** [float(n)] for a Python int. *)
Definition float_of_int (n : Z) : result num :=
  let r := SF2Prim (binary_normalize prec emax n 0 false) in
  if is_infinity r then Raise OverflowError else Ret (lit r).

(** Truth value of [None] or an int. *)
Definition truthy (x : option Z) : bool :=
  match x with
  | None => false
  | Some n => negb (n =? 0)%Z
  end.

(** [assert b] *)
Definition py_assert (b : bool) : result unit :=
  if b then Ret tt else Raise AssertionError.

End Py.

Import Py.

Declare Scope py_scope.
Delimit Scope py_scope with py.
Notation "x <- m ;; k" := (bind m (fun x => k))
  (at level 61, m at next level, right associativity) : py_scope.
Notation "' p <- m ;; k" := (bind m (fun x => let 'p := x in k))
  (at level 61, p pattern, m at next level, right associativity) : py_scope.
Infix "+" := add : py_scope.
Infix "-" := sub : py_scope.
Infix "*" := mul : py_scope.
Notation "- x" := (neg x) : py_scope.
Infix "<" := lt : py_scope.
Infix "<=" := le : py_scope.
Infix ">=" := ge : py_scope.
Local Open Scope py_scope.

(** ** Containers ([fluxpart/containers.py]) *)

Module WQCData.
Record t : Set := mk { wq : num; wc : num; var_q : num; var_c : num; corr_qc : num }.
End WQCData.

Module RootSoln.
Record t : Set := mk {
  corr_cp_cr : num;
  var_cp : num;
  sig_cr : num;
  co2soln_id : option Z;
  isvalid : bool;
  mssg : string
}.
End RootSoln.

Module MassFluxes.
Record t : Set := mk { Fq : num; Fqt : num; Fqe : num; Fc : num; Fcp : num; Fcr : num }.

(** Modelled from the spec: the field defaults of [MassFluxes] in
    [containers.py]; [MassFluxes()] has not-a-number in all six fields. *)
Definition default : t := mk np_nan np_nan np_nan np_nan np_nan np_nan.
End MassFluxes.

Module FVSPResult.
Record t : Set := mk {
  wqc_data : WQCData.t;
  rootsoln : RootSoln.t;
  fluxes : MassFluxes.t;
  valid_partition : bool;
  mssg : string;
  wave_lvl : option (Z * Z)
}.

Definition set_fluxes (r : t) (f : MassFluxes.t) : t :=
  mk (wqc_data r) (rootsoln r) f (valid_partition r) (mssg r) (wave_lvl r).
Definition set_valid_partition (r : t) (b : bool) : t :=
  mk (wqc_data r) (rootsoln r) (fluxes r) b (mssg r) (wave_lvl r).
Definition set_mssg (r : t) (m : string) : t :=
  mk (wqc_data r) (rootsoln r) (fluxes r) (valid_partition r) m (wave_lvl r).
Definition set_wave_lvl (r : t) (l : Z * Z) : t :=
  mk (wqc_data r) (rootsoln r) (fluxes r) (valid_partition r) (mssg r) (Some l).
End FVSPResult.

(** ** [partition.py] *)

(** The [farg] argument of [flux_ratio]: a CO2 solution id ([None], 0 or 1)
    or a number (the water use efficiency). *)
Inductive farg_t : Set :=
| FId (i : option Z)
| FNum (x : num).

(** [farg == 1] *)
Definition farg_eq_1 (farg : farg_t) : bool :=
  match farg with
  | FId None => false
  | FId (Some n) => (n =? 1)%Z
  | FNum x => (val x =? 1)%float
  end.

(** [farg ** 2] *)
Definition farg_pow2 (farg : farg_t) : result num :=
  match farg with
  | FId None => Raise TypeError
  | FId (Some n) => float_of_int (n * n)
  | FNum x => pow2 x
  end.

(** The [sign] and [num] chosen by [ftype] and [farg] in [flux_ratio]. *)
Definition flux_ratio_sign_num (wqc_data : WQCData.t) (ftype : string)
    (farg : farg_t) : result (num * num) :=
  if (ftype =? "co2")%string || (ftype =? "CO2")%string then
    Ret (if farg_eq_1 farg then lit 1 else lit (-1), WQCData.var_c wqc_data)
  else if (ftype =? "h2o")%string || (ftype =? "H2O")%string then
    f2 <- farg_pow2 farg ;;
    Ret (lit 1, f2 * WQCData.var_q wqc_data)
  else Raise ValueError.

(** [disc = 1 - 1 / corr_cp_cr ** 2 + num / var_cp / corr_cp_cr ** 2] *)
Definition flux_ratio_disc (var_cp corr_cp_cr : num) (num : Py.num)
    : result Py.num :=
  c2 <- pow2 corr_cp_cr ;;
  t1 <- truediv (lit 1) c2 ;;
  t2 <- truediv num var_cp ;;
  c2 <- pow2 corr_cp_cr ;;
  t3 <- truediv t2 c2 ;;
  Ret (lit 1 - t1 + t3).

Definition flux_ratio (var_cp corr_cp_cr : num) (wqc_data : WQCData.t)
    (ftype : string) (farg : farg_t) : result num :=
  '(sign, num) <- flux_ratio_sign_num wqc_data ftype farg ;;
  disc <- flux_ratio_disc var_cp corr_cp_cr num ;;
  if disc < lit 0 then Ret np_nan
  else
    c2 <- pow2 corr_cp_cr ;;
    s <- math_sqrt disc ;;
    Ret (c2 * (sign * s - lit 1)).

Definition _mass_fluxes (var_cp corr_cp_cr : num) (wqc_data : WQCData.t)
    (wue : num) (co2soln_id : option Z) : result MassFluxes.t :=
  wcr_ov_wcp <- flux_ratio var_cp corr_cp_cr wqc_data "co2" (FId co2soln_id) ;;
  wcp <- truediv (WQCData.wc wqc_data) (wcr_ov_wcp + lit 1) ;;
  let wcr := WQCData.wc wqc_data - wcp in
  wqt <- truediv wcp wue ;;
  let wqe := WQCData.wq wqc_data - wqt in
  Ret (MassFluxes.mk (WQCData.wq wqc_data) wqt wqe (WQCData.wc wqc_data) wcp wcr).

(** The two residuals are returned as a pair (a two-element list in the
    source). *)
Definition _residual_func (x : num * num) (wqc_data : WQCData.t) (wue : num)
    (co2soln_id : option Z) : result (num * num) :=
  let '(corr_cp_cr, var_cp) := x in
  wcr_ov_wcp <- flux_ratio var_cp corr_cp_cr wqc_data "co2" (FId co2soln_id) ;;
  wqe_ov_wqt <- flux_ratio var_cp corr_cp_cr wqc_data "h2o" (FNum wue) ;;
  (* Eq. 7a *)
  t <- truediv (wue * WQCData.wq wqc_data) (WQCData.wc wqc_data) ;;
  let lhs := t * (wcr_ov_wcp + lit 1) in
  let rhs := wqe_ov_wqt + lit 1 in
  let resid1 := lhs - rhs in
  (* Eq. 7b *)
  let lhs := wue * WQCData.corr_qc wqc_data in
  s <- math_sqrt (WQCData.var_c wqc_data * WQCData.var_q wqc_data) ;;
  d <- truediv s var_cp ;;
  let lhs := lhs * d in
  let rhs := lit 1 + wqe_ov_wqt + wcr_ov_wcp in
  c2 <- pow2 corr_cp_cr ;;
  d2 <- truediv (wqe_ov_wqt * wcr_ov_wcp) c2 ;;
  let rhs := rhs + d2 in
  let resid2 := lhs - rhs in
  Ret (resid1, resid2).

Definition _isvalid_root (corr_cp_cr var_cp : num) : bool * string :=
  let isvalid := true in
  let mssg := "" in
  let '(isvalid, mssg) :=
    if var_cp <= lit 0 then (false, mssg ++ "var_cp <= 0; ") else (isvalid, mssg) in
  let '(isvalid, mssg) :=
    if negb ((lit (-1) < corr_cp_cr) && (corr_cp_cr < lit 0))
    then (false, mssg ++ "corr_cp_cr <-1 OR >0; ") else (isvalid, mssg) in
  (isvalid, mssg).

Definition _isvalid_partition (fc : MassFluxes.t) : bool * string :=
  let isvalid := true in
  let mssg := "" in
  let '(isvalid, mssg) :=
    if MassFluxes.Fqt fc <= lit 0 then (false, mssg ++ "Fqt <= 0; ") else (isvalid, mssg) in
  let '(isvalid, mssg) :=
    if MassFluxes.Fqe fc <= lit 0 then (false, mssg ++ "Fqe <= 0; ") else (isvalid, mssg) in
  let '(isvalid, mssg) :=
    if MassFluxes.Fcp fc >= lit 0 then (false, mssg ++ "Fcp >= 0; ") else (isvalid, mssg) in
  let '(isvalid, mssg) :=
    if MassFluxes.Fcr fc <= lit 0 then (false, mssg ++ "Fcr <= 0; ") else (isvalid, mssg) in
  (isvalid, mssg).

Definition _adjust_fluxes (fc : MassFluxes.t) (wue Fq_tot Fc_tot : num)
    : result MassFluxes.t :=
  let Fq_diff := Fq_tot - (MassFluxes.Fqe fc + MassFluxes.Fqt fc) in
  d <- truediv (MassFluxes.Fqe fc) (MassFluxes.Fqt fc + MassFluxes.Fqe fc) ;;
  let Fqe := MassFluxes.Fqe fc + Fq_diff * d in
  let Fqt := Fq_tot - Fqe in
  let Fcp := wue * Fqt in
  let Fcr := Fc_tot - Fcp in
  Ret (MassFluxes.mk Fq_tot Fqt Fqe Fc_tot Fcp Fcr).

(** The closed-form trial root of [findroot] (the statements from the
    square roots of the variances to [corr_cp_cr]), on the scaled values. *)
Definition findroot_trial (var_q var_c wq wc corr_qc wue : num)
    : result (num * num) :=
  sd_q <- math_sqrt var_q ;;
  sd_c <- math_sqrt var_c ;;
  let numer := lit (-2) * corr_qc * sd_c * sd_q * wq * wc in
  wq2 <- pow2 wq ;;
  wc2 <- pow2 wc ;;
  let numer := numer + (var_c * wq2 + var_q * wc2) in
  cq2 <- pow2 corr_qc ;;
  wue2 <- pow2 wue ;;
  let numer := numer * (- (cq2 - lit 1) * var_c * var_q * wue2) in
  let denom := - corr_qc * sd_c * sd_q * (wc + wq * wue) in
  let denom := denom + (var_c * wq + var_q * wc * wue) in
  denom <- pow2 denom ;;
  var_cp <- truediv numer denom ;;
  cq2 <- pow2 corr_qc ;;
  d2 <- pow2 (wc - wq * wue) ;;
  let numer := - (cq2 - lit 1) * var_c * var_q * d2 in
  let denom := lit (-2) * corr_qc * sd_c * sd_q * wc * wq in
  wq2 <- pow2 wq ;;
  wc2 <- pow2 wc ;;
  let denom := denom + (var_c * wq2 + var_q * wc2) in
  wue2 <- pow2 wue ;;
  let denom := denom * (lit (-2) * corr_qc * sd_c * sd_q * wue + var_c + var_q * wue2) in
  rho_sq <- truediv numer denom ;;
  s <- math_sqrt rho_sq ;;
  let corr_cp_cr := - s in
  Ret (corr_cp_cr, var_cp).

(** [abs(r[0]) < tol and abs(r[1]) < tol] *)
Definition within_tol (r : num * num) (tol : num) : bool :=
  (abs (fst r) < tol) && (abs (snd r) < tol).

(** The residual check of [findroot] (the body of [if valid_root:]); it
    returns the updated [(valid_root, valid_mssg, co2soln_id, sig_cr)]. *)
Definition findroot_check (corr_cp_cr var_cp : num) (var_q var_c wq wc corr_qc wue : num)
    : result (bool * string * option Z * num) :=
  let co2soln_id : option Z := None in
  let sig_cr := np_nan in
  let valid_root := false in
  let valid_mssg := "Trial root did not satisfy equations" in
  let scaled_wqc_data := WQCData.mk wq wc var_q var_c corr_qc in
  let tol := lit 1e-12 in
  r0 <- _residual_func (corr_cp_cr, var_cp) scaled_wqc_data wue (Some 0%Z) ;;
  r1 <- _residual_func (corr_cp_cr, var_cp) scaled_wqc_data wue (Some 1%Z) ;;
  let '(co2soln_id, valid_root, valid_mssg) :=
    if within_tol r0 tol then (Some 0%Z, true, "")
    else (co2soln_id, valid_root, valid_mssg) in
  '(co2soln_id, valid_root, valid_mssg) <-
    (if within_tol r1 tol then
       _ <- py_assert (negb (truthy co2soln_id)) ;;
       Ret (Some 1%Z, true, "")
     else Ret (co2soln_id, valid_root, valid_mssg)) ;;
  if (valid_root : bool) then
    let wqc_data := WQCData.mk wq wc var_q var_c corr_qc in
    wcr_ov_wcp <- flux_ratio var_cp corr_cp_cr wqc_data "co2" (FId co2soln_id) ;;
    s <- math_sqrt var_cp ;;
    sig_cr <- truediv (wcr_ov_wcp * s) corr_cp_cr ;;
    Ret (valid_root, valid_mssg, co2soln_id, sig_cr)
  else Ret (valid_root, valid_mssg, co2soln_id, sig_cr).

Definition findroot (wqc_data : WQCData.t) (wue : num) : result RootSoln.t :=
  (* scale dimensional parameters: H2O kg -> g, CO2 kg -> mg *)
  let var_q := WQCData.var_q wqc_data * lit 1e6 in
  let var_c := WQCData.var_c wqc_data * lit 1e12 in
  let wq := WQCData.wq wqc_data * lit 1e3 in
  let wc := WQCData.wc wqc_data * lit 1e6 in
  let corr_qc := WQCData.corr_qc wqc_data in
  let wue := wue * lit 1e3 in
  '(corr_cp_cr, var_cp) <- findroot_trial var_q var_c wq wc corr_qc wue ;;
  let '(valid_root, valid_mssg) := _isvalid_root corr_cp_cr var_cp in
  '(valid_root, valid_mssg, co2soln_id, sig_cr) <-
    (if valid_root then findroot_check corr_cp_cr var_cp var_q var_c wq wc corr_qc wue
     else Ret (valid_root, valid_mssg, None, np_nan)) ;;
  (* re-scale dimensional variables to SI units *)
  Ret (RootSoln.mk corr_cp_cr (var_cp * lit 1e-12) (sig_cr * lit 1e-6)
         co2soln_id valid_root valid_mssg).

Definition fvspart_interval (wqc_data : WQCData.t) (wue : num)
    (wipe_if_invalid : bool) : result FVSPResult.t :=
  rootsoln <- findroot wqc_data wue ;;
  if negb (RootSoln.isvalid rootsoln) then
    Ret (FVSPResult.mk wqc_data rootsoln MassFluxes.default false
           (RootSoln.mssg rootsoln) None)
  else
    mass_fluxes <- _mass_fluxes (RootSoln.var_cp rootsoln)
                     (RootSoln.corr_cp_cr rootsoln) wqc_data wue
                     (RootSoln.co2soln_id rootsoln) ;;
    let '(isvalid, mssg) := _isvalid_partition mass_fluxes in
    let mass_fluxes :=
      if negb isvalid && wipe_if_invalid then MassFluxes.default else mass_fluxes in
    Ret (FVSPResult.mk wqc_data rootsoln mass_fluxes isvalid mssg None).

(** ** Series functions *)

(** A 1D array of samples. *)
Definition series : Set := list float.

(** [int(np.log2(n))] for an array size [n]: the floor of the binary
    logarithm; for [n = 0], [np.log2] is [-inf] and [int] raises.  [np.log2]
    is a binary64 logarithm: its integer part is that of the exact logarithm
    for the sizes of arrays in memory; at [n = 2^49 - 1] and at larger
    sizes just below a power of two it rounds up to a whole number, and the
    integer part is one more. *)
Definition int_log2 (n : nat) : result Z :=
  match n with
  | O => Raise OverflowError
  | S _ => Ret (Z.log2 (Z.of_nat n))
  end.

Fixpoint zip3 {A B C : Type} (la : list A) (lb : list B) (lc : list C)
    : list (A * B * C) :=
  match la, lb, lc with
  | a :: la, b :: lb, c :: lc => (a, b, c) :: zip3 la lb lc
  | _, _, _ => []
  end.

Section Series.

(** The entry of [np.cov] for two rows: the sample covariance of two
    series (NumPy is not part of the repository).  [np.cov] raises
    [ValueError] on rows of unequal length: the functions below are those of
    the code on series of one length. *)
Variable np_cov : series -> series -> num.

(** [util.progressive_lowcut_series] ([fluxpart/util.py] is not among the
    sources): it yields the low-cut versions of a series of length [2^k],
    the first with only the mean removed. *)
Variable progressive_lowcut_series : series -> list series.

(** [cov = np.cov([w, q, c])]: [cov[0, 1]] is [np_cov w q], and so on.  The
    flag [wipe_if_invalid] is not passed on, and [fvspart_interval] takes
    its default. *)
Definition fvspart_series (w q c : series) (wue : num) (wipe_if_invalid : bool)
    : result FVSPResult.t :=
  s <- math_sqrt (np_cov q q * np_cov c c) ;;
  corr_qc <- truediv (np_cov q c) s ;;
  let wqc_data :=
    WQCData.mk (np_cov w q) (np_cov w c) (np_cov q q) (np_cov c c) corr_qc in
  fvspart_interval wqc_data wue false.

Definition _progressive_lowcut (wind vapor co2 : series)
    : result (list (series * series * series)) :=
  k <- int_log2 (length co2) ;;
  let max_pow2_len := Z.to_nat (2 ^ k) in
  let trunc_w := firstn max_pow2_len wind in
  let trunc_q := firstn max_pow2_len vapor in
  let trunc_c := firstn max_pow2_len co2 in
  let lowcut_w := progressive_lowcut_series trunc_w in
  let lowcut_q := progressive_lowcut_series trunc_q in
  let lowcut_c := progressive_lowcut_series trunc_c in
  Ret (zip3 lowcut_w lowcut_q lowcut_c).

(** One pass through the body of the [for] loop of [fvspart_progressive]:
    the solve on one low-cut triple, with the adjustment and the second
    validity check when the root is valid. *)
Definition progressive_step (wue : num) (adjust_fluxes : bool)
    (wq_tot wc_tot : num) (lowcut_wqc : series * series * series)
    : result FVSPResult.t :=
  let '(w, q, c) := lowcut_wqc in
  fvsp <- fvspart_series w q c wue false ;;
  if RootSoln.isvalid (FVSPResult.rootsoln fvsp) then
    if adjust_fluxes then
      fluxes <- _adjust_fluxes (FVSPResult.fluxes fvsp) wue wq_tot wc_tot ;;
      let fvsp := FVSPResult.set_fluxes fvsp fluxes in
      let '(valid, mssg) := _isvalid_partition (FVSPResult.fluxes fvsp) in
      Ret (FVSPResult.set_mssg (FVSPResult.set_valid_partition fvsp valid) mssg)
    else Ret fvsp
  else Ret fvsp.

(** The [for] loop over the low-cut triples; [cnt] is the index of
    [enumerate]; [last] holds the [wave_lvl] and [fvsp] bound by the previous
    pass.  The loop leaves at the first pass whose partition is valid. *)
Fixpoint progressive_loop (max_decomp_lvl : Z) (wue : num) (adjust_fluxes : bool)
    (wq_tot wc_tot : num) (cnt : Z) (levels : list (series * series * series))
    (last : option (Z * Z * FVSPResult.t))
    : result (option (Z * Z * FVSPResult.t)) :=
  match levels with
  | [] => Ret last
  | lowcut_wqc :: levels =>
      let wave_lvl := ((max_decomp_lvl - cnt)%Z, max_decomp_lvl) in
      fvsp <- progressive_step wue adjust_fluxes wq_tot wc_tot lowcut_wqc ;;
      if FVSPResult.valid_partition fvsp then Ret (Some (wave_lvl, fvsp))
      else progressive_loop max_decomp_lvl wue adjust_fluxes wq_tot wc_tot
             (cnt + 1)%Z levels (Some (wave_lvl, fvsp))
  end.

(** The statements of [fvspart_progressive] after the loop. *)
Definition progressive_finish (wave_lvl : Z * Z) (fvsp : FVSPResult.t)
    : FVSPResult.t :=
  let fvsp := FVSPResult.set_wave_lvl fvsp wave_lvl in
  let fvsp :=
    if negb (RootSoln.isvalid (FVSPResult.rootsoln fvsp)) then
      FVSPResult.set_mssg (FVSPResult.set_valid_partition fvsp false)
        (RootSoln.mssg (FVSPResult.rootsoln fvsp))
    else fvsp in
  if negb (FVSPResult.valid_partition fvsp)
  then FVSPResult.set_fluxes fvsp MassFluxes.default
  else fvsp.

Definition fvspart_progressive (w q c : series) (wue : num) (adjust_fluxes : bool)
    : result FVSPResult.t :=
  max_decomp_lvl <- int_log2 (length w) ;;
  let wq_tot := np_cov w q in
  let wc_tot := np_cov w c in
  levels <- _progressive_lowcut w q c ;;
  st <- progressive_loop max_decomp_lvl wue adjust_fluxes wq_tot wc_tot 0%Z
          levels None ;;
  match st with
  | None => Raise UnboundLocalError
  | Some (wave_lvl, fvsp) => Ret (progressive_finish wave_lvl fvsp)
  end.

End Series.

(** ** [hfdata.py] *)

Module HF.

(** The exceptions of [HFData]'s methods; [TooFewDataError] carries the
    four values of its message. *)
Inductive exn : Set :=
| IndexError
| AttributeError
| OverflowError
| TooFewDataError (data_frac rd_tol : float) (len_max_slice ad_tol : Z).

Inductive outcome (A : Type) : Type :=
| Ok (a : A)
| Err (e : exn).

Arguments Ok {A} a.
Arguments Err {A} e.

(** A [slice(start, stop)]. *)
Definition slice : Set := (nat * nat)%type.

Definition slice_len (s : slice) : Z := (Z.of_nat (snd s) - Z.of_nat (fst s))%Z.

(** The runs of unmasked entries of a mask, in order; [i] is the index of
    the head of the mask and [cur] the start of the run in progress. *)
Fixpoint clumps (i : nat) (cur : option nat) (mask : list bool) : list slice :=
  match mask with
  | [] =>
      match cur with
      | Some s => [(s, i)]
      | None => []
      end
  | true :: mask =>
      match cur with
      | Some s => (s, i) :: clumps (S i) None mask
      | None => clumps (S i) None mask
      end
  | false :: mask =>
      match cur with
      | Some s => clumps (S i) (Some s) mask
      | None => clumps (S i) (Some i) mask
      end
  end.

(** [np.ma.clump_unmasked] on a masked array with the given mask array: the
    slices of the contiguous unmasked regions; NumPy indexes the first
    entry of the mask and raises [IndexError] on an empty one. *)
Definition clump_unmasked (mask : list bool) : outcome (list slice) :=
  match mask with
  | [] => Err IndexError
  | _ => Ok (clumps 0 None mask)
  end.

(** [np.argmax] on a non-empty list of ints: the index of the first
    greatest entry. *)
Fixpoint argmax_from (best : Z) (best_i i : nat) (l : list Z) : nat :=
  match l with
  | [] => best_i
  | x :: l =>
      if (best <? x)%Z then argmax_from x i (S i) l
      else argmax_from best best_i (S i) l
  end.

Definition argmax (l : list Z) : nat :=
  match l with
  | [] => O
  | x :: l => argmax_from x 0 1 l
  end.

(** [float(n)] for an int; the quotient of two ints below [2^53] is the
    quotient of their floats. *)
Definition float_of_Z (n : Z) : float :=
  SF2Prim (binary_normalize prec emax n 0 false).

Section Frame.

(** A record (row) of the dataframe. *)
Variable row : Type.

(** The 1D mask of [cleanse] on one record, for the given [bounds]: a null
    among the first seven columns, a true flag or a value out of bounds
    (computed by pandas, row by row). *)
Variable masked : row -> bool.

(** An [HFData] object. *)
Record t : Type := mk {
  dataframe : option (list row);
  _already_corrected_external : bool
}.

(** [data.iloc[max_slice]] *)
Definition iloc (s : slice) (data : list row) : list row :=
  firstn (snd s - fst s) (skipn (fst s) data).

(** [cleanse]: the object after the call, and what the call raised. *)
Definition cleanse (rd_tol : float) (ad_tol : Z) (self : t) : t * outcome unit :=
  match dataframe self with
  | None => (self, Err AttributeError)
  | Some data =>
      let mask := map masked data in
      (* Find longest span of valid (unmasked) data *)
      match clump_unmasked mask with
      | Err e => (self, Err e)
      | Ok found =>
          let unmasked_slices :=
            match found with
            | [] => [(O, O)]
            | _ => found
            end in
          let max_indx := argmax (map slice_len unmasked_slices) in
          let max_slice := nth max_indx unmasked_slices (O, O) in
          let len_max_slice := slice_len max_slice in
          (* verify sufficient data length *)
          let data_frac :=
            (float_of_Z len_max_slice / float_of_Z (Z.of_nat (length data)))%float in
          if (data_frac <? rd_tol)%float || (len_max_slice <? ad_tol)%Z then
            (mk None (_already_corrected_external self),
             Err (TooFewDataError data_frac rd_tol len_max_slice ad_tol))
          else
            (mk (Some (iloc max_slice data)) (_already_corrected_external self),
             Ok tt)
      end
  end.

(** [truncate_pow2] *)
Definition truncate_pow2 (self : t) : t * outcome unit :=
  match dataframe self with
  | None => (self, Err AttributeError)
  | Some data =>
      match int_log2 (length data) with
      | Raise _ => (self, Err OverflowError)
      | Ret k =>
          let truncate_len := Z.to_nat (2 ^ k) in
          (mk (Some (firstn truncate_len data)) (_already_corrected_external self),
           Ok tt)
      end
  end.

End Frame.

(** *** [HFDataReader]: the columns to read *)

(** A dict from names to column indices, as the list of its items in
    insertion order. *)
Definition dict : Set := list (string * Z).

(** [d[k] = v]: an existing key keeps its place. *)
Fixpoint dict_set (k : string) (v : Z) (d : dict) : dict :=
  match d with
  | [] => [(k, v)]
  | (k', v') :: d =>
      if (k' =? k)%string then (k, v) :: d else (k', v') :: dict_set k v d
  end.

(** [d.update(items)], and [dict(items)] from the empty dict. *)
Definition dict_update (d : dict) (items : list (string * Z)) : dict :=
  fold_left (fun d kv => dict_set (fst kv) (snd kv) d) items d.

Fixpoint dict_lookup (d : dict) (k : string) : option Z :=
  match d with
  | [] => None
  | (k', v) :: d => if (k' =? k)%string then Some v else dict_lookup d k
  end.

(** [d[k]] and [d.get(k)] for a key of [d]. *)
Definition dict_get (d : dict) (k : string) : Z :=
  match dict_lookup d k with
  | Some v => v
  | None => 0%Z
  end.

(** [sorted(l, key=key)]: the stable sort by increasing key. *)
Fixpoint insert_by (key : string -> Z) (x : string) (l : list string)
    : list string :=
  match l with
  | [] => [x]
  | y :: l' =>
      if (key x <=? key y)%Z then x :: y :: l' else y :: insert_by key x l'
  end.

Definition sorted_by (key : string -> Z) (l : list string) : list string :=
  fold_right (insert_by key) [] l.

Definition var_names : list string := ["u"; "v"; "w"; "c"; "q"; "T"; "P"].

Section Reader.

(** The type of the good values of the flags. *)
Variable goodval : Type.

(** The attributes of an [HFDataReader] that decide the columns: [_flags]
    is the list of the items of the dict, [_time_col] an int or [None]. *)
Record reader : Type := mk_reader {
  _filetype : string;
  _cols : list Z;
  _time_col : option Z;
  _flags : list (string * (Z * goodval))
}.

Definition _namecols (self : reader) : dict :=
  let namecols := dict_update [] (combine var_names (_cols self)) in
  let namecols :=
    dict_update namecols (map (fun kv => (fst kv, fst (snd kv))) (_flags self)) in
  match _time_col self with
  | Some time_col =>
      if (_filetype self =? "csv")%string
      then dict_set "Datetime" time_col namecols
      else namecols
  | None => namecols
  end.

Definition _names (self : reader) : list string :=
  sorted_by (dict_get (_namecols self)) (map fst (_namecols self)).

Definition _usecols (self : reader) : list Z :=
  map (dict_get (_namecols self)) (_names self).

End Reader.

End HF.

(** ** Predicates of the statements *)

(** The four sign constraints. *)
Definition signs_ok (fc : MassFluxes.t) : Prop :=
  (lit 0 < MassFluxes.Fqt fc) = true /\ (lit 0 < MassFluxes.Fqe fc) = true
  /\ (MassFluxes.Fcp fc < lit 0) = true /\ (lit 0 < MassFluxes.Fcr fc) = true.

(** No partitioned flux is not-a-number. *)
Definition no_nan (fc : MassFluxes.t) : Prop :=
  val (MassFluxes.Fqt fc) <> nan /\ val (MassFluxes.Fqe fc) <> nan
  /\ val (MassFluxes.Fcp fc) <> nan /\ val (MassFluxes.Fcr fc) <> nan.

(** The scaled covariance summary and water use efficiency that [findroot]
    works on. *)
Definition scaled_wqc (wqc_data : WQCData.t) : WQCData.t :=
  WQCData.mk (WQCData.wq wqc_data * lit 1e3) (WQCData.wc wqc_data * lit 1e6)
    (WQCData.var_q wqc_data * lit 1e6) (WQCData.var_c wqc_data * lit 1e12)
    (WQCData.corr_qc wqc_data).

Definition scaled_wue (wue : num) : num := wue * lit 1e3.

(** The closed-form candidate [(corr_cp_cr, var_cp)] of [findroot]. *)
Definition trial_root (wqc_data : WQCData.t) (wue : num) : result (num * num) :=
  let s := scaled_wqc wqc_data in
  findroot_trial (WQCData.var_q s) (WQCData.var_c s) (WQCData.wq s)
    (WQCData.wc s) (WQCData.corr_qc s) (scaled_wue wue).

(** The residual pair of [findroot] at a candidate for CO2 branch [b]. *)
Definition branch_residual (wqc_data : WQCData.t) (wue : num)
    (x : num * num) (b : Z) : result (num * num) :=
  _residual_func x (scaled_wqc wqc_data) (scaled_wue wue) (Some b).

(** Branch [b] validates: both residual components are within [1e-12] of
    zero. *)
Definition branch_validates (wqc_data : WQCData.t) (wue : num)
    (x : num * num) (b : Z) : bool :=
  match branch_residual wqc_data wue x b with
  | Ret r => within_tol r (lit 1e-12)
  | Raise _ => false
  end.

(** A computation that does not end in [AssertionError]. *)
Definition no_assert {A : Type} (m : result A) : Prop := m <> Raise AssertionError.

(** [x] is within the relative tolerance 1e-12 of [y]. *)
Definition within_rel_tol (x y : float) : bool :=
  (PrimFloat.abs (x - y) <=? 1e-12 * PrimFloat.abs y)%float.

(** A pass of the loop of [fvspart_progressive] that returns an invalid
    partition: the loop goes on. *)
Definition pass_invalid (np_cov : series -> series -> num) (wue : num)
    (adjust_fluxes : bool) (wq_tot wc_tot : num)
    (lowcut_wqc : series * series * series) : Prop :=
  exists r,
    progressive_step np_cov wue adjust_fluxes wq_tot wc_tot lowcut_wqc = Ret r
    /\ FVSPResult.valid_partition r = false.

(** [tok] occurs in [s]. *)
Definition occurs (tok s : string) : Prop := exists a b, s = a ++ tok ++ b.

(** The entries [a .. b-1] of a mask exist and are all unmasked. *)
Definition unmasked_between (mask : list bool) (a b : nat) : Prop :=
  (a < b <= length mask)%nat
  /\ forall j, (a <= j < b)%nat -> nth_error mask j = Some false.

(** The value of a binary64 as a multiple of the smallest positive
    binary64, [2^-1074]: every finite binary64 is such a multiple.  An
    infinity or not-a-number counts 0. *)
Definition SF_units (x : spec_float) : Z :=
  match x with
  | S754_finite s m e => (cond_Zopp s (Zpos m) * 2 ^ (e + 1074))%Z
  | _ => 0%Z
  end.

Definition units (x : float) : Z := SF_units (Prim2SF x).

(** A zero or a finite non-zero value. *)
Definition finite_or_zero (r : spec_float) : Prop :=
  match r with
  | S754_zero _ | S754_finite _ _ _ => True
  | _ => False
  end.

(** After [k] right shifts of [m0]: the mantissa, the round bit and the
    sticky bit account for [m0]. *)
Definition shifted (m0 : Z) (k : Z) (mrs : shr_record) : Prop :=
  (0 <= shr_m mrs
   /\ exists t,
        2 * m0 = (2 * shr_m mrs + Z.b2z (shr_r mrs)) * 2 ^ k + t
        /\ 0 <= t < 2 ^ k
        /\ (shr_s mrs = false <-> t = 0))%Z.

(** ** Concrete data for the worked examples *)

Module Examples.

Local Open Scope float_scope.

(** The two-pass sample covariance, standing for [np.cov] in the examples. *)
Definition fsum (s : series) : float := fold_left PrimFloat.add s 0.
Definition flen (s : series) : float := fold_left (fun acc _ => acc + 1) s 0.
Definition fmean (s : series) : float := fsum s / flen s.
Definition center (s : series) : series :=
  let m := fmean s in map (fun x => x - m) s.

Fixpoint dot (a b : series) : float :=
  match a, b with
  | x :: a, y :: b => x * y + dot a b
  | _, _ => 0
  end.

Definition cov_sample (a b : series) : num :=
  Num true (dot (center a) (center b) / (flen a - 1)).

(** A block-mean low-cut filter, standing for
    [util.progressive_lowcut_series] in the examples: level [j] removes the
    means over blocks of length [N / 2^j]. *)
Fixpoint blocks (fuel sz : nat) (s : series) : list series :=
  match fuel with
  | O => []
  | S fuel =>
      match s with
      | [] => []
      | _ => firstn sz s :: blocks fuel sz (skipn sz s)
      end
  end.

Definition lowcut_at (sz : nat) (s : series) : series :=
  flat_map center (blocks (length s) sz s).

Fixpoint halvings (fuel n : nat) : list nat :=
  match fuel with
  | O => []
  | S fuel => n :: (if Nat.leb n 1 then [] else halvings fuel (Nat.div2 n))
  end.

Definition lowcut_blocks (s : series) : list series :=
  map (fun sz => lowcut_at sz s) (halvings (length s) (length s)).

(** A covariance summary whose trial root satisfies the residual equations
    on both CO2 branches (the discriminant of the CO2 ratio is zero). *)
Definition wqc_double : WQCData.t :=
  WQCData.mk (lit 1e-3) (lit (-3e-6)) (lit 1e-6) (lit 9e-12) (lit (-0.5)).
Definition wue_double : num := lit (-6e-3).

(** A covariance summary with a valid partition. *)
Definition wqc_good : WQCData.t :=
  WQCData.mk (lit 4e-3) (lit (-2e-6)) (lit 7e-6) (lit 4e-12)
    (lit 0.1889822365046136).
Definition wue_good : num := lit (-2e-3).

(** A covariance summary with a valid root and an evaporation of the wrong
    sign. *)
Definition wqc_signs : WQCData.t :=
  WQCData.mk (lit 2e-3) (lit (-4e-6)) (lit 1e-6) (lit 1e-10) (lit (-0.6)).
Definition wue_signs : num := lit (-10e-3).

(** A covariance summary whose trial root passes the bound checks and
    satisfies the residual equations on neither branch. *)
Definition wqc_weak : WQCData.t :=
  WQCData.mk (lit 2e-3) (lit (-1.3333333333333332e-06)) (lit 6e-6)
    (lit 1.0666666666666667e-11) (lit 0).
Definition wue_weak : num := lit (-0.5e-3).

(** The Root Solutions of [findroot] on [wqc_double], [wqc_good] and
    [wqc_weak]. *)
Definition rs_double : RootSoln.t :=
  RootSoln.mk (lit (-0.5)) (lit 1.2000000000000001e-11)
    (lit 1.7320508075688771e-06) (Some 1%Z) true ""%string.
Definition rs_good : RootSoln.t :=
  RootSoln.mk (lit (-0.5)) (lit 3.9999999999999999e-12)
    (lit 1.9999999999999999e-06) (Some 0%Z) true ""%string.
Definition rs_weak : RootSoln.t :=
  RootSoln.mk (lit (-0.10468478451804271)) (lit 1.3296398891966756e-12)
    (lit nan) None false "Trial root did not satisfy equations"%string.

(** Partitioned fluxes to adjust to a net CO2 flux close to zero. *)
Definition fluxes_dusk : MassFluxes.t :=
  MassFluxes.mk (lit 3e-3) (lit 2e-3) (lit 1e-3) (lit (-4e-6)) (lit (-2e-5))
    (lit 1.6e-5).

(** A covariance summary without fluxes. *)
Definition wqc_still : WQCData.t :=
  WQCData.mk (lit 0) (lit 0) (lit 1e-6) (lit 1e-10) (lit 0).

(** Four-sample series: the partition of the mean-removed series has an
    evaporation of the wrong sign, the next level has a valid partition. *)
Definition w_ex : series := [1.5; -0.5; 0; -1].
Definition q_ex : series := [3e-3; -3e-3; 0; 0].
Definition c_ex : series := [4e-6; 4e-6; -8e-6; 0].

(** The three low-cut levels of these series under [lowcut_blocks]. *)
Definition level0_ex : series * series * series := (w_ex, q_ex, c_ex).
Definition level1_ex : series * series * series :=
  ([1; -1; 0.5; -0.5], [3e-3; -3e-3; 0; 0], [0; 0; -4e-6; 4e-6]).
Definition level2_ex : series * series * series :=
  ([0; 0; 0; 0], [0; 0; 0; 0], [0; 0; 0; 0]).

End Examples.

Import Examples.

(** Records of a small dataframe for [hfdata.py]: a water vapor value and
    one flag; a record is masked when the value is null or the flag is set. *)
Module HFExamples.

Definition record : Set := (float * bool)%type.

Definition record_masked (r : record) : bool := PrimFloat.is_nan (fst r) || snd r.

(** Seven records: the second is null, the fifth is flagged. *)
Definition records_ex : list record :=
  [(1e-3, false); (nan, false); (2e-3, false); (3e-3, false);
   (4e-3, true); (5e-3, false); (6e-3, false)]%float.

(** Two records, both masked. *)
Definition records_bad : list record := [(nan, false); (1e-3, true)]%float.

(** A reader of csv files with the vapor and CO2 columns swapped, a
    datetime column and one flag column. *)
Definition reader_ex : HF.reader Z :=
  HF.mk_reader Z "csv" [2; 3; 4; 6; 5; 7; 8]%Z (Some 0%Z) [("flag", (9, 0))%Z].

(** A reader whose flag dict has an entry named as the variable [q]. *)
Definition reader_q : HF.reader Z :=
  HF.mk_reader Z "csv" [2; 3; 4; 5; 6; 7; 8]%Z (Some 0%Z)
    [("q", (9, 1))%Z; ("flag", (10, 0))%Z].

End HFExamples.

Import HFExamples.

(** * Properties *)

(** ** Facts on binary64 arithmetic *)

Module FloatFacts.

Local Open Scope float_scope.

Lemma Prim2SF_nan_inv x : Prim2SF x = S754_nan -> x = nan.
Proof. intros H. apply Prim2SF_inj. rewrite H. reflexivity. Qed.

Lemma add_nan_l y : nan + y = nan.
Proof. apply Prim2SF_inj. rewrite add_spec. reflexivity. Qed.

Lemma add_nan_r x : x + nan = nan.
Proof.
  apply Prim2SF_inj. rewrite add_spec. cbn.
  destruct (Prim2SF x); reflexivity.
Qed.

Lemma sub_nan_l y : nan - y = nan.
Proof. apply Prim2SF_inj. rewrite sub_spec. reflexivity. Qed.

Lemma sub_nan_r x : x - nan = nan.
Proof.
  apply Prim2SF_inj. rewrite sub_spec. cbn.
  destruct (Prim2SF x); reflexivity.
Qed.

Lemma mul_nan_l y : nan * y = nan.
Proof. apply Prim2SF_inj. rewrite mul_spec. reflexivity. Qed.

Lemma mul_nan_r x : x * nan = nan.
Proof.
  apply Prim2SF_inj. rewrite mul_spec. cbn.
  destruct (Prim2SF x); reflexivity.
Qed.

Lemma div_nan_l y : nan / y = nan.
Proof. apply Prim2SF_inj. rewrite div_spec. reflexivity. Qed.

Lemma div_nan_r x : x / nan = nan.
Proof.
  apply Prim2SF_inj. rewrite div_spec. cbn.
  destruct (Prim2SF x); reflexivity.
Qed.

Ltac by_sign x :=
  let E := fresh "E" in
  destruct (Prim2SF x) as [ [] | [] | | [] ? ?] eqn:E; cbn in *;
  try discriminate; try reflexivity.

Lemma ltb_nan_l y : (nan <? y) = false.
Proof. rewrite ltb_spec. reflexivity. Qed.

Lemma ltb_nan_r x : (x <? nan) = false.
Proof. rewrite ltb_spec. by_sign x. Qed.

Lemma leb_nan_l y : (nan <=? y) = false.
Proof. rewrite leb_spec. reflexivity. Qed.

Lemma leb_nan_r x : (x <=? nan) = false.
Proof. rewrite leb_spec. by_sign x. Qed.

(** Comparisons with zero: outside nan, [x <= 0] fails exactly when
    [0 < x] holds, and likewise on the other side. *)
Lemma not_leb_0_ltb x : (x <=? 0) = false -> x <> nan -> (0 <? x) = true.
Proof.
  rewrite leb_spec, ltb_spec. intros H Hn. by_sign x.
  exfalso. apply Hn. apply Prim2SF_nan_inv; assumption.
Qed.

Lemma ltb_0_not_leb x : (0 <? x) = true -> (x <=? 0) = false.
Proof. rewrite leb_spec, ltb_spec. intros H. by_sign x. Qed.

Lemma not_geb_0_ltb x : (0 <=? x) = false -> x <> nan -> (x <? 0) = true.
Proof.
  rewrite leb_spec, ltb_spec. intros H Hn. by_sign x.
  exfalso. apply Hn. apply Prim2SF_nan_inv; assumption.
Qed.

Lemma ltb_0_not_geb x : (x <? 0) = true -> (0 <=? x) = false.
Proof. rewrite leb_spec, ltb_spec. intros H. by_sign x. Qed.

Lemma ltb_0_neq x : (x <? 0) = true -> (x =? 0) = false.
Proof. rewrite FloatAxioms.eqb_spec, ltb_spec. intros H. by_sign x. Qed.

Lemma not_leb_0_not_ltb x : (x <=? 0) = false -> (x <? 0) = false.
Proof. rewrite leb_spec, ltb_spec. intros H. by_sign x. Qed.

Lemma eqb_0_cases x : (x =? 0) = true -> x = 0 \/ x = (-0).
Proof.
  rewrite FloatAxioms.eqb_spec. intros H. by_sign x.
  - right. apply Prim2SF_inj. rewrite E. reflexivity.
  - left. apply Prim2SF_inj. rewrite E. reflexivity.
Qed.

(** A value that is not finite is not-a-number or an infinity. *)
Lemma is_finite_cases x :
  is_finite x = false -> x = nan \/ x = infinity \/ x = neg_infinity.
Proof.
  unfold is_finite, is_nan, is_infinity.
  rewrite !FloatAxioms.eqb_spec, abs_spec.
  destruct (Prim2SF x) as [s | s | | s m e] eqn:E.
  - destruct s; cbn; discriminate.
  - intros _. right.
    destruct s; [right | left]; apply Prim2SF_inj; rewrite E; reflexivity.
  - intros _. left. apply Prim2SF_inj; rewrite E; reflexivity.
  - unfold SFeqb, SFcompare. cbn.
    rewrite Z.compare_refl, Pos.compare_cont_refl. destruct s; cbn; discriminate.
Qed.

(** A quotient by an infinity is a zero or not-a-number. *)
Lemma div_infinity_cases (t : float) (s : bool) :
  let i := if s then neg_infinity else infinity in
  t / i = nan \/ t / i = 0 \/ t / i = (-0).
Proof.
  cbn zeta.
  assert (Prim2SF (t / (if s then neg_infinity else infinity)) = S754_nan
          \/ exists b, Prim2SF (t / (if s then neg_infinity else infinity))
                       = S754_zero b) as H.
  { rewrite div_spec. destruct s; cbn; destruct (Prim2SF t); cbn; eauto. }
  destruct H as [H | [b H]].
  - left. apply Prim2SF_inj. rewrite H. reflexivity.
  - right. destruct b; [right | left]; apply Prim2SF_inj; rewrite H; reflexivity.
Qed.

(** If [1 - 1 / c2 + t / c2] is zero then [c2] is finite. *)
Lemma disc_zero_finite (c2 t : float) :
  (1 - 1 / c2 + t / c2 =? 0) = true -> is_finite c2 = true.
Proof.
  intros H. destruct (is_finite c2) eqn:E; [reflexivity |]. exfalso.
  apply is_finite_cases in E. destruct E as [-> | [-> | ->]].
  - rewrite div_nan_r, sub_nan_r, add_nan_l in H. discriminate H.
  - change (1 - 1 / infinity) with 1 in H.
    destruct (div_infinity_cases t false) as [E | [E | E]]; cbn in E;
      rewrite E in H; discriminate H.
  - change (1 - 1 / neg_infinity) with 1 in H.
    destruct (div_infinity_cases t true) as [E | [E | E]]; cbn in E;
      rewrite E in H; discriminate H.
Qed.

End FloatFacts.

(** ** Rounding of binary64 sums and differences

    The error of one rounding to nearest, from the specification of the
    binary64 operations ([SpecFloat]). *)

Module Rounding.

Local Open Scope Z_scope.

Lemma digits2_pos_bounds (p : positive) :
  2 ^ (Zpos (digits2_pos p) - 1) <= Zpos p < 2 ^ Zpos (digits2_pos p).
Proof.
  induction p as [p IH | p IH |]; cbn [digits2_pos].
  - rewrite Pos2Z.inj_succ.
    replace (Z.succ (Zpos (digits2_pos p)) - 1) with (Z.succ (Zpos (digits2_pos p) - 1))
      by lia.
    rewrite !Z.pow_succ_r by lia. lia.
  - rewrite Pos2Z.inj_succ.
    replace (Z.succ (Zpos (digits2_pos p)) - 1) with (Z.succ (Zpos (digits2_pos p) - 1))
      by lia.
    rewrite !Z.pow_succ_r by lia. lia.
  - cbn. lia.
Qed.

Lemma iter_pos_nat {A : Type} (f : A -> A) (n : positive) (x : A) :
  @SpecFloat.iter_pos A f n x = Nat.iter (Pos.to_nat n) f x.
Proof.
  revert x. induction n as [n IH | n IH |]; intros x; cbn [SpecFloat.iter_pos].
  - rewrite !IH. rewrite Pos2Nat.inj_xI.
    replace (S (2 * Pos.to_nat n))%nat with (Pos.to_nat n + (Pos.to_nat n + 1))%nat
      by lia.
    rewrite !Nat.iter_add. reflexivity.
  - rewrite !IH. rewrite Pos2Nat.inj_xO.
    replace (2 * Pos.to_nat n)%nat with (Pos.to_nat n + Pos.to_nat n)%nat by lia.
    rewrite Nat.iter_add. reflexivity.
  - reflexivity.
Qed.

Lemma shifted_0 (m0 : Z) :
  0 <= m0 -> shifted m0 0 (Build_shr_record m0 false false).
Proof.
  intros H. split; [exact H |]. exists 0. cbn. split; [lia |].
  split; [lia | tauto].
Qed.

Lemma shifted_shr_1 (m0 k : Z) (mrs : shr_record) :
  0 <= k -> shifted m0 k mrs -> shifted m0 (k + 1) (shr_1 mrs).
Proof.
  intros Hk [Hm (t & Ht & Hb & Hs)].
  destruct mrs as [m r s]. cbn [shr_m shr_r shr_s] in *.
  assert (Hp : 2 ^ (k + 1) = 2 * 2 ^ k) by (rewrite Z.pow_add_r by lia; lia).
  assert (Hpos : 0 < 2 ^ k) by (apply Z.pow_pos_nonneg; lia).
  assert (Hst : (r || s = false) <-> Z.b2z r * 2 ^ k + t = 0).
  { destruct Hs as [Hs1 Hs2].
    destruct r, s; cbn [orb Z.b2z]; split; intros H; try discriminate H;
      try reflexivity.
    - lia.
    - lia.
    - assert (E : t = 0) by lia. specialize (Hs2 E). discriminate Hs2.
    - specialize (Hs1 eq_refl). lia. }
  assert (Hr : 0 <= Z.b2z r <= 1) by (destruct r; cbn; lia).
  destruct m as [| [p | p |] | p]; cbn [shr_1]; unfold shifted;
    cbn [shr_m shr_r shr_s]; try lia.
  - split; [lia |]. exists (Z.b2z r * 2 ^ k + t). rewrite Hp. cbn [Z.b2z].
    split; [lia |]. split; [nia | exact Hst].
  - split; [lia |]. exists (Z.b2z r * 2 ^ k + t). rewrite Hp. cbn [Z.b2z].
    split; [rewrite Ht, (Pos2Z.inj_xI p); lia |]. split; [nia | exact Hst].
  - split; [lia |]. exists (Z.b2z r * 2 ^ k + t). rewrite Hp. cbn [Z.b2z].
    split; [rewrite Ht, (Pos2Z.inj_xO p); lia |]. split; [nia | exact Hst].
  - split; [lia |]. exists (Z.b2z r * 2 ^ k + t). rewrite Hp. cbn [Z.b2z].
    split; [lia |]. split; [nia | exact Hst].
Qed.

Lemma shifted_iter (m0 : Z) (k : nat) :
  0 <= m0 ->
  shifted m0 (Z.of_nat k) (Nat.iter k shr_1 (Build_shr_record m0 false false)).
Proof.
  intros H. induction k as [| k IH].
  - apply shifted_0, H.
  - rewrite Nat2Z.inj_succ. cbn [Nat.iter]. unfold Z.succ.
    apply shifted_shr_1; [lia | exact IH].
Qed.

Lemma shifted_round (m0 k : Z) (mrs : shr_record) :
  0 <= k -> shifted m0 k mrs ->
  let r1 := round_nearest_even (shr_m mrs) (loc_of_shr_record mrs) in
  shr_m mrs <= r1 <= shr_m mrs + 1
  /\ shr_m mrs * 2 ^ k <= m0 < (shr_m mrs + 1) * 2 ^ k
  /\ 2 * Z.abs (r1 * 2 ^ k - m0) <= 2 ^ k.
Proof.
  intros Hk [Hm (t & Ht & Hb & Hs)].
  destruct mrs as [m r s]. cbn [shr_m shr_r shr_s] in *.
  assert (Hpos : 0 < 2 ^ k) by (apply Z.pow_pos_nonneg; lia).
  destruct r, s; cbn [loc_of_shr_record round_nearest_even Z.b2z] in *.
  - assert (t <> 0) by (intros E; apply Hs in E; discriminate E). lia.
  - assert (t = 0) by (apply Hs; reflexivity). subst t.
    destruct (Z.even m); lia.
  - assert (t <> 0) by (intros E; apply Hs in E; discriminate E). lia.
  - assert (t = 0) by (apply Hs; reflexivity). lia.
Qed.


Lemma shr_fexp_pos (m : positive) (e : Z) (l : location) :
  shr_fexp prec emax (Zpos m) e l
  = let n := Z.max (Zpos (digits2_pos m) + e - 53) (-1074) - e in
    if n <=? 0 then (shr_record_of_loc (Zpos m) l, e)
    else (Nat.iter (Z.to_nat n) shr_1 (shr_record_of_loc (Zpos m) l), e + n).
Proof.
  unfold shr_fexp, shr, fexp, SpecFloat.emin, Zdigits2. cbv zeta.
  change (3 - emax - prec) with (-1074). change prec with 53.
  destruct (Z.max (Zpos (digits2_pos m) + e - 53) (-1074) - e) as [| p | p] eqn:E.
  - reflexivity.
  - replace (Zpos p <=? 0) with false by (symmetry; apply Z.leb_gt; lia).
    rewrite iter_pos_nat. reflexivity.
  - reflexivity.
Qed.

Lemma digits2_pos_53 (q : positive) :
  2 ^ 52 <= Zpos q < 2 ^ 53 -> Zpos (digits2_pos q) = 53.
Proof.
  intros H. pose proof (digits2_pos_bounds q) as Hd.
  destruct (Z.lt_trichotomy (Zpos (digits2_pos q)) 53) as [Hlt | [E | Hgt]];
    [| exact E |].
  - assert (2 ^ Zpos (digits2_pos q) <= 2 ^ 52)
      by (apply Z.pow_le_mono_r; lia).
    lia.
  - assert (2 ^ 53 <= 2 ^ (Zpos (digits2_pos q) - 1))
      by (apply Z.pow_le_mono_r; lia).
    lia.
Qed.

(** The rounding of a positive mantissa: a finite result is within
    [2^-53] of the value, relative to the result. *)
Lemma binary_round_aux_error (s : bool) (mz : positive) (e1 : Z) :
  -1074 <= e1 ->
  match binary_round_aux prec emax s (Zpos mz) e1 loc_Exact with
  | S754_finite s' m e =>
      s' = s /\ -1074 <= e
      /\ Z.abs (Zpos m * 2 ^ (e + 1074) - Zpos mz * 2 ^ (e1 + 1074)) * 2 ^ 53
         <= Zpos m * 2 ^ (e + 1074)
  | S754_infinity _ => True
  | _ => False
  end.
Proof.
  intros He1. unfold binary_round_aux.
  rewrite shr_fexp_pos. cbv zeta.
  pose proof (digits2_pos_bounds mz) as Hd.
  set (d := Zpos (digits2_pos mz)) in *.
  assert (HP : 0 < 2 ^ (e1 + 1074)) by (apply Z.pow_pos_nonneg; lia).
  destruct (Z.leb_spec (Z.max (d + e1 - 53) (-1074) - e1) 0) as [Hn | Hn].
  - (* no shift: the value is kept *)
    cbn [shr_record_of_loc shr_m loc_of_shr_record round_nearest_even].
    rewrite shr_fexp_pos. cbv zeta. fold d.
    replace (Z.max (d + e1 - 53) (-1074) - e1 <=? 0) with true
      by (symmetry; apply Z.leb_le; exact Hn).
    cbn [shr_record_of_loc shr_m].
    destruct (e1 <=? emax - prec); [| exact I].
    split; [reflexivity |]. split; [exact He1 |].
    rewrite Z.sub_diag, Z.abs_0, Z.mul_0_l. nia.
  - (* a shift by n = d - 53 bits *)
    set (n := Z.max (d + e1 - 53) (-1074) - e1) in *.
    assert (En : n = d - 53) by lia.
    assert (Hnn : Z.of_nat (Z.to_nat n) = n) by lia.
    pose proof (shifted_iter (Zpos mz) (Z.to_nat n) ltac:(lia)) as Hsh.
    rewrite Hnn in Hsh. cbn [shr_record_of_loc].
    set (mrs := Nat.iter (Z.to_nat n) shr_1 (Build_shr_record (Zpos mz) false false)) in *.
    destruct (shifted_round (Zpos mz) n mrs ltac:(lia) Hsh) as (Hr1 & Hm' & Herr).
    set (r1 := round_nearest_even (shr_m mrs) (loc_of_shr_record mrs)) in *.
    assert (HN : 0 < 2 ^ n) by (apply Z.pow_pos_nonneg; lia).
    assert (Hd1 : 2 ^ (d - 1) = 2 ^ 52 * 2 ^ n)
      by (rewrite <- Z.pow_add_r by lia; f_equal; lia).
    assert (Hd2 : 2 ^ d = 2 ^ 53 * 2 ^ n)
      by (rewrite <- Z.pow_add_r by lia; f_equal; lia).
    assert (Hm52 : 2 ^ 52 <= shr_m mrs < 2 ^ 53) by nia.
    assert (HP' : 2 ^ (e1 + n + 1074) = 2 ^ n * 2 ^ (e1 + 1074))
      by (rewrite <- Z.pow_add_r by lia; f_equal; lia).
    assert (Hbound : Z.abs (r1 * 2 ^ (e1 + n + 1074) - Zpos mz * 2 ^ (e1 + 1074))
                     * 2 ^ 53 <= r1 * 2 ^ (e1 + n + 1074)).
    { rewrite HP'.
      replace (r1 * (2 ^ n * 2 ^ (e1 + 1074)) - Zpos mz * 2 ^ (e1 + 1074))
        with ((r1 * 2 ^ n - Zpos mz) * 2 ^ (e1 + 1074)) by ring.
      rewrite Z.abs_mul, (Z.abs_eq (2 ^ (e1 + 1074))) by lia.
      assert (H1 : Z.abs (r1 * 2 ^ n - Zpos mz) * 2 ^ 53 <= r1 * 2 ^ n) by nia.
      nia. }
    destruct (Z.eq_dec r1 (2 ^ 53)) as [E53 | N53].
    + (* the rounding carried to 2^53: one more exact shift *)
      rewrite E53 in *. change (2 ^ 53) with (Zpos (Pos.pow 2 53)) at 1.
      rewrite shr_fexp_pos. cbv zeta.
      change (Zpos (digits2_pos (2 ^ 53))) with 54.
      replace (Z.max (54 + (e1 + n) - 53) (-1074) - (e1 + n)) with 1 by lia.
      change (1 <=? 0) with false. cbv iota.
      match goal with
      | |- context [Nat.iter ?a ?f ?x] =>
          change (Nat.iter a f x)
            with (Build_shr_record 4503599627370496 false false)
      end.
      cbn [shr_m fst snd].
      destruct (e1 + n + 1 <=? emax - prec); [| exact I].
      split; [reflexivity |]. split; [lia |].
      replace (e1 + n + 1 + 1074) with (Z.succ (e1 + n + 1074)) by lia.
      rewrite Z.pow_succ_r by lia.
      replace (4503599627370496 * (2 * 2 ^ (e1 + n + 1074)))
        with (2 ^ 53 * 2 ^ (e1 + n + 1074)) by (change (2 ^ 53) with 9007199254740992; ring).
      exact Hbound.
    + destruct r1 as [| q | q] eqn:Er1; [lia | | lia].
      rewrite shr_fexp_pos. cbv zeta.
      rewrite (digits2_pos_53 q) by lia.
      replace (Z.max (53 + (e1 + n) - 53) (-1074) - (e1 + n) <=? 0) with true
        by (symmetry; apply Z.leb_le; lia).
      cbn [shr_record_of_loc shr_m].
      destruct (e1 + n <=? emax - prec); [| exact I].
      split; [reflexivity |]. split; [lia |]. exact Hbound.
Qed.


Lemma iter_xO_value (m d : positive) :
  Zpos (Pos.iter xO m d) = Zpos m * 2 ^ Zpos d.
Proof.
  induction d as [| d IH] using Pos.peano_ind.
  - cbn. lia.
  - rewrite Pos.iter_succ, Pos2Z.inj_succ, Z.pow_succ_r by lia.
    rewrite Pos2Z.inj_xO, IH. ring.
Qed.

Lemma shl_align_value (mx : positive) (ex ex' : Z) :
  snd (shl_align mx ex ex') = Z.min ex ex'
  /\ Zpos (fst (shl_align mx ex ex'))
     = Zpos mx * 2 ^ (ex - Z.min ex ex').
Proof.
  unfold shl_align. destruct (ex' - ex) as [| d | d] eqn:E; cbn [fst snd].
  - replace (Z.min ex ex') with ex by lia. rewrite Z.sub_diag. cbn. lia.
  - replace (Z.min ex ex') with ex by lia. rewrite Z.sub_diag. cbn. lia.
  - replace (Z.min ex ex') with ex' by lia.
    replace (ex - ex') with (Zpos d) by lia.
    split; [reflexivity | apply iter_xO_value].
Qed.

Lemma binary_round_error (s : bool) (m : positive) (ez : Z) :
  -1074 <= ez ->
  finite_or_zero (binary_round prec emax s m ez) ->
  Z.abs (SF_units (binary_round prec emax s m ez)
         - cond_Zopp s (Zpos m) * 2 ^ (ez + 1074)) * 2 ^ 53
  <= Z.abs (SF_units (binary_round prec emax s m ez)).
Proof.
  intros Hez. unfold binary_round.
  destruct (shl_align_value m ez (fexp prec emax (Zpos (digits2_pos m) + ez)))
    as [He Hm].
  destruct (shl_align m ez (fexp prec emax (Zpos (digits2_pos m) + ez)))
    as [mz e1]. cbn [fst snd] in He, Hm.
  assert (He1 : -1074 <= e1 <= ez).
  { subst e1. unfold fexp, SpecFloat.emin.
    change (3 - emax - prec) with (-1074). lia. }
  pose proof (binary_round_aux_error s mz e1 ltac:(lia)) as H.
  assert (Hv : Zpos mz * 2 ^ (e1 + 1074) = Zpos m * 2 ^ (ez + 1074)).
  { rewrite Hm, <- He, <- Z.mul_assoc, <- Z.pow_add_r by lia.
    do 2 f_equal. lia. }
  destruct (binary_round_aux prec emax s (Zpos mz) e1 loc_Exact)
    as [b | b | | s' m' e']; cbn [finite_or_zero]; try tauto.
  intros _. destruct H as (-> & He' & Hb). cbn [SF_units].
  rewrite Hv in Hb.
  assert (HP : 0 < 2 ^ (e' + 1074)) by (apply Z.pow_pos_nonneg; lia).
  destruct s; cbn [cond_Zopp].
  - replace (- Zpos m' * 2 ^ (e' + 1074) - - Zpos m * 2 ^ (ez + 1074))
      with (- (Zpos m' * 2 ^ (e' + 1074) - Zpos m * 2 ^ (ez + 1074))) by ring.
    rewrite Z.abs_opp.
    replace (- Zpos m' * 2 ^ (e' + 1074)) with (- (Zpos m' * 2 ^ (e' + 1074)))
      by ring.
    rewrite Z.abs_opp, (Z.abs_eq (Zpos m' * 2 ^ (e' + 1074))) by nia. exact Hb.
  - rewrite (Z.abs_eq (Zpos m' * 2 ^ (e' + 1074))) by nia. exact Hb.
Qed.

Lemma binary_normalize_error (M ez : Z) :
  -1074 <= ez ->
  finite_or_zero (binary_normalize prec emax M ez false) ->
  Z.abs (SF_units (binary_normalize prec emax M ez false) - M * 2 ^ (ez + 1074))
  * 2 ^ 53
  <= Z.abs (SF_units (binary_normalize prec emax M ez false)).
Proof.
  intros Hez. destruct M as [| p | p]; cbn [binary_normalize].
  - intros _. cbn. lia.
  - apply (binary_round_error false p ez Hez).
  - apply (binary_round_error true p ez Hez).
Qed.

Lemma valid_binary_exponent (s : bool) (m : positive) (e : Z) :
  valid_binary (S754_finite s m e) = true -> -1074 <= e.
Proof.
  cbn [SpecFloat.valid_binary]. unfold bounded, canonical_mantissa, fexp, SpecFloat.emin.
  change (3 - emax - prec) with (-1074).
  intros H. apply andb_prop in H. destruct H as [H _].
  apply Z.eqb_eq in H. lia.
Qed.

Lemma aligned_units (s : bool) (m : positive) (e ez : Z) :
  -1074 <= ez <= e ->
  cond_Zopp s (Zpos (fst (shl_align m e ez))) * 2 ^ (ez + 1074)
  = SF_units (S754_finite s m e).
Proof.
  intros H. destruct (shl_align_value m e ez) as [_ Hm].
  rewrite Hm. replace (Z.min e ez) with ez by lia. cbn [SF_units].
  replace (2 ^ (e + 1074)) with (2 ^ (e - ez) * 2 ^ (ez + 1074))
    by (rewrite <- Z.pow_add_r by lia; f_equal; lia).
  destruct s; cbn [cond_Zopp]; ring.
Qed.

(** A difference of two binary64 that is finite is within [2^-53] of the
    exact difference, relative to itself. *)
Lemma SFsub_error (x y : spec_float) :
  valid_binary x = true -> valid_binary y = true ->
  finite_or_zero (SFsub prec emax x y) ->
  Z.abs (SF_units (SFsub prec emax x y) - (SF_units x - SF_units y)) * 2 ^ 53
  <= Z.abs (SF_units (SFsub prec emax x y)).
Proof.
  intros Hx Hy.
  destruct x as [sx | sx | | sx mx ex], y as [sy | sy | | sy my ey];
    try (cbn; tauto); try (destruct sx, sy; cbn; tauto);
    try (destruct sx; cbn; tauto).
  - (* zero minus zero *)
    intros _. destruct sx, sy; cbn; lia.
  - (* zero minus finite *)
    intros _. cbn [SFsub SF_units].
    replace (cond_Zopp (negb sy) (Zpos my) * 2 ^ (ey + 1074)
             - (0 - cond_Zopp sy (Zpos my) * 2 ^ (ey + 1074))) with 0
      by (destruct sy; cbn [negb cond_Zopp]; ring).
    cbn. lia.
  - (* finite minus zero *)
    intros _. cbn [SFsub SF_units]. rewrite Z.sub_0_r, Z.sub_diag. cbn. lia.
  - (* finite minus finite *)
    apply valid_binary_exponent in Hx, Hy. cbn [SFsub]. cbv zeta.
    intros Hf.
    pose proof (binary_normalize_error _ (Z.min ex ey) ltac:(lia) Hf) as H.
    rewrite Z.mul_sub_distr_r, !aligned_units in H by lia.
    exact H.
Qed.

Lemma SFadd_error (x y : spec_float) :
  valid_binary x = true -> valid_binary y = true ->
  finite_or_zero (SFadd prec emax x y) ->
  Z.abs (SF_units (SFadd prec emax x y) - (SF_units x + SF_units y)) * 2 ^ 53
  <= Z.abs (SF_units (SFadd prec emax x y)).
Proof.
  intros Hx Hy.
  destruct x as [sx | sx | | sx mx ex], y as [sy | sy | | sy my ey];
    try (cbn; tauto); try (destruct sx, sy; cbn; tauto);
    try (destruct sx; cbn; tauto).
  - intros _. destruct sx, sy; cbn; lia.
  - intros _. cbn [SFadd SF_units]. rewrite Z.add_0_l, Z.sub_diag. cbn. lia.
  - intros _. cbn [SFadd SF_units]. rewrite Z.add_0_r, Z.sub_diag. cbn. lia.
  - apply valid_binary_exponent in Hx, Hy. cbn [SFadd]. cbv zeta.
    intros Hf.
    pose proof (binary_normalize_error _ (Z.min ex ey) ltac:(lia) Hf) as H.
    rewrite Z.mul_add_distr_r, !aligned_units in H by lia.
    exact H.
Qed.

Lemma is_finite_SF (x : float) :
  is_finite x = true -> finite_or_zero (Prim2SF x).
Proof.
  unfold is_finite, is_nan, is_infinity.
  rewrite !FloatAxioms.eqb_spec, abs_spec.
  destruct (Prim2SF x) as [s | s | | s m e]; cbn; try tauto.
  - destruct s; cbn; discriminate.
  - discriminate.
Qed.

Lemma finite_or_zero_is_finite (x : float) :
  finite_or_zero (Prim2SF x) -> is_finite x = true.
Proof.
  unfold is_finite, is_nan, is_infinity.
  rewrite !FloatAxioms.eqb_spec, abs_spec.
  destruct (Prim2SF x) as [s | s | | s m e]; cbn [finite_or_zero]; try tauto;
    intros _.
  unfold SFeqb, SFcompare. cbn.
  rewrite Z.compare_refl, Pos.compare_cont_refl. destruct s; reflexivity.
Qed.

(** A finite difference has finite terms. *)
Lemma sub_finite_inv (x y : float) :
  is_finite (x - y) = true -> is_finite x = true /\ is_finite y = true.
Proof.
  intros H. apply is_finite_SF in H. rewrite sub_spec in H.
  split; apply finite_or_zero_is_finite;
    destruct (Prim2SF x) as [sx | sx | | sx mx ex],
             (Prim2SF y) as [sy | sy | | sy my ey];
    cbn in *; try tauto; destruct sx, sy; cbn in H; tauto.
Qed.

(** A finite value above zero counts a positive number of units. *)
Lemma ltb_0_units (x : float) :
  (0 <? x)%float = true -> is_finite x = true -> 0 < units x.
Proof.
  intros Hlt Hf. apply is_finite_SF in Hf. rewrite ltb_spec in Hlt.
  unfold units. pose proof (Prim2SF_valid x) as Hv.
  destruct (Prim2SF x) as [s | s | | s m e]; cbn [finite_or_zero] in Hf;
    try tauto.
  - destruct s; discriminate Hlt.
  - apply valid_binary_exponent in Hv.
    destruct s; [discriminate Hlt |]. cbn [SF_units cond_Zopp].
    assert (0 < 2 ^ (e + 1074)) by (apply Z.pow_pos_nonneg; lia). nia.
Qed.

(** The rounding error of a finite difference and of a finite sum. *)
Lemma sub_error (x y : float) :
  is_finite (x - y) = true ->
  Z.abs (units (x - y) - (units x - units y)) * 2 ^ 53 <= Z.abs (units (x - y)).
Proof.
  intros H. apply is_finite_SF in H. unfold units. rewrite sub_spec in *.
  apply SFsub_error; [apply Prim2SF_valid | apply Prim2SF_valid | exact H].
Qed.

Lemma add_error (x y : float) :
  is_finite (x + y) = true ->
  Z.abs (units (x + y) - (units x + units y)) * 2 ^ 53 <= Z.abs (units (x + y)).
Proof.
  intros H. apply is_finite_SF in H. unfold units. rewrite add_spec in *.
  apply SFadd_error; [apply Prim2SF_valid | apply Prim2SF_valid | exact H].
Qed.

End Rounding.

(** ** The error monad *)

Lemma bind_Ret_inv {A B : Type} (m : result A) (k : A -> result B) (b : B) :
  bind m k = Ret b -> exists a, m = Ret a /\ k a = Ret b.
Proof.
  destruct m as [a | e]; cbn; intros H; [eauto | discriminate].
Qed.

(** Splits a hypothesis [x <- m ;; k = Ret b] into its two steps. *)
Ltac inv_bind H :=
  let a := fresh "a" in
  let Ha := fresh "Hstep" in
  apply bind_Ret_inv in H; destruct H as (a & Ha & H).

(** ** The sign-validity check *)

(** The flag of [_isvalid_partition] is the conjunction of the four negated
    tests of the source. *)
Lemma _isvalid_partition_flag (fc : MassFluxes.t) :
  fst (_isvalid_partition fc) =
    negb (MassFluxes.Fqt fc <= lit 0) && negb (MassFluxes.Fqe fc <= lit 0)
    && negb (MassFluxes.Fcp fc >= lit 0) && negb (MassFluxes.Fcr fc <= lit 0).
Proof.
  unfold _isvalid_partition.
  destruct (MassFluxes.Fqt fc <= lit 0), (MassFluxes.Fqe fc <= lit 0),
    (MassFluxes.Fcp fc >= lit 0), (MassFluxes.Fcr fc <= lit 0); reflexivity.
Qed.

(** The message of [_isvalid_partition] has one token for every failed
    test, in the order of the tests. *)
Lemma _isvalid_partition_mssg (fc : MassFluxes.t) :
  snd (_isvalid_partition fc) =
    (if MassFluxes.Fqt fc <= lit 0 then "Fqt <= 0; " else "")
    ++ (if MassFluxes.Fqe fc <= lit 0 then "Fqe <= 0; " else "")
    ++ (if MassFluxes.Fcp fc >= lit 0 then "Fcp >= 0; " else "")
    ++ (if MassFluxes.Fcr fc <= lit 0 then "Fcr <= 0; " else "").
Proof.
  unfold _isvalid_partition.
  destruct (MassFluxes.Fqt fc <= lit 0), (MassFluxes.Fqe fc <= lit 0),
    (MassFluxes.Fcp fc >= lit 0), (MassFluxes.Fcr fc <= lit 0); reflexivity.
Qed.

(** Fluxes that satisfy the four sign constraints are marked valid. *)
Lemma _isvalid_partition_complete (fc : MassFluxes.t) :
  signs_ok fc -> _isvalid_partition fc = (true, "").
Proof.
  intros (H1 & H2 & H3 & H4). unfold _isvalid_partition, le, ge, lt in *.
  cbn in *.
  rewrite (FloatFacts.ltb_0_not_leb _ H1), (FloatFacts.ltb_0_not_leb _ H2),
    (FloatFacts.ltb_0_not_geb _ H3), (FloatFacts.ltb_0_not_leb _ H4).
  reflexivity.
Qed.

(** On fluxes without not-a-number, marked valid means the four sign
    constraints hold. *)
Lemma _isvalid_partition_sound (fc : MassFluxes.t) :
  no_nan fc -> fst (_isvalid_partition fc) = true -> signs_ok fc.
Proof.
  intros (N1 & N2 & N3 & N4). rewrite _isvalid_partition_flag.
  unfold le, ge, lt, signs_ok. cbn. intros H.
  apply andb_prop in H. destruct H as [H H4].
  apply andb_prop in H. destruct H as [H H3].
  apply andb_prop in H. destruct H as [H1 H2].
  apply negb_true_iff in H1, H2, H3, H4.
  repeat split; auto using FloatFacts.not_leb_0_ltb, FloatFacts.not_geb_0_ltb.
Qed.

(** C7: the sign-validity check is to mark a partition valid only when
    Fqt > 0, Fqe > 0, Fcp < 0 and Fcr > 0.  On the default Mass Fluxes
    record, whose fields are all not-a-number, and on the record that
    [_mass_fluxes] builds from a not-a-number flux ratio, no constraint
    holds, and [_isvalid_partition] marks both valid with an empty message:
    every test of the source is a comparison that not-a-number fails. *)
Theorem _isvalid_partition_nan_marked_valid :
  _isvalid_partition MassFluxes.default = (true, "")
  /\ ~ signs_ok MassFluxes.default
  /\ _isvalid_partition
       (MassFluxes.mk (lit 1e-3%float) np_nan np_nan (lit (-3e-6)%float) np_nan np_nan)
     = (true, "")
  /\ ~ signs_ok
        (MassFluxes.mk (lit 1e-3%float) np_nan np_nan (lit (-3e-6)%float) np_nan
           np_nan).
Proof.
  split; [reflexivity |]. split; [intros (H & _); discriminate H |].
  split; [reflexivity |]. intros (H & _); discriminate H.
Qed.

(** ** The root solver *)

(** The outcomes of the residual check: branch 1 when it validates,
    otherwise branch 0 when it validates, otherwise no branch.  The
    [assert] between the two tests never fails. *)
Lemma findroot_check_inv corr_cp_cr var_cp var_q var_c wq wc corr_qc wue v m id s :
  findroot_check corr_cp_cr var_cp var_q var_c wq wc corr_qc wue
    = Ret (v, m, id, s) ->
  exists r0 r1,
    _residual_func (corr_cp_cr, var_cp) (WQCData.mk wq wc var_q var_c corr_qc)
      wue (Some 0%Z) = Ret r0
    /\ _residual_func (corr_cp_cr, var_cp) (WQCData.mk wq wc var_q var_c corr_qc)
         wue (Some 1%Z) = Ret r1
    /\ ((within_tol r1 (lit 1e-12) = true /\ v = true /\ m = "" /\ id = Some 1%Z)
        \/ (within_tol r1 (lit 1e-12) = false /\ within_tol r0 (lit 1e-12) = true
            /\ v = true /\ m = "" /\ id = Some 0%Z)
        \/ (within_tol r0 (lit 1e-12) = false /\ within_tol r1 (lit 1e-12) = false
            /\ v = false /\ m = "Trial root did not satisfy equations"
            /\ id = None /\ s = np_nan)).
Proof.
  unfold findroot_check. intros H.
  inv_bind H. rename a into r0. inv_bind H. rename a into r1.
  exists r0, r1. split; [assumption | split; [assumption |]].
  destruct (within_tol r0 (lit 1e-12)) eqn:E0;
    destruct (within_tol r1 (lit 1e-12)) eqn:E1; cbn in H.
  - left. inv_bind H. inv_bind H. inv_bind H. injection H as <- <- <- <-. auto.
  - right; left. inv_bind H. inv_bind H. inv_bind H.
    injection H as <- <- <- <-. auto.
  - left. inv_bind H. inv_bind H. inv_bind H. injection H as <- <- <- <-. auto.
  - right; right. injection H as <- <- <- <-. auto 7.
Qed.

(** [findroot] in terms of the candidate and the residual check. *)
Lemma findroot_inv wqc_data wue rs :
  findroot wqc_data wue = Ret rs ->
  exists corr_cp_cr var_cp v m id s,
    trial_root wqc_data wue = Ret (corr_cp_cr, var_cp)
    /\ rs = RootSoln.mk corr_cp_cr (var_cp * lit 1e-12) (s * lit 1e-6) id v m
    /\ ((fst (_isvalid_root corr_cp_cr var_cp) = false
         /\ (v, m) = _isvalid_root corr_cp_cr var_cp /\ id = None /\ s = np_nan)
        \/ (fst (_isvalid_root corr_cp_cr var_cp) = true
            /\ findroot_check corr_cp_cr var_cp
                 (WQCData.var_q (scaled_wqc wqc_data))
                 (WQCData.var_c (scaled_wqc wqc_data))
                 (WQCData.wq (scaled_wqc wqc_data))
                 (WQCData.wc (scaled_wqc wqc_data))
                 (WQCData.corr_qc (scaled_wqc wqc_data)) (scaled_wue wue)
               = Ret (v, m, id, s))).
Proof.
  unfold findroot. intros H. inv_bind H. destruct a as [corr_cp_cr var_cp].
  destruct (_isvalid_root corr_cp_cr var_cp) as [v0 m0] eqn:Ev.
  inv_bind H. destruct a as [[[v m] id] s]. injection H as <-.
  exists corr_cp_cr, var_cp, v, m, id, s.
  rewrite Ev.
  split; [exact Hstep | split; [reflexivity |]].
  destruct v0; cbn [fst].
  - right. split; [reflexivity | exact Hstep0].
  - left. injection Hstep0 as <- <- <- <-. auto.
Qed.

(** C9, as the code has it: the Root Solution returned by [findroot]
    always carries the trial correlation and the trial variance (rescaled to
    SI units), valid or not; when it is marked invalid its derived standard
    deviation [sig_cr] is not-a-number and it has no branch identifier. *)
Theorem findroot_invalid_payload (wqc_data : WQCData.t) (wue : num) (rs : RootSoln.t) :
  findroot wqc_data wue = Ret rs ->
  exists corr_cp_cr var_cp,
    trial_root wqc_data wue = Ret (corr_cp_cr, var_cp)
    /\ RootSoln.corr_cp_cr rs = corr_cp_cr
    /\ RootSoln.var_cp rs = var_cp * lit 1e-12
    /\ (RootSoln.isvalid rs = false ->
        val (RootSoln.sig_cr rs) = nan /\ RootSoln.co2soln_id rs = None).
Proof.
  intros H. apply findroot_inv in H.
  destruct H as (corr_cp_cr & var_cp & v & m & id & s & Ht & -> & Hc).
  exists corr_cp_cr, var_cp. cbn.
  split; [assumption | split; [reflexivity | split; [reflexivity |]]].
  intros Hv.
  destruct Hc as [(_ & _ & -> & ->) | (_ & Hc)]; [split; reflexivity |].
  apply findroot_check_inv in Hc.
  destruct Hc as (r0 & r1 & _ & _ & [Hc | [Hc | Hc]]).
  - destruct Hc as (_ & Hv' & _). congruence.
  - destruct Hc as (_ & _ & Hv' & _). congruence.
  - destruct Hc as (_ & _ & _ & _ & -> & ->). split; reflexivity.
Qed.


(** C9, counterexample: at [wqc_weak] the Root Solution is marked invalid
    and carries the finite trial correlation -0.1047 and trial variance
    1.33e-12. *)
Lemma findroot_invalid_payload_finite :
  findroot wqc_weak wue_weak = Ret rs_weak
  /\ RootSoln.isvalid rs_weak = false
  /\ is_nan (val (RootSoln.corr_cp_cr rs_weak)) = false
  /\ is_nan (val (RootSoln.var_cp rs_weak)) = false.
Proof. vm_compute. repeat split. Qed.

(** The invalid Root Solution of [wqc_weak]: its correlation and variance
    are the trial values, its [sig_cr] is not-a-number and it has no branch
    identifier. *)
Lemma findroot_invalid_payload_example :
  findroot wqc_weak wue_weak = Ret rs_weak
  /\ exists corr_cp_cr var_cp,
       trial_root wqc_weak wue_weak = Ret (corr_cp_cr, var_cp)
       /\ RootSoln.corr_cp_cr rs_weak = corr_cp_cr
       /\ RootSoln.var_cp rs_weak = var_cp * lit 1e-12
       /\ (RootSoln.isvalid rs_weak = false ->
           val (RootSoln.sig_cr rs_weak) = nan
           /\ RootSoln.co2soln_id rs_weak = None).
Proof.
  split; [vm_compute; reflexivity |].
  apply (findroot_invalid_payload wqc_weak wue_weak rs_weak).
  vm_compute. reflexivity.
Defined.

(** The [assert] of the residual check cannot fail: when it is reached,
    [co2soln_id] is [None] or [0], and both are false in Python. *)
Lemma findroot_check_assert_passes (co2soln_id : option Z) :
  co2soln_id = None \/ co2soln_id = Some 0%Z ->
  py_assert (negb (truthy co2soln_id)) = Ret tt.
Proof. intros [-> | ->]; reflexivity. Qed.

(** ** Flux reconstruction *)

(** C4: a not-a-number CO2 flux ratio is to be caught by the sign-validity
    check, the partition being marked invalid.  In the code, whenever the
    flux ratio computed by [_mass_fluxes] is not-a-number, so are the four
    partitioned fluxes, every test of [_isvalid_partition] fails on them,
    and the partition is marked valid with an empty message. *)
Theorem _mass_fluxes_nan_ratio_marked_valid var_cp corr_cp_cr wqc_data wue co2soln_id r mf :
  flux_ratio var_cp corr_cp_cr wqc_data "co2" (FId co2soln_id) = Ret r ->
  val r = nan ->
  _mass_fluxes var_cp corr_cp_cr wqc_data wue co2soln_id = Ret mf ->
  _isvalid_partition mf = (true, "")
  /\ val (MassFluxes.Fqt mf) = nan /\ val (MassFluxes.Fqe mf) = nan
  /\ val (MassFluxes.Fcp mf) = nan /\ val (MassFluxes.Fcr mf) = nan.
Proof.
  intros Hr Hn H. unfold _mass_fluxes in H. rewrite Hr in H. cbn in H.
  inv_bind H. rename a into wcp. inv_bind H. rename a into wqt.
  injection H as <-.
  assert (Hwcp : val wcp = nan).
  { unfold truediv in Hstep. cbn in Hstep. rewrite Hn in Hstep.
    rewrite FloatFacts.add_nan_l, FloatFacts.div_nan_r in Hstep.
    destruct (is_np (WQCData.wc wqc_data) || (is_np r || false));
      [| destruct (nan =? 0)%float; [discriminate |]];
      injection Hstep as <-; reflexivity. }
  assert (Hwqt : val wqt = nan).
  { unfold truediv in Hstep0. rewrite Hwcp in Hstep0.
    rewrite FloatFacts.div_nan_l in Hstep0.
    destruct (is_np wcp || is_np wue);
      [| destruct (val wue =? 0)%float; [discriminate |]];
      injection Hstep0 as <-; reflexivity. }
  unfold _isvalid_partition, le, ge. cbn.
  rewrite Hwcp, Hwqt.
  rewrite !FloatFacts.sub_nan_r.
  repeat split; reflexivity.
Qed.

(** At [wqc_double] the root is valid; the flux ratio recomputed by
    [_mass_fluxes] on the SI values has the discriminant -4.44e-16 and is
    not-a-number; the four partitioned fluxes are not-a-number and
    [fvspart_interval] returns the partition marked valid. *)
Lemma fvspart_interval_nan_ratio_marked_valid :
  flux_ratio_disc (RootSoln.var_cp rs_double) (RootSoln.corr_cp_cr rs_double)
      (WQCData.var_c wqc_double)
    = Ret (lit (-4.4408920985006262e-16)%float)
  /\ fvspart_interval wqc_double wue_double false
       = Ret (FVSPResult.mk wqc_double rs_double
                (MassFluxes.mk (WQCData.wq wqc_double) np_nan np_nan
                   (WQCData.wc wqc_double) np_nan np_nan)
                true "" None)
  /\ exists mf,
       _mass_fluxes (RootSoln.var_cp rs_double) (RootSoln.corr_cp_cr rs_double)
         wqc_double wue_double (RootSoln.co2soln_id rs_double) = Ret mf
       /\ _isvalid_partition mf = (true, "")
       /\ val (MassFluxes.Fqt mf) = nan /\ val (MassFluxes.Fqe mf) = nan
       /\ val (MassFluxes.Fcp mf) = nan /\ val (MassFluxes.Fcr mf) = nan.
Proof.
  split; [vm_compute; reflexivity |]. split; [vm_compute; reflexivity |].
  eexists. split; [vm_compute; reflexivity |].
  apply (_mass_fluxes_nan_ratio_marked_valid (RootSoln.var_cp rs_double)
           (RootSoln.corr_cp_cr rs_double) wqc_double wue_double
           (RootSoln.co2soln_id rs_double) np_nan);
    vm_compute; reflexivity.
Defined.

(** A CO2 flux ratio of exactly -1 on Python floats: the division
    [wc / (wcr_ov_wcp + 1)] raises, and no partition is returned. *)
Lemma _mass_fluxes_ratio_minus_one_raises :
  flux_ratio (lit 1%float) (lit (-0.5)%float)
      (WQCData.mk (lit 1e-3%float) (lit (-3e-6)%float) (lit 1e-6%float)
         (lit 3%float) (lit (-0.5)%float)) "co2" (FId (Some 0%Z))
    = Ret (lit (-1)%float)
  /\ _mass_fluxes (lit 1%float) (lit (-0.5)%float)
       (WQCData.mk (lit 1e-3%float) (lit (-3e-6)%float) (lit 1e-6%float)
          (lit 3%float) (lit (-0.5)%float)) (lit (-6e-3)%float) (Some 0%Z)
     = Raise ZeroDivisionError.
Proof. vm_compute. split; reflexivity. Qed.

(** ** Not-a-number through the flux ratio and the residuals *)

Lemma truediv_val (a b c : num) :
  truediv a b = Ret c -> val c = (val a / val b)%float.
Proof.
  unfold truediv. destruct (is_np a || is_np b).
  - intros H. injection H as <-. reflexivity.
  - destruct (val b =? 0)%float; [discriminate |].
    intros H. injection H as <-. reflexivity.
Qed.

Lemma math_sqrt_val (a c : num) :
  math_sqrt a = Ret c -> val c = PrimFloat.sqrt (val a).
Proof.
  unfold math_sqrt. destruct (val a <? 0)%float; [discriminate |].
  intros H. injection H as <-. reflexivity.
Qed.

Lemma pow2_val (a c : num) :
  pow2 a = Ret c -> val c = (val a * val a)%float.
Proof.
  unfold pow2. destruct (is_np a).
  - intros H. injection H as <-. reflexivity.
  - destruct (is_finite (val a) && is_infinity (val a * val a));
      [discriminate |].
    intros H. injection H as <-. reflexivity.
Qed.

(** With a not-a-number variance the discriminant is not-a-number. *)
Lemma flux_ratio_disc_nan_var_cp var_cp corr_cp_cr n disc :
  val var_cp = nan ->
  flux_ratio_disc var_cp corr_cp_cr n = Ret disc -> val disc = nan.
Proof.
  intros Hn H. unfold flux_ratio_disc in H.
  inv_bind H. inv_bind H. inv_bind H. inv_bind H. inv_bind H.
  injection H as <-. cbn.
  apply truediv_val in Hstep3. apply truediv_val in Hstep1.
  rewrite Hstep3, Hstep1, Hn.
  rewrite FloatFacts.div_nan_r, FloatFacts.div_nan_l.
  apply FloatFacts.add_nan_r.
Qed.

(** A not-a-number discriminant gives a not-a-number ratio: the test
    [disc < 0] fails and the square root of not-a-number is taken. *)
Lemma flux_ratio_nan_disc var_cp corr_cp_cr wqc_data ftype farg sign n disc r :
  flux_ratio_sign_num wqc_data ftype farg = Ret (sign, n) ->
  flux_ratio_disc var_cp corr_cp_cr n = Ret disc ->
  val disc = nan ->
  flux_ratio var_cp corr_cp_cr wqc_data ftype farg = Ret r -> val r = nan.
Proof.
  intros Hs Hd Hn H. unfold flux_ratio in H. rewrite Hs in H. cbn in H.
  rewrite Hd in H. cbn in H. unfold lt in H. rewrite Hn in H.
  rewrite FloatFacts.ltb_nan_l in H.
  inv_bind H. inv_bind H. injection H as <-. cbn.
  apply math_sqrt_val in Hstep0. rewrite Hstep0, Hn.
  change (PrimFloat.sqrt nan) with nan.
  rewrite FloatFacts.mul_nan_r, FloatFacts.sub_nan_l.
  apply FloatFacts.mul_nan_r.
Qed.

Lemma flux_ratio_nan_var_cp var_cp corr_cp_cr wqc_data ftype farg r :
  val var_cp = nan ->
  flux_ratio var_cp corr_cp_cr wqc_data ftype farg = Ret r -> val r = nan.
Proof.
  intros Hn H. pose proof H as H'. unfold flux_ratio in H'.
  inv_bind H'. destruct a as [sign n]. inv_bind H'. rename a into disc.
  eapply flux_ratio_nan_disc; eauto using flux_ratio_disc_nan_var_cp.
Qed.

(** With a not-a-number variance the first residual is not-a-number, and
    the pair is not within any tolerance. *)
Lemma _residual_func_nan_var_cp corr_cp_cr var_cp wqc_data wue id r tol :
  val var_cp = nan ->
  _residual_func (corr_cp_cr, var_cp) wqc_data wue id = Ret r ->
  within_tol r tol = false.
Proof.
  intros Hn H. unfold _residual_func in H.
  inv_bind H. rename a into wcr. inv_bind H. rename a into wqe.
  inv_bind H. inv_bind H. inv_bind H. inv_bind H. inv_bind H.
  injection H as <-.
  apply (flux_ratio_nan_var_cp _ _ _ _ _ _ Hn) in Hstep.
  unfold within_tol, lt. cbn. rewrite Hstep.
  rewrite FloatFacts.add_nan_l, FloatFacts.mul_nan_r, FloatFacts.sub_nan_l.
  change (PrimFloat.abs nan) with nan.
  rewrite FloatFacts.ltb_nan_l. reflexivity.
Qed.

(** The bound checks of [_isvalid_root], as the source tests them. *)
Lemma _isvalid_root_flag (corr_cp_cr var_cp : num) :
  fst (_isvalid_root corr_cp_cr var_cp) =
    negb (var_cp <= lit 0) && ((lit (-1) < corr_cp_cr) && (corr_cp_cr < lit 0)).
Proof.
  unfold _isvalid_root.
  destruct (var_cp <= lit 0), ((lit (-1) < corr_cp_cr) && (corr_cp_cr < lit 0));
    reflexivity.
Qed.

Lemma branch_validates_not_nan wqc_data wue corr_cp_cr var_cp b :
  branch_validates wqc_data wue (corr_cp_cr, var_cp) b = true ->
  val var_cp <> nan.
Proof.
  unfold branch_validates, branch_residual. intros H Hn.
  destruct (_residual_func _ _ _ _) as [r | e] eqn:E; [| discriminate].
  rewrite (_residual_func_nan_var_cp _ _ _ _ _ _ _ Hn E) in H. discriminate.
Qed.

(** C1: the Root Solution returned by [findroot] is marked valid exactly
    when the closed-form candidate has [var_cp > 0] and [corr_cp_cr]
    strictly between -1 and 0 and at least one of the CO2 branches 0 and 1
    has both residual components strictly within 1e-12 of zero; the branch
    identifier returned is a branch that validated. *)
Theorem findroot_valid_iff (wqc_data : WQCData.t) (wue : num) (rs : RootSoln.t) :
  findroot wqc_data wue = Ret rs ->
  exists corr_cp_cr var_cp,
    trial_root wqc_data wue = Ret (corr_cp_cr, var_cp)
    /\ (RootSoln.isvalid rs = true <->
        (lit 0 < var_cp) = true
        /\ (lit (-1) < corr_cp_cr) = true /\ (corr_cp_cr < lit 0) = true
        /\ (branch_validates wqc_data wue (corr_cp_cr, var_cp) 0 = true
            \/ branch_validates wqc_data wue (corr_cp_cr, var_cp) 1 = true))
    /\ (RootSoln.isvalid rs = true ->
        exists b, RootSoln.co2soln_id rs = Some b /\ (b = 0%Z \/ b = 1%Z)
                  /\ branch_validates wqc_data wue (corr_cp_cr, var_cp) b = true).
Proof.
  intros H. apply findroot_inv in H.
  destruct H as (corr_cp_cr & var_cp & v & m & id & s & Ht & -> & Hc).
  exists corr_cp_cr, var_cp. split; [exact Ht |]. cbn [RootSoln.isvalid RootSoln.co2soln_id].
  rewrite _isvalid_root_flag in Hc.
  destruct Hc as [(Hraw & Hv & _ & _) | (Hraw & Hc)].
  - (* the bound checks fail *)
    assert (v = false) as ->.
    { apply (f_equal fst) in Hv. cbn [fst] in Hv.
      rewrite _isvalid_root_flag in Hv. congruence. }
    split; [| discriminate].
    split; [discriminate |]. intros (Hpos & Hlo & Hhi & _). exfalso.
    unfold lt, le in *. cbn in *.
    rewrite (FloatFacts.ltb_0_not_leb _ Hpos), Hlo, Hhi in Hraw. discriminate.
  - (* the bound checks pass: the residual check decides *)
    apply andb_prop in Hraw. destruct Hraw as [Hle Hrange].
    apply andb_prop in Hrange. destruct Hrange as [Hlo Hhi].
    apply negb_true_iff in Hle.
    apply findroot_check_inv in Hc.
    destruct Hc as (r0 & r1 & Hr0 & Hr1 & Hcases).
    assert (B0 : branch_validates wqc_data wue (corr_cp_cr, var_cp) 0
                 = within_tol r0 (lit 1e-12)).
    { unfold branch_validates, branch_residual.
      change (scaled_wqc wqc_data) with
        (WQCData.mk (WQCData.wq (scaled_wqc wqc_data)) (WQCData.wc (scaled_wqc wqc_data))
           (WQCData.var_q (scaled_wqc wqc_data)) (WQCData.var_c (scaled_wqc wqc_data))
           (WQCData.corr_qc (scaled_wqc wqc_data))).
      rewrite Hr0. reflexivity. }
    assert (B1 : branch_validates wqc_data wue (corr_cp_cr, var_cp) 1
                 = within_tol r1 (lit 1e-12)).
    { unfold branch_validates, branch_residual.
      change (scaled_wqc wqc_data) with
        (WQCData.mk (WQCData.wq (scaled_wqc wqc_data)) (WQCData.wc (scaled_wqc wqc_data))
           (WQCData.var_q (scaled_wqc wqc_data)) (WQCData.var_c (scaled_wqc wqc_data))
           (WQCData.corr_qc (scaled_wqc wqc_data))).
      rewrite Hr1. reflexivity. }
    assert (Hpos : forall b,
               branch_validates wqc_data wue (corr_cp_cr, var_cp) b = true ->
               (lit 0 < var_cp) = true).
    { intros b Hb. apply branch_validates_not_nan in Hb.
      apply FloatFacts.not_leb_0_ltb; assumption. }
    destruct Hcases as [(E1 & -> & _ & ->) | [(E1 & E0 & -> & _ & ->)
                                             | (E0 & E1 & -> & _ & -> & _)]].
    + rewrite <- B1 in E1. split; [| intros _; exists 1%Z; auto].
      split; [intros _ | reflexivity]. eauto 6.
    + rewrite <- B0 in E0. split; [| intros _; exists 0%Z; auto].
      split; [intros _ | reflexivity]. eauto 6.
    + rewrite <- B0 in E0. rewrite <- B1 in E1.
      split; [| discriminate].
      split; [discriminate |]. intros (_ & _ & _ & [Hb | Hb]); congruence.
Qed.

(** At [wqc_good] the trial root is (-0.5, 4), branch 0 validates and the
    Root Solution is valid with branch 0. *)
Lemma findroot_valid_iff_example :
  findroot wqc_good wue_good = Ret rs_good
  /\ exists corr_cp_cr var_cp,
       trial_root wqc_good wue_good = Ret (corr_cp_cr, var_cp)
       /\ (RootSoln.isvalid rs_good = true <->
           (lit 0 < var_cp) = true
           /\ (lit (-1) < corr_cp_cr) = true /\ (corr_cp_cr < lit 0) = true
           /\ (branch_validates wqc_good wue_good (corr_cp_cr, var_cp) 0 = true
               \/ branch_validates wqc_good wue_good (corr_cp_cr, var_cp) 1 = true))
       /\ (RootSoln.isvalid rs_good = true ->
           exists b, RootSoln.co2soln_id rs_good = Some b /\ (b = 0%Z \/ b = 1%Z)
                     /\ branch_validates wqc_good wue_good (corr_cp_cr, var_cp) b
                        = true).
Proof.
  split; [vm_compute; reflexivity |].
  apply (findroot_valid_iff wqc_good wue_good rs_good).
  vm_compute. reflexivity.
Defined.

(** ** What [findroot] raises and when it returns *)

Lemma no_assert_Ret {A : Type} (a : A) : no_assert (Ret a).
Proof. discriminate. Qed.

Lemma no_assert_bind {A B : Type} (m : result A) (k : A -> result B) :
  no_assert m -> (forall a, no_assert (k a)) -> no_assert (bind m k).
Proof.
  unfold no_assert. destruct m as [a | e]; cbn; intros Hm Hk; [apply Hk |].
  intros Heq. apply Hm. injection Heq as ->. reflexivity.
Qed.

Lemma no_assert_truediv a b : no_assert (truediv a b).
Proof.
  unfold no_assert, truediv.
  destruct (is_np a || is_np b); [discriminate |].
  destruct (val b =? 0)%float; discriminate.
Qed.

Lemma no_assert_pow2 a : no_assert (pow2 a).
Proof.
  unfold no_assert, pow2. destruct (is_np a); [discriminate |].
  destruct (is_finite (val a) && is_infinity (val a * val a)); discriminate.
Qed.

Lemma no_assert_math_sqrt a : no_assert (math_sqrt a).
Proof.
  unfold no_assert, math_sqrt. destruct (val a <? 0)%float; discriminate.
Qed.

Lemma no_assert_farg_pow2 farg : no_assert (farg_pow2 farg).
Proof.
  destruct farg as [[n |] | x]; cbn; try discriminate.
  - unfold no_assert, float_of_int. destruct (is_infinity _); discriminate.
  - apply no_assert_pow2.
Qed.

Create HintDb no_assert.

#[local] Hint Resolve no_assert_Ret no_assert_truediv no_assert_pow2
  no_assert_math_sqrt no_assert_farg_pow2 : no_assert.

(** Runs through a chain of binds whose steps are in the hint database. *)
Ltac no_assert_steps :=
  repeat first
    [ apply no_assert_bind; [solve [auto with no_assert] | intros ?]
    | solve [auto with no_assert] ].

Lemma no_assert_flux_ratio var_cp corr_cp_cr wqc_data ftype farg :
  no_assert (flux_ratio var_cp corr_cp_cr wqc_data ftype farg).
Proof.
  unfold flux_ratio. apply no_assert_bind.
  - unfold flux_ratio_sign_num.
    destruct (_ || _); [apply no_assert_Ret |].
    destruct (_ || _); [no_assert_steps | discriminate].
  - intros [sign n]. apply no_assert_bind.
    + unfold flux_ratio_disc. no_assert_steps.
    + intros disc. destruct (disc < lit 0); no_assert_steps.
Qed.

#[local] Hint Resolve no_assert_flux_ratio : no_assert.

Lemma no_assert__residual_func x wqc_data wue id :
  no_assert (_residual_func x wqc_data wue id).
Proof. destruct x as [corr_cp_cr var_cp]. unfold _residual_func. no_assert_steps. Qed.

#[local] Hint Resolve no_assert__residual_func : no_assert.

Lemma no_assert_findroot_trial var_q var_c wq wc corr_qc wue :
  no_assert (findroot_trial var_q var_c wq wc corr_qc wue).
Proof. unfold findroot_trial. no_assert_steps. Qed.

Lemma no_assert_findroot_check corr_cp_cr var_cp var_q var_c wq wc corr_qc wue :
  no_assert (findroot_check corr_cp_cr var_cp var_q var_c wq wc corr_qc wue).
Proof.
  unfold findroot_check.
  apply no_assert_bind; [auto with no_assert | intros r0].
  apply no_assert_bind; [auto with no_assert | intros r1].
  destruct (within_tol r0 (lit 1e-12)), (within_tol r1 (lit 1e-12));
    cbn -[flux_ratio]; no_assert_steps.
Qed.

(** For every covariance summary and water use efficiency, [findroot] does
    not end in an assertion failure. *)
Lemma findroot_never_asserts (wqc_data : WQCData.t) (wue : num) :
  findroot wqc_data wue <> Raise AssertionError.
Proof.
  change (no_assert (findroot wqc_data wue)). unfold findroot.
  apply no_assert_bind; [apply no_assert_findroot_trial |].
  intros [corr_cp_cr var_cp].
  destruct (_isvalid_root corr_cp_cr var_cp) as [[|] m].
  - apply no_assert_bind; [apply no_assert_findroot_check |].
    intros [[[v m'] id] s]. apply no_assert_Ret.
  - cbn. apply no_assert_Ret.
Qed.

(** C3: when both CO2 branches satisfy the residual tolerance, the
    computation is to halt with an assertion failure.  At [wqc_double] the
    trial root is (-0.5, 12) and both residual pairs are exactly zero, so
    both branches validate; [findroot] returns a valid Root Solution with
    branch 1 selected and raises nothing.  On no input does [findroot] end
    in an assertion failure. *)
Theorem findroot_both_branches_silently_selects :
  trial_root wqc_double wue_double = Ret (lit (-0.5)%float, lit 12%float)
  /\ branch_residual wqc_double wue_double (lit (-0.5)%float, lit 12%float) 0
       = Ret (lit 0%float, lit 0%float)
  /\ branch_residual wqc_double wue_double (lit (-0.5)%float, lit 12%float) 1
       = Ret (lit 0%float, lit 0%float)
  /\ branch_validates wqc_double wue_double (lit (-0.5)%float, lit 12%float) 0 = true
  /\ branch_validates wqc_double wue_double (lit (-0.5)%float, lit 12%float) 1 = true
  /\ findroot wqc_double wue_double = Ret rs_double
  /\ RootSoln.isvalid rs_double = true
  /\ RootSoln.co2soln_id rs_double = Some 1%Z
  /\ (forall wqc_data wue, findroot wqc_data wue <> Raise AssertionError).
Proof.
  do 8 (split; [vm_compute; reflexivity |]).
  exact findroot_never_asserts.
Qed.

(** Once the bound checks pass and both residual pairs are computed, the
    residual check returns: the flux ratio of the selected branch has
    already been computed for its residual, [var_cp] is not negative and
    [corr_cp_cr] is not zero. *)
Lemma findroot_check_returns corr_cp_cr var_cp var_q var_c wq wc corr_qc wue r0 r1 :
  (var_cp <= lit 0) = false -> (corr_cp_cr < lit 0) = true ->
  _residual_func (corr_cp_cr, var_cp) (WQCData.mk wq wc var_q var_c corr_qc)
    wue (Some 0%Z) = Ret r0 ->
  _residual_func (corr_cp_cr, var_cp) (WQCData.mk wq wc var_q var_c corr_qc)
    wue (Some 1%Z) = Ret r1 ->
  exists v m id s,
    findroot_check corr_cp_cr var_cp var_q var_c wq wc corr_qc wue
      = Ret (v, m, id, s)
    /\ (within_tol r0 (lit 1e-12) = false -> within_tol r1 (lit 1e-12) = false ->
        (v, m, id, s)
          = (false, "Trial root did not satisfy equations", None, np_nan)).
Proof.
  intros Hle Hneg Hr0 Hr1. unfold findroot_check. rewrite Hr0, Hr1.
  cbn -[flux_ratio within_tol].
  assert (Hsqrt : math_sqrt var_cp = Ret (lit (PrimFloat.sqrt (val var_cp)))).
  { unfold math_sqrt. unfold le in Hle. cbn in Hle.
    rewrite (FloatFacts.not_leb_0_not_ltb _ Hle). reflexivity. }
  assert (Hdiv : forall a, exists c, truediv a corr_cp_cr = Ret c).
  { intros a. unfold truediv. destruct (is_np a || is_np corr_cp_cr); [eauto |].
    unfold lt in Hneg. cbn in Hneg.
    rewrite (FloatFacts.ltb_0_neq _ Hneg). eauto. }
  unfold _residual_func in Hr0, Hr1.
  inv_bind Hr0. rename a into wcr0. clear Hr0.
  inv_bind Hr1. rename a into wcr1. clear Hr1.
  destruct (within_tol r0 (lit 1e-12)), (within_tol r1 (lit 1e-12));
    cbn -[flux_ratio].
  - rewrite Hstep0. cbn -[flux_ratio]. rewrite Hsqrt. cbn.
    destruct (Hdiv (wcr1 * lit (PrimFloat.sqrt (val var_cp)))) as [c ->].
    cbn. do 4 eexists. split; [reflexivity | discriminate].
  - rewrite Hstep. cbn -[flux_ratio]. rewrite Hsqrt. cbn.
    destruct (Hdiv (wcr0 * lit (PrimFloat.sqrt (val var_cp)))) as [c ->].
    cbn. do 4 eexists. split; [reflexivity | discriminate].
  - rewrite Hstep0. cbn -[flux_ratio]. rewrite Hsqrt. cbn.
    destruct (Hdiv (wcr1 * lit (PrimFloat.sqrt (val var_cp)))) as [c ->].
    cbn. do 4 eexists. split; [reflexivity | discriminate].
  - do 4 eexists. split; reflexivity.
Qed.

(** C5, as the code has it: when the closed-form trial root is computed
    without an exception and, should the bound checks pass, the two
    residual pairs are as well, [findroot] returns a Root Solution as data;
    when in addition no branch satisfies the residual tolerance, the result
    is the invalid Root Solution with the diagnostic "Trial root did not
    satisfy equations", no branch identifier and a not-a-number [sig_cr]. *)
Theorem findroot_returns_data (wqc_data : WQCData.t) (wue : num)
    (corr_cp_cr var_cp : num) :
  trial_root wqc_data wue = Ret (corr_cp_cr, var_cp) ->
  (fst (_isvalid_root corr_cp_cr var_cp) = true ->
   returns (branch_residual wqc_data wue (corr_cp_cr, var_cp) 0) = true
   /\ returns (branch_residual wqc_data wue (corr_cp_cr, var_cp) 1) = true) ->
  exists rs,
    findroot wqc_data wue = Ret rs
    /\ (fst (_isvalid_root corr_cp_cr var_cp) = true ->
        branch_validates wqc_data wue (corr_cp_cr, var_cp) 0 = false ->
        branch_validates wqc_data wue (corr_cp_cr, var_cp) 1 = false ->
        rs = RootSoln.mk corr_cp_cr (var_cp * lit 1e-12) np_nan None false
               "Trial root did not satisfy equations").
Proof.
  intros Ht Hres. unfold findroot.
  change (findroot_trial _ _ _ _ _ _) with (trial_root wqc_data wue).
  rewrite Ht. cbn -[findroot_check _isvalid_root].
  destruct (_isvalid_root corr_cp_cr var_cp) as [[|] m0] eqn:Ev;
    cbn -[findroot_check].
  - destruct (Hres eq_refl) as [H0 H1].
    unfold branch_validates.
    destruct (branch_residual wqc_data wue (corr_cp_cr, var_cp) 0) as [r0 |] eqn:E0;
      [| discriminate H0].
    destruct (branch_residual wqc_data wue (corr_cp_cr, var_cp) 1) as [r1 |] eqn:E1;
      [| discriminate H1].
    pose proof (_isvalid_root_flag corr_cp_cr var_cp) as Hf.
    rewrite Ev in Hf. cbn [fst] in Hf. symmetry in Hf.
    apply andb_prop in Hf. destruct Hf as [Hle Hrange].
    apply andb_prop in Hrange. destruct Hrange as [_ Hhi].
    apply negb_true_iff in Hle.
    destruct (findroot_check_returns corr_cp_cr var_cp
                (WQCData.var_q wqc_data * lit 1e6) (WQCData.var_c wqc_data * lit 1e12)
                (WQCData.wq wqc_data * lit 1e3) (WQCData.wc wqc_data * lit 1e6)
                (WQCData.corr_qc wqc_data) (wue * lit 1e3) r0 r1
                Hle Hhi E0 E1) as (v & m & id & s & Hc & Hnone).
    rewrite Hc. cbn. eexists. split; [reflexivity |].
    intros _ T0 T1. specialize (Hnone T0 T1). injection Hnone as -> -> -> ->.
    reflexivity.
  - eexists. split; [reflexivity | discriminate].
Qed.

(** C5, counterexample: on a covariance summary of Python floats with zero
    covariances, the numerator and the denominator of the trial variance
    are both zero and [findroot] raises [ZeroDivisionError]. *)
Lemma findroot_raises_zero_division :
  findroot wqc_still wue_signs = Raise ZeroDivisionError.
Proof. vm_compute. reflexivity. Qed.

(** An exception that does not depend on the kind of the scalars: with a
    q-c correlation one unit in the last place above -1, rounding makes the
    denominator of [rho_sq] negative, and [math.sqrt] raises [ValueError]. *)
Lemma findroot_raises_value_error :
  findroot
    (WQCData.mk (Num true 0.0018856239926684797%float)
       (Num true (-2.0136660595583519e-06)%float)
       (Num true 1.1095786059854946e-06%float)
       (Num true 1.2653852959177379e-12%float)
       (Num true (-0.9999999999999999)%float)) (lit (-3e-3)%float)
    = Raise ValueError.
Proof. vm_compute. reflexivity. Qed.

(** At [wqc_weak] the trial root (-0.1047, 1.33) passes the bound checks,
    both residual pairs are computed and neither is within the tolerance. *)
Lemma findroot_returns_data_example :
  trial_root wqc_weak wue_weak
    = Ret (lit (-0.10468478451804271)%float, lit 1.3296398891966756%float)
  /\ exists rs,
       findroot wqc_weak wue_weak = Ret rs
       /\ (fst (_isvalid_root (lit (-0.10468478451804271)%float)
                  (lit 1.3296398891966756%float)) = true ->
           branch_validates wqc_weak wue_weak
             (lit (-0.10468478451804271)%float, lit 1.3296398891966756%float) 0
             = false ->
           branch_validates wqc_weak wue_weak
             (lit (-0.10468478451804271)%float, lit 1.3296398891966756%float) 1
             = false ->
           rs = RootSoln.mk (lit (-0.10468478451804271)%float)
                  (lit 1.3296398891966756%float * lit 1e-12) np_nan None false
                  "Trial root did not satisfy equations").
Proof.
  split; [vm_compute; reflexivity |].
  apply (findroot_returns_data wqc_weak wue_weak).
  - vm_compute. reflexivity.
  - intros _. vm_compute. split; reflexivity.
Defined.

(** ** The flux ratio *)

(** C8, as the code has it: once [ftype] is accepted and the discriminant
    is computed without an exception, [flux_ratio] returns without raising;
    it returns not-a-number when the discriminant is negative and
    [corr_cp_cr ** 2 * (sign * sqrt(disc) - 1)] otherwise; when the
    discriminant is zero on the '-' sign branch, the result is
    [corr_cp_cr ** 2 * (-1)] with a finite [corr_cp_cr ** 2]. *)
Theorem flux_ratio_by_discriminant (var_cp corr_cp_cr : num) (wqc_data : WQCData.t)
    (ftype : string) (farg : farg_t) (sign n disc : num) :
  flux_ratio_sign_num wqc_data ftype farg = Ret (sign, n) ->
  flux_ratio_disc var_cp corr_cp_cr n = Ret disc ->
  exists r c2,
    flux_ratio var_cp corr_cp_cr wqc_data ftype farg = Ret r
    /\ pow2 corr_cp_cr = Ret c2
    /\ ((disc < lit 0) = true -> r = np_nan)
    /\ ((disc < lit 0) = false ->
        r = c2 * (sign * lit (PrimFloat.sqrt (val disc)) - lit 1))
    /\ ((val disc =? 0)%float = true -> sign = lit (-1) ->
        is_finite (val c2) = true /\ val r = (val c2 * (-1))%float).
Proof.
  intros Hs Hd. unfold flux_ratio. rewrite Hs. cbn -[flux_ratio_disc].
  rewrite Hd. cbn. pose proof Hd as Hd'. unfold flux_ratio_disc in Hd'.
  inv_bind Hd'. rename a into c2. inv_bind Hd'. rename a into t1.
  inv_bind Hd'. rename a into t2. inv_bind Hd'. inv_bind Hd'. rename a0 into t3.
  assert (a = c2) as -> by congruence. clear Hstep2.
  injection Hd' as Hdisc.
  assert (Hzero : (val disc =? 0)%float = true -> is_finite (val c2) = true).
  { rewrite <- Hdisc. cbn.
    rewrite (truediv_val _ _ _ Hstep0), (truediv_val _ _ _ Hstep3). cbn.
    rewrite (pow2_val _ _ Hstep). apply FloatFacts.disc_zero_finite. }
  rewrite Hstep. cbn. unfold lt, math_sqrt. cbn.
  destruct (val disc <? 0)%float eqn:Elt; cbn.
  - exists np_nan, c2.
    split; [reflexivity | split; [reflexivity |]].
    split; [reflexivity | split; [discriminate |]].
    intros Hz _. exfalso. apply FloatFacts.eqb_0_cases in Hz.
    destruct Hz as [Hz | Hz]; rewrite Hz in Elt; discriminate Elt.
  - eexists. exists c2. split; [reflexivity | split; [reflexivity |]].
    split; [discriminate | split; [reflexivity |]].
    intros Hz ->. split; [auto |]. cbn.
    apply FloatFacts.eqb_0_cases in Hz. destruct Hz as [-> | ->]; reflexivity.
Qed.

(** The '-' sign branch: a CO2 ratio asked with solution id 0. *)
Lemma flux_ratio_sign_num_co2_0 (wqc_data : WQCData.t) :
  flux_ratio_sign_num wqc_data "co2" (FId (Some 0%Z))
    = Ret (lit (-1), WQCData.var_c wqc_data).
Proof. reflexivity. Qed.

(** C8, counterexample: with a zero [corr_cp_cr] on Python floats
    [flux_ratio] raises [ZeroDivisionError]; with [corr_cp_cr = -1e-160] the
    discriminant is not-a-number, which is not negative, and the ratio is
    not-a-number. *)
Lemma flux_ratio_raises_and_nan_without_negative_disc :
  flux_ratio (lit 1%float) (lit 0%float) wqc_good "co2" (FId (Some 0%Z))
    = Raise ZeroDivisionError
  /\ flux_ratio_disc (lit 1%float) (lit (-1e-160)%float) (lit 1%float) = Ret (lit nan)
  /\ (lit nan < lit 0) = false
  /\ flux_ratio (lit 1%float) (lit (-1e-160)%float)
       (WQCData.mk (lit 1e-3%float) (lit (-3e-6)%float) (lit 1%float) (lit 1%float)
          (lit (-0.5)%float)) "co2" (FId (Some 0%Z))
     = Ret np_nan.
Proof. vm_compute. repeat split. Qed.

(** On the scaled [wqc_double] the discriminant of the CO2 ratio at the
    trial root (-0.5, 12) is zero, and the '-' branch gives
    [0.25 * (-1)]. *)
Lemma flux_ratio_by_discriminant_example :
  flux_ratio_disc (lit 12%float) (lit (-0.5)%float) (lit 9%float) = Ret (lit 0%float)
  /\ exists r c2,
       flux_ratio (lit 12%float) (lit (-0.5)%float) (scaled_wqc wqc_double) "co2"
         (FId (Some 0%Z)) = Ret r
       /\ pow2 (lit (-0.5)%float) = Ret c2
       /\ ((lit 0%float < lit 0) = true -> r = np_nan)
       /\ ((lit 0%float < lit 0) = false ->
           r = c2 * (lit (-1) * lit (PrimFloat.sqrt 0) - lit 1))
       /\ ((0 =? 0)%float = true -> lit (-1) = lit (-1) ->
           is_finite (val c2) = true /\ val r = (val c2 * (-1))%float).
Proof.
  split; [vm_compute; reflexivity |].
  apply (flux_ratio_by_discriminant (lit 12%float) (lit (-0.5)%float)
           (scaled_wqc wqc_double) "co2" (FId (Some 0%Z)) (lit (-1)) (lit 9%float)
           (lit 0%float)).
  - vm_compute. reflexivity.
  - vm_compute. reflexivity.
Defined.

(** ** The flux adjuster *)

(** C6, as the code has it: the Mass Fluxes returned by [_adjust_fluxes]
    carry the target totals, with Fqt = Fq_tot - Fqe, Fcp = wue * Fqt and
    Fcr = Fc_tot - Fcp as binary64 operations (the CO2 side is recomputed
    from wue, not distributed).  With the values read as exact numbers (in
    units of 2^-1074), a finite Fqt gives |Fqt + Fqe - Fq_tot| <= 2^-53 |Fqt|
    and a finite Fcr gives |Fcp + Fcr - Fc_tot| <= 2^-53 |Fcr|: the sums
    miss the totals by at most one rounding of the component found by
    subtraction.  So they are within 1e-12 of the total, relative to the
    total, whenever that component is at most 9007 times the total in
    magnitude; and the binary64 sums [Fqt + Fqe] and [Fcp + Fcr], when
    finite, miss the totals by at most one further rounding.  When the four
    sign constraints of a valid partition hold and Fqt is finite, the water
    sum is within 1e-12 of Fq_tot, relative to Fq_tot. *)
Theorem _adjust_fluxes_conservation (fc : MassFluxes.t) (wue Fq_tot Fc_tot : num)
    (m : MassFluxes.t) :
  _adjust_fluxes fc wue Fq_tot Fc_tot = Ret m ->
  let Fqt := val (MassFluxes.Fqt m) in
  let Fqe := val (MassFluxes.Fqe m) in
  let Fcp := val (MassFluxes.Fcp m) in
  let Fcr := val (MassFluxes.Fcr m) in
  (MassFluxes.Fq m = Fq_tot /\ MassFluxes.Fc m = Fc_tot
   /\ MassFluxes.Fqt m = Fq_tot - MassFluxes.Fqe m
   /\ MassFluxes.Fcp m = wue * MassFluxes.Fqt m
   /\ MassFluxes.Fcr m = Fc_tot - MassFluxes.Fcp m)
  /\ (is_finite Fqt = true ->
      (Z.abs (units Fqt + units Fqe - units (val Fq_tot)) * 2 ^ 53
       <= Z.abs (units Fqt))%Z
      /\ ((Z.abs (units Fqt) <= 9007 * Z.abs (units (val Fq_tot)))%Z ->
          (10 ^ 12 * Z.abs (units Fqt + units Fqe - units (val Fq_tot))
           <= Z.abs (units (val Fq_tot)))%Z)
      /\ (is_finite (Fqt + Fqe)%float = true ->
          (Z.abs (units (Fqt + Fqe)%float - units (val Fq_tot)) * 2 ^ 53
           <= Z.abs (units (Fqt + Fqe)%float) + Z.abs (units Fqt))%Z))
  /\ (is_finite Fcr = true ->
      (Z.abs (units Fcp + units Fcr - units (val Fc_tot)) * 2 ^ 53
       <= Z.abs (units Fcr))%Z
      /\ ((Z.abs (units Fcr) <= 9007 * Z.abs (units (val Fc_tot)))%Z ->
          (10 ^ 12 * Z.abs (units Fcp + units Fcr - units (val Fc_tot))
           <= Z.abs (units (val Fc_tot)))%Z)
      /\ (is_finite (Fcp + Fcr)%float = true ->
          (Z.abs (units (Fcp + Fcr)%float - units (val Fc_tot)) * 2 ^ 53
           <= Z.abs (units (Fcp + Fcr)%float) + Z.abs (units Fcr))%Z))
  /\ (signs_ok m -> is_finite Fqt = true ->
      (10 ^ 12 * Z.abs (units Fqt + units Fqe - units (val Fq_tot))
       <= Z.abs (units (val Fq_tot)))%Z).
Proof.
  intros H. unfold _adjust_fluxes in H. inv_bind H. injection H as <-.
  cbn [MassFluxes.Fq MassFluxes.Fc MassFluxes.Fqt MassFluxes.Fqe
         MassFluxes.Fcp MassFluxes.Fcr].
  cbv zeta. split; [repeat split |].
  assert (Hsub : forall a b : num, val (a - b) = (val a - val b)%float)
    by reflexivity.
  split; [| split].
  - rewrite Hsub. intros Hf. pose proof (Rounding.sub_error _ _ Hf) as He.
    split; [lia |]. split; [intros Hr; lia |].
    intros Hs. pose proof (Rounding.add_error _ _ Hs) as Ha. lia.
  - rewrite Hsub. intros Hf. pose proof (Rounding.sub_error _ _ Hf) as He.
    split; [lia |]. split; [intros Hr; lia |].
    intros Hs. pose proof (Rounding.add_error _ _ Hs) as Ha. lia.
  - intros (Hqt & Hqe & _) Hf. unfold lt in Hqt, Hqe.
    cbn [MassFluxes.Fqt MassFluxes.Fqe] in Hqt, Hqe.
    rewrite Hsub in *. change (val (lit 0)) with 0%float in Hqt, Hqe.
    pose proof (Rounding.sub_error _ _ Hf) as He.
    destruct (Rounding.sub_finite_inv _ _ Hf) as [_ Hfe].
    pose proof (Rounding.ltb_0_units _ Hqt Hf) as Pt.
    pose proof (Rounding.ltb_0_units _ Hqe Hfe) as Pe.
    lia.
Qed.

(** [_adjust_fluxes] returns unless [fc.Fqt + fc.Fqe] is a zero between
    Python floats. *)
Lemma _adjust_fluxes_returns (fc : MassFluxes.t) (wue Fq_tot Fc_tot : num) :
  (is_np (MassFluxes.Fqe fc) || is_np (MassFluxes.Fqt fc)
   || negb (val (MassFluxes.Fqt fc) + val (MassFluxes.Fqe fc) =? 0)%float) = true ->
  exists m, _adjust_fluxes fc wue Fq_tot Fc_tot = Ret m.
Proof.
  intros H. unfold _adjust_fluxes, truediv. cbn.
  destruct (is_np (MassFluxes.Fqe fc)), (is_np (MassFluxes.Fqt fc)); cbn in *;
    try (eexists; reflexivity).
  apply negb_true_iff in H. rewrite H. eexists; reflexivity.
Qed.

(** C6, counterexample: adjusting [fluxes_dusk] to a net CO2 flux of
    1e-11 gives a partition that [_isvalid_partition] marks valid, with
    Fcp + Fcr = 1.0000000000699553e-11, which is 7e-11 away from the total
    in relative terms. *)
Lemma _adjust_fluxes_not_within_tolerance :
  _adjust_fluxes fluxes_dusk (lit (-10e-3)%float) (lit 3.1e-3%float) (lit 1e-11%float)
    = Ret (MassFluxes.mk (lit 3.1e-3%float) (lit 0.0020666666666666663%float)
             (lit 0.0010333333333333334%float) (lit 1e-11%float)
             (lit (-2.0666666666666663e-05)%float)
             (lit 2.0666676666666664e-05%float))
  /\ ((-2.0666666666666663e-05) + 2.0666676666666664e-05
      = 1.0000000000699553e-11)%float
  /\ within_rel_tol 1.0000000000699553e-11 1e-11 = false
  /\ _isvalid_partition
       (MassFluxes.mk (lit 3.1e-3%float) (lit 0.0020666666666666663%float)
          (lit 0.0010333333333333334%float) (lit 1e-11%float)
          (lit (-2.0666666666666663e-05)%float)
          (lit 2.0666676666666664e-05%float)) = (true, "").
Proof. vm_compute. repeat split. Qed.

(** The adjustment of [fluxes_dusk] to a net CO2 flux of 1e-11: both sums
    are within one rounding of the component found by subtraction; the
    water sum is within 1e-12 of its total, the CO2 sum is not. *)
Lemma _adjust_fluxes_conservation_example :
  exists m,
    _adjust_fluxes fluxes_dusk (lit (-10e-3)%float) (lit 3.1e-3%float)
      (lit 1e-11%float) = Ret m
    /\ (Z.abs (units (val (MassFluxes.Fqt m)) + units (val (MassFluxes.Fqe m))
               - units 3.1e-3%float) * 2 ^ 53
        <= Z.abs (units (val (MassFluxes.Fqt m))))%Z
    /\ (10 ^ 12 * Z.abs (units (val (MassFluxes.Fqt m))
                         + units (val (MassFluxes.Fqe m)) - units 3.1e-3%float)
        <= Z.abs (units 3.1e-3%float))%Z
    /\ (Z.abs (units (val (MassFluxes.Fcp m)) + units (val (MassFluxes.Fcr m))
               - units 1e-11%float) * 2 ^ 53
        <= Z.abs (units (val (MassFluxes.Fcr m))))%Z
    /\ (Z.abs (units 1e-11%float)
        < 10 ^ 12 * Z.abs (units (val (MassFluxes.Fcp m))
                           + units (val (MassFluxes.Fcr m)) - units 1e-11%float))%Z.
Proof.
  eexists. split; [vm_compute; reflexivity |].
  match goal with
  | |- context [MassFluxes.Fqt ?r] =>
      destruct (_adjust_fluxes_conservation fluxes_dusk (lit (-10e-3)%float)
                  (lit 3.1e-3%float) (lit 1e-11%float) r)
        as (_ & Hq & Hc & Hv); [vm_compute; reflexivity |]
  end.
  destruct Hq as (Hq1 & _); [vm_compute; reflexivity |].
  destruct Hc as (Hc1 & _); [vm_compute; reflexivity |].
  split; [exact Hq1 |].
  split; [apply Hv; [vm_compute; repeat split | vm_compute; reflexivity] |].
  split; [exact Hc1 |].
  vm_compute. reflexivity.
Defined.

(** ** The single-window solves *)

(** With an invalid root, [fvspart_interval] returns the default fluxes,
    an invalid partition and the message of the root. *)
Lemma fvspart_interval_invalid_root wqc_data wue wipe r :
  fvspart_interval wqc_data wue wipe = Ret r ->
  RootSoln.isvalid (FVSPResult.rootsoln r) = false ->
  FVSPResult.valid_partition r = false
  /\ FVSPResult.mssg r = RootSoln.mssg (FVSPResult.rootsoln r)
  /\ FVSPResult.fluxes r = MassFluxes.default.
Proof.
  unfold fvspart_interval. intros H Hv. inv_bind H. rename a into rootsoln.
  destruct (RootSoln.isvalid rootsoln) eqn:E; cbn in H.
  - inv_bind H. destruct (_isvalid_partition a) as [v m].
    injection H as <-. cbn in Hv. congruence.
  - injection H as <-. cbn. auto.
Qed.

(** With a valid root and no wiping, [fvspart_interval] returns the fluxes
    of [_mass_fluxes] and the verdict of [_isvalid_partition] on them. *)
Lemma fvspart_interval_valid_root wqc_data wue r :
  fvspart_interval wqc_data wue false = Ret r ->
  RootSoln.isvalid (FVSPResult.rootsoln r) = true ->
  FVSPResult.wqc_data r = wqc_data
  /\ _mass_fluxes (RootSoln.var_cp (FVSPResult.rootsoln r))
       (RootSoln.corr_cp_cr (FVSPResult.rootsoln r)) wqc_data wue
       (RootSoln.co2soln_id (FVSPResult.rootsoln r)) = Ret (FVSPResult.fluxes r)
  /\ (FVSPResult.valid_partition r, FVSPResult.mssg r)
       = _isvalid_partition (FVSPResult.fluxes r).
Proof.
  unfold fvspart_interval. intros H Hv. inv_bind H. rename a into rootsoln.
  destruct (RootSoln.isvalid rootsoln) eqn:E; cbn in H.
  - inv_bind H. destruct (_isvalid_partition a) as [v m] eqn:Ep.
    rewrite andb_false_r in H. injection H as <-. cbn. rewrite Ep. auto.
  - injection H as <-. cbn in Hv. congruence.
Qed.

(** The flag at work in [fvspart_interval]: on [wqc_signs] the root is
    valid and the evaporation has the wrong sign; the computed fluxes are
    returned without the flag and the default ones with it. *)
Lemma fvspart_interval_wipe_example :
  (exists r,
     fvspart_interval wqc_signs wue_signs false = Ret r
     /\ FVSPResult.valid_partition r = false
     /\ FVSPResult.mssg r = "Fqe <= 0; "
     /\ val (MassFluxes.Fqe (FVSPResult.fluxes r)) = (-0.0013333333333333422)%float)
  /\ (exists r,
        fvspart_interval wqc_signs wue_signs true = Ret r
        /\ FVSPResult.valid_partition r = false
        /\ FVSPResult.fluxes r = MassFluxes.default).
Proof.
  split; eexists; (split; [vm_compute; reflexivity |]); repeat split.
Qed.

(** C10: [fvspart_series] returns the same result for both values of
    [wipe_if_invalid]; the flag does not reach [fvspart_interval], so with a
    valid root the returned fluxes are those computed by [_mass_fluxes],
    whatever the sign-validity check says of them. *)
Theorem fvspart_series_ignores_wipe (np_cov : series -> series -> num)
    (w q c : series) (wue : num) (wipe_if_invalid : bool) :
  fvspart_series np_cov w q c wue wipe_if_invalid
    = fvspart_series np_cov w q c wue false
  /\ forall r,
       fvspart_series np_cov w q c wue wipe_if_invalid = Ret r ->
       RootSoln.isvalid (FVSPResult.rootsoln r) = true ->
       _mass_fluxes (RootSoln.var_cp (FVSPResult.rootsoln r))
         (RootSoln.corr_cp_cr (FVSPResult.rootsoln r)) (FVSPResult.wqc_data r) wue
         (RootSoln.co2soln_id (FVSPResult.rootsoln r)) = Ret (FVSPResult.fluxes r)
       /\ (FVSPResult.valid_partition r, FVSPResult.mssg r)
            = _isvalid_partition (FVSPResult.fluxes r).
Proof.
  split; [reflexivity |].
  intros r H Hv. unfold fvspart_series in H. inv_bind H. inv_bind H.
  destruct (fvspart_interval_valid_root _ _ _ H Hv) as (-> & Hm & Hp). auto.
Qed.

(** On the example series the partition of the first level fails the sign
    check ([Fqe <= 0]); asked to wipe, [fvspart_series] still returns the
    computed fluxes, where [fvspart_interval] on the same covariance summary
    returns the default ones. *)
Lemma fvspart_series_ignores_wipe_example :
  exists r,
    fvspart_series cov_sample w_ex q_ex c_ex wue_good true = Ret r
    /\ RootSoln.isvalid (FVSPResult.rootsoln r) = true
    /\ FVSPResult.valid_partition r = false
    /\ FVSPResult.mssg r = "Fqe <= 0; "
    /\ val (MassFluxes.Fqe (FVSPResult.fluxes r)) = (-0.00088888888888888828)%float
    /\ (exists r',
          fvspart_interval (FVSPResult.wqc_data r) wue_good true = Ret r'
          /\ FVSPResult.fluxes r' = MassFluxes.default)
    /\ fvspart_series cov_sample w_ex q_ex c_ex wue_good true
         = fvspart_series cov_sample w_ex q_ex c_ex wue_good false
    /\ _mass_fluxes (RootSoln.var_cp (FVSPResult.rootsoln r))
         (RootSoln.corr_cp_cr (FVSPResult.rootsoln r)) (FVSPResult.wqc_data r)
         wue_good (RootSoln.co2soln_id (FVSPResult.rootsoln r))
       = Ret (FVSPResult.fluxes r)
    /\ (FVSPResult.valid_partition r, FVSPResult.mssg r)
         = _isvalid_partition (FVSPResult.fluxes r).
Proof.
  eexists. split; [vm_compute; reflexivity |].
  do 4 (split; [reflexivity |]).
  split; [eexists; split; vm_compute; reflexivity |].
  destruct (fvspart_series_ignores_wipe cov_sample w_ex q_ex c_ex wue_good true)
    as [Heq Hr].
  split; [exact Heq |].
  apply Hr; vm_compute; reflexivity.
Defined.

(** ** The progressive orchestrator *)

Section Progressive.

Variable np_cov : series -> series -> num.
Variables (wue : num) (adjust_fluxes : bool) (wq_tot wc_tot : num).

Let step := progressive_step np_cov wue adjust_fluxes wq_tot wc_tot.
Let pass_invalid := pass_invalid np_cov wue adjust_fluxes wq_tot wc_tot.

(** A pass whose root is invalid leaves the result of [fvspart_interval]
    untouched: an invalid partition with the message of the root. *)
Lemma progressive_step_invalid_root lowcut_wqc r :
  step lowcut_wqc = Ret r ->
  RootSoln.isvalid (FVSPResult.rootsoln r) = false ->
  FVSPResult.valid_partition r = false
  /\ FVSPResult.mssg r = RootSoln.mssg (FVSPResult.rootsoln r).
Proof.
  unfold step, progressive_step. destruct lowcut_wqc as [[w q] c].
  intros H Hv. inv_bind H. rename a into fvsp.
  destruct (RootSoln.isvalid (FVSPResult.rootsoln fvsp)) eqn:E.
  - destruct adjust_fluxes.
    + inv_bind H. destruct (_isvalid_partition _) as [v m].
      injection H as <-. cbn in Hv. congruence.
    + injection H as <-. congruence.
  - injection H as <-. unfold fvspart_series in Hstep.
    inv_bind Hstep. inv_bind Hstep.
    destruct (fvspart_interval_invalid_root _ _ _ _ Hstep E) as (? & ? & _).
    auto.
Qed.

(** A pass that returns a valid partition has a valid root. *)
Lemma progressive_step_valid_root lowcut_wqc r :
  step lowcut_wqc = Ret r ->
  FVSPResult.valid_partition r = true ->
  RootSoln.isvalid (FVSPResult.rootsoln r) = true.
Proof.
  intros H Hv.
  destruct (RootSoln.isvalid (FVSPResult.rootsoln r)) eqn:E; [reflexivity |].
  destruct (progressive_step_invalid_root _ _ H E) as [Hf _]. congruence.
Qed.

(** The loop leaves at the first valid pass: the levels after it have no
    part in the result. *)
Lemma progressive_loop_first_valid max_decomp_lvl pre x rest r cnt last :
  Forall pass_invalid pre ->
  step x = Ret r -> FVSPResult.valid_partition r = true ->
  progressive_loop np_cov max_decomp_lvl wue adjust_fluxes wq_tot wc_tot cnt
    (pre ++ x :: rest) last
  = Ret (Some ((max_decomp_lvl - (cnt + Z.of_nat (length pre)))%Z, max_decomp_lvl, r)).
Proof.
  intros Hpre Hx Hv. revert cnt last.
  induction Hpre as [| y pre (ry & Hy & Hvy) _ IH]; intros cnt last.
  - cbn. unfold step in Hx. rewrite Hx. cbn. rewrite Hv.
    rewrite Z.add_0_r. reflexivity.
  - cbn [app progressive_loop]. rewrite Hy. cbn [bind]. rewrite Hvy.
    rewrite IH. cbn [length]. rewrite Nat2Z.inj_succ. do 4 f_equal. lia.
Qed.

(** When every pass is invalid the loop runs to the end and leaves the
    last pass. *)
Lemma progressive_loop_exhausted max_decomp_lvl pre x r cnt last :
  Forall pass_invalid pre ->
  step x = Ret r -> FVSPResult.valid_partition r = false ->
  progressive_loop np_cov max_decomp_lvl wue adjust_fluxes wq_tot wc_tot cnt
    (pre ++ [x]) last
  = Ret (Some ((max_decomp_lvl - (cnt + Z.of_nat (length pre)))%Z, max_decomp_lvl, r)).
Proof.
  intros Hpre Hx Hv. revert cnt last.
  induction Hpre as [| y pre (ry & Hy & Hvy) _ IH]; intros cnt last.
  - cbn. unfold step in Hx. rewrite Hx. cbn. rewrite Hv.
    rewrite Z.add_0_r. reflexivity.
  - cbn [app progressive_loop]. rewrite Hy. cbn [bind]. rewrite Hvy.
    rewrite IH. cbn [length]. rewrite Nat2Z.inj_succ. do 4 f_equal. lia.
Qed.

End Progressive.

(** C2: [fvspart_progressive] tries the low-cut levels in increasing
    order.  When the levels before [x] each gave an invalid partition and
    [x] gives a valid one (after the adjustment, when it is requested), the
    loop leaves at [x] whatever levels follow, and the result is that of [x]
    with its level; when [x] is the last level and is invalid as well, the
    result has the default (not-a-number) Mass Fluxes, a false validity flag
    and the message and root of that last pass. *)
Theorem fvspart_progressive_first_valid_or_exhausted
    (np_cov : series -> series -> num)
    (progressive_lowcut_series : series -> list series)
    (w q c : series) (wue : num) (adjust_fluxes : bool)
    (k : Z) (pre rest : list (series * series * series))
    (x : series * series * series) (r : FVSPResult.t) :
  int_log2 (length w) = Ret k ->
  _progressive_lowcut progressive_lowcut_series w q c = Ret (pre ++ x :: rest)%list ->
  Forall (pass_invalid np_cov wue adjust_fluxes (np_cov w q) (np_cov w c)) pre ->
  progressive_step np_cov wue adjust_fluxes (np_cov w q) (np_cov w c) x = Ret r ->
  let lvl := ((k - Z.of_nat (length pre))%Z, k) in
  (FVSPResult.valid_partition r = true ->
   (forall rest' last,
      progressive_loop np_cov k wue adjust_fluxes (np_cov w q) (np_cov w c) 0
        (pre ++ x :: rest')%list last = Ret (Some (lvl, r)))
   /\ fvspart_progressive np_cov progressive_lowcut_series w q c wue adjust_fluxes
      = Ret (FVSPResult.set_wave_lvl r lvl))
  /\ (FVSPResult.valid_partition r = false -> rest = [] ->
      exists res,
        fvspart_progressive np_cov progressive_lowcut_series w q c wue adjust_fluxes
          = Ret res
        /\ FVSPResult.fluxes res = MassFluxes.default
        /\ FVSPResult.valid_partition res = false
        /\ FVSPResult.mssg res = FVSPResult.mssg r
        /\ FVSPResult.rootsoln res = FVSPResult.rootsoln r
        /\ FVSPResult.wave_lvl res = Some lvl).
Proof.
  intros Hk Hlevels Hpre Hx lvl. split.
  - intros Hv.
    assert (Hloop : forall rest' last,
               progressive_loop np_cov k wue adjust_fluxes (np_cov w q)
                 (np_cov w c) 0 (pre ++ x :: rest')%list last = Ret (Some (lvl, r))).
    { intros rest' last.
      rewrite (progressive_loop_first_valid _ _ _ _ _ _ pre x rest' r 0 last
                 Hpre Hx Hv).
      reflexivity. }
    split; [exact Hloop |].
    unfold fvspart_progressive. rewrite Hk. cbn [bind]. rewrite Hlevels.
    cbn [bind]. rewrite Hloop. cbn [bind].
    unfold progressive_finish. cbn.
    rewrite (progressive_step_valid_root _ _ _ _ _ _ _ Hx Hv). cbn.
    rewrite Hv. reflexivity.
  - intros Hv ->.
    unfold fvspart_progressive. rewrite Hk. cbn [bind]. rewrite Hlevels.
    cbn [bind].
    rewrite (progressive_loop_exhausted _ _ _ _ _ _ pre x r 0 None Hpre Hx Hv).
    cbn [bind Z.add]. eexists. split; [reflexivity |].
    unfold progressive_finish. cbn.
    destruct (RootSoln.isvalid (FVSPResult.rootsoln r)) eqn:E; cbn.
    + rewrite Hv. cbn. auto 6.
    + destruct (progressive_step_invalid_root _ _ _ _ _ _ _ Hx E) as [_ Hm].
      auto 6.
Qed.

(** The example series under the block-mean filter: with [wue_good] the
    first level is invalid and the second is valid, so the result is the
    adjusted partition of the second level, at [wave_lvl = (1, 2)]; with
    [wue_weak] no level is valid and the result is the wiped last pass, at
    [wave_lvl = (0, 2)]. *)
Lemma fvspart_progressive_example :
  _progressive_lowcut lowcut_blocks w_ex q_ex c_ex
    = Ret [level0_ex; level1_ex; level2_ex]
  /\ (exists r,
        progressive_step cov_sample wue_good true (cov_sample w_ex q_ex)
          (cov_sample w_ex c_ex) level1_ex = Ret r
        /\ FVSPResult.valid_partition r = true
        /\ (forall rest' last,
              progressive_loop cov_sample 2 wue_good true (cov_sample w_ex q_ex)
                (cov_sample w_ex c_ex) 0 ([level0_ex] ++ level1_ex :: rest')%list last
              = Ret (Some ((1%Z, 2%Z), r)))
        /\ fvspart_progressive cov_sample lowcut_blocks w_ex q_ex c_ex wue_good true
           = Ret (FVSPResult.set_wave_lvl r (1%Z, 2%Z)))
  /\ (exists res,
        fvspart_progressive cov_sample lowcut_blocks w_ex q_ex c_ex wue_weak true
          = Ret res
        /\ FVSPResult.fluxes res = MassFluxes.default
        /\ FVSPResult.valid_partition res = false
        /\ FVSPResult.mssg res = "corr_cp_cr <-1 OR >0; "
        /\ FVSPResult.wave_lvl res = Some (0%Z, 2%Z)).
Proof.
  split; [vm_compute; reflexivity |]. split.
  - eexists. split; [vm_compute; reflexivity |]. split; [reflexivity |].
    apply (fvspart_progressive_first_valid_or_exhausted cov_sample lowcut_blocks
             w_ex q_ex c_ex wue_good true 2 [level0_ex] [level2_ex] level1_ex).
    + reflexivity.
    + vm_compute. reflexivity.
    + constructor; [| constructor].
      eexists. split; vm_compute; reflexivity.
    + vm_compute. reflexivity.
    + reflexivity.
  - destruct (fvspart_progressive_first_valid_or_exhausted cov_sample lowcut_blocks
                w_ex q_ex c_ex wue_weak true 2 [level0_ex; level1_ex] [] level2_ex
                (FVSPResult.mk
                   (WQCData.mk (Num true 0%float) (Num true 0%float)
                      (Num true 0%float) (Num true 0%float) (Num true nan))
                   (RootSoln.mk (lit nan) (Num true nan) (lit nan) None false
                      "corr_cp_cr <-1 OR >0; ")
                   MassFluxes.default false "corr_cp_cr <-1 OR >0; " None))
      as [_ Hexh].
    + reflexivity.
    + vm_compute. reflexivity.
    + constructor; [| constructor; [| constructor]];
        eexists; split; vm_compute; reflexivity.
    + vm_compute. reflexivity.
    + destruct (Hexh eq_refl eq_refl) as (res & Hres & Hf & Hv & Hm & _ & Hl).
      exists res. auto.
Defined.

(** * Further properties of [partition.py] *)

(** ** The validity checks *)

Lemma string_app_assoc (a b c : string) : (a ++ b) ++ c = a ++ b ++ c.
Proof. induction a as [| x a IH]; cbn; [reflexivity | now rewrite IH]. Qed.

(** X1: on Mass Fluxes with no not-a-number among the four partitioned
    fluxes, [_isvalid_partition] marks the partition valid exactly when
    Fqt > 0, Fqe > 0, Fcp < 0 and Fcr > 0. *)
Theorem _isvalid_partition_signs_iff (fc : MassFluxes.t) :
  no_nan fc ->
  (fst (_isvalid_partition fc) = true <-> signs_ok fc).
Proof.
  intros Hn. split.
  - apply _isvalid_partition_sound; assumption.
  - intros Hs. rewrite (_isvalid_partition_complete fc Hs). reflexivity.
Qed.

(** The fluxes of [wqc_good] and those of [wqc_signs], whose evaporation is
    negative. *)
Lemma _isvalid_partition_signs_iff_example :
  (fst (_isvalid_partition
          (MassFluxes.mk (lit 4e-3%float) (lit 2e-3%float) (lit 2e-3%float)
             (lit (-2e-6)%float) (lit (-4e-6)%float) (lit 2e-6%float))) = true
   <-> signs_ok
         (MassFluxes.mk (lit 4e-3%float) (lit 2e-3%float) (lit 2e-3%float)
            (lit (-2e-6)%float) (lit (-4e-6)%float) (lit 2e-6%float)))
  /\ (fst (_isvalid_partition
             (MassFluxes.mk (lit 2e-3%float) (lit 3e-3%float) (lit (-1e-3)%float)
                (lit (-4e-6)%float) (lit (-3e-5)%float) (lit 2.6e-5%float))) = true
      <-> signs_ok
            (MassFluxes.mk (lit 2e-3%float) (lit 3e-3%float) (lit (-1e-3)%float)
               (lit (-4e-6)%float) (lit (-3e-5)%float) (lit 2.6e-5%float))).
Proof.
  split; apply _isvalid_partition_signs_iff; cbn;
    repeat split; intros H; apply (f_equal is_nan) in H; vm_compute in H;
    discriminate H.
Defined.

Lemma _isvalid_partition_flag_iff_mssg (fc : MassFluxes.t) :
  fst (_isvalid_partition fc) = true <-> snd (_isvalid_partition fc) = "".
Proof.
  rewrite _isvalid_partition_flag, _isvalid_partition_mssg.
  destruct (MassFluxes.Fqt fc <= lit 0), (MassFluxes.Fqe fc <= lit 0),
    (MassFluxes.Fcp fc >= lit 0), (MassFluxes.Fcr fc <= lit 0);
    cbn; split; intros H; try reflexivity; discriminate H.
Qed.

(** X2: for every Mass Fluxes record, the message of [_isvalid_partition]
    is empty exactly when the partition is marked valid, and the token of
    every failed test occurs in it. *)
Theorem _isvalid_partition_message (fc : MassFluxes.t) :
  (fst (_isvalid_partition fc) = true <-> snd (_isvalid_partition fc) = "")
  /\ ((MassFluxes.Fqt fc <= lit 0) = true ->
      occurs "Fqt <= 0; " (snd (_isvalid_partition fc)))
  /\ ((MassFluxes.Fqe fc <= lit 0) = true ->
      occurs "Fqe <= 0; " (snd (_isvalid_partition fc)))
  /\ ((MassFluxes.Fcp fc >= lit 0) = true ->
      occurs "Fcp >= 0; " (snd (_isvalid_partition fc)))
  /\ ((MassFluxes.Fcr fc <= lit 0) = true ->
      occurs "Fcr <= 0; " (snd (_isvalid_partition fc))).
Proof.
  split; [apply _isvalid_partition_flag_iff_mssg |].
  rewrite _isvalid_partition_mssg.
  set (t1 := if MassFluxes.Fqt fc <= lit 0 then "Fqt <= 0; " else "").
  set (t2 := if MassFluxes.Fqe fc <= lit 0 then "Fqe <= 0; " else "").
  set (t3 := if MassFluxes.Fcp fc >= lit 0 then "Fcp >= 0; " else "").
  set (t4 := if MassFluxes.Fcr fc <= lit 0 then "Fcr <= 0; " else "").
  split; [| split; [| split]].
  - intros H. subst t1. rewrite H. exists "", (t2 ++ t3 ++ t4). reflexivity.
  - intros H. subst t2. rewrite H. exists t1, (t3 ++ t4). reflexivity.
  - intros H. subst t3. rewrite H. exists (t1 ++ t2), t4.
    rewrite string_app_assoc. reflexivity.
  - intros H. subst t4. rewrite H. exists (t1 ++ t2 ++ t3), "".
    rewrite !string_app_assoc. reflexivity.
Qed.

(** A record that fails the first and the last test. *)
Lemma _isvalid_partition_message_example :
  snd (_isvalid_partition
         (MassFluxes.mk (lit 1%float) (lit (-1)%float) (lit 2%float)
            (lit 1%float) (lit (-1)%float) (lit 0%float)))
    = "Fqt <= 0; Fcr <= 0; "
  /\ occurs "Fqt <= 0; "
       (snd (_isvalid_partition
               (MassFluxes.mk (lit 1%float) (lit (-1)%float) (lit 2%float)
                  (lit 1%float) (lit (-1)%float) (lit 0%float))))
  /\ occurs "Fcr <= 0; "
       (snd (_isvalid_partition
               (MassFluxes.mk (lit 1%float) (lit (-1)%float) (lit 2%float)
                  (lit 1%float) (lit (-1)%float) (lit 0%float)))).
Proof.
  split; [reflexivity |].
  pose proof (_isvalid_partition_message
                (MassFluxes.mk (lit 1%float) (lit (-1)%float) (lit 2%float)
                   (lit 1%float) (lit (-1)%float) (lit 0%float)))
    as (_ & H1 & _ & _ & H4).
  split; [apply H1 | apply H4]; reflexivity.
Defined.

(** X3: [_isvalid_root] returns an empty message exactly when it accepts;
    it accepts only a correlation strictly between -1 and 0, so never a
    not-a-number one; on a variance that is not not-a-number it accepts
    exactly when [var_cp > 0] and [-1 < corr_cp_cr < 0]; a not-a-number
    variance passes the variance test. *)
Theorem _isvalid_root_spec (corr_cp_cr var_cp : num) :
  (fst (_isvalid_root corr_cp_cr var_cp) = true
   <-> snd (_isvalid_root corr_cp_cr var_cp) = "")
  /\ (fst (_isvalid_root corr_cp_cr var_cp) = true ->
      (lit (-1) < corr_cp_cr) = true /\ (corr_cp_cr < lit 0) = true
      /\ val corr_cp_cr <> nan)
  /\ (val var_cp <> nan ->
      (fst (_isvalid_root corr_cp_cr var_cp) = true
       <-> (lit 0 < var_cp) = true
           /\ (lit (-1) < corr_cp_cr) = true /\ (corr_cp_cr < lit 0) = true))
  /\ (val var_cp = nan ->
      fst (_isvalid_root corr_cp_cr var_cp)
        = (lit (-1) < corr_cp_cr) && (corr_cp_cr < lit 0)).
Proof.
  split; [| split; [| split]].
  - unfold _isvalid_root.
    destruct (var_cp <= lit 0), ((lit (-1) < corr_cp_cr) && (corr_cp_cr < lit 0));
      cbn; split; intros H; try reflexivity; discriminate H.
  - rewrite _isvalid_root_flag. intros H.
    apply andb_prop in H. destruct H as [_ H].
    apply andb_prop in H. destruct H as [Hlo Hhi].
    repeat split; try assumption.
    intros Hn. unfold lt in Hhi. rewrite Hn in Hhi.
    rewrite FloatFacts.ltb_nan_l in Hhi. discriminate Hhi.
  - intros Hn. rewrite _isvalid_root_flag. unfold lt, le. cbn. split.
    + intros H. apply andb_prop in H. destruct H as [Hle H].
      apply andb_prop in H. destruct H as [Hlo Hhi].
      apply negb_true_iff in Hle.
      auto using FloatFacts.not_leb_0_ltb.
    + intros (Hpos & Hlo & Hhi).
      rewrite (FloatFacts.ltb_0_not_leb _ Hpos), Hlo, Hhi. reflexivity.
  - intros Hn. rewrite _isvalid_root_flag. unfold le. rewrite Hn.
    rewrite FloatFacts.leb_nan_l. reflexivity.
Qed.

(** A positive variance with a correlation in range, and a not-a-number
    variance with the same correlation: both are accepted. *)
Lemma _isvalid_root_spec_example :
  (fst (_isvalid_root (lit (-0.5)%float) (lit 12%float)) = true
   <-> (lit 0 < lit 12%float) = true
       /\ (lit (-1) < lit (-0.5)%float) = true
       /\ (lit (-0.5)%float < lit 0) = true)
  /\ fst (_isvalid_root (lit (-0.5)%float) (lit nan)) = true.
Proof.
  split.
  - apply (_isvalid_root_spec (lit (-0.5)%float) (lit 12%float)).
    intros H. apply (f_equal is_nan) in H. vm_compute in H. discriminate H.
  - destruct (_isvalid_root_spec (lit (-0.5)%float) (lit nan)) as (_ & _ & _ & H).
    rewrite (H eq_refl). reflexivity.
Defined.

(** ** The flux ratio *)

(** X4: [flux_ratio] accepts the flux types "co2", "CO2", "h2o" and "H2O"
    only: for any other [ftype] it raises [ValueError], whatever the other
    arguments, and the upper-case names give the results of the lower-case
    ones. *)
Theorem flux_ratio_ftype (var_cp corr_cp_cr : num) (wqc_data : WQCData.t)
    (ftype : string) (farg : farg_t) :
  (ftype <> "co2" -> ftype <> "CO2" -> ftype <> "h2o" -> ftype <> "H2O" ->
   flux_ratio var_cp corr_cp_cr wqc_data ftype farg = Raise ValueError)
  /\ flux_ratio var_cp corr_cp_cr wqc_data "CO2" farg
     = flux_ratio var_cp corr_cp_cr wqc_data "co2" farg
  /\ flux_ratio var_cp corr_cp_cr wqc_data "H2O" farg
     = flux_ratio var_cp corr_cp_cr wqc_data "h2o" farg.
Proof.
  split; [| split; reflexivity].
  intros H1 H2 H3 H4. unfold flux_ratio, flux_ratio_sign_num.
  apply String.eqb_neq in H1, H2, H3, H4.
  rewrite H1, H2, H3, H4. reflexivity.
Qed.

(** A mixed-case name is not accepted. *)
Lemma flux_ratio_ftype_example :
  flux_ratio (lit 12%float) (lit (-0.5)%float) wqc_double "Co2" (FId (Some 0%Z))
    = Raise ValueError.
Proof.
  apply (flux_ratio_ftype (lit 12%float) (lit (-0.5)%float) wqc_double "Co2"
           (FId (Some 0%Z))); discriminate.
Defined.

(** X5: for the CO2 ratio, every [farg] that is not equal to 1 ([None], 0,
    any other number) selects the '-' root, that of solution id 0, and the
    ratio depends on the covariance summary through [var_c] only; so
    [_mass_fluxes] called without a solution id computes the fluxes of
    id 0. *)
Theorem flux_ratio_co2_minus_branch (var_cp corr_cp_cr : num)
    (wqc_data wqc_data' : WQCData.t) (farg : farg_t) (wue : num) :
  farg_eq_1 farg = false ->
  WQCData.var_c wqc_data' = WQCData.var_c wqc_data ->
  flux_ratio var_cp corr_cp_cr wqc_data' "co2" farg
    = flux_ratio var_cp corr_cp_cr wqc_data "co2" (FId (Some 0%Z))
  /\ _mass_fluxes var_cp corr_cp_cr wqc_data wue None
     = _mass_fluxes var_cp corr_cp_cr wqc_data wue (Some 0%Z).
Proof.
  intros Hf Hc. split; [| reflexivity].
  unfold flux_ratio, flux_ratio_sign_num. cbn. rewrite Hf, Hc. reflexivity.
Qed.

(** Without a solution id, on a summary that differs from [wqc_double] in
    everything but [var_c]. *)
Lemma flux_ratio_co2_minus_branch_example :
  flux_ratio (lit 12%float) (lit (-0.5)%float)
      (WQCData.mk (lit 0%float) (lit 1%float) (lit 2%float) (lit 9%float)
         (lit 0.5%float)) "co2" (FId None)
    = flux_ratio (lit 12%float) (lit (-0.5)%float) (scaled_wqc wqc_double) "co2"
        (FId (Some 0%Z))
  /\ _mass_fluxes (lit 12%float) (lit (-0.5)%float) (scaled_wqc wqc_double)
       wue_double None
     = _mass_fluxes (lit 12%float) (lit (-0.5)%float) (scaled_wqc wqc_double)
         wue_double (Some 0%Z).
Proof.
  apply (flux_ratio_co2_minus_branch (lit 12%float) (lit (-0.5)%float)
           (scaled_wqc wqc_double)
           (WQCData.mk (lit 0%float) (lit 1%float) (lit 2%float) (lit 9%float)
              (lit 0.5%float)) (FId None) wue_double);
    vm_compute; reflexivity.
Defined.

(** ** Root Solutions and Partition Results *)

(** X6: the Root Solution returned by [findroot] is valid exactly when its
    message is empty; an invalid one carries the message of the bound
    checks or "Trial root did not satisfy equations". *)
Theorem findroot_mssg (wqc_data : WQCData.t) (wue : num) (rs : RootSoln.t) :
  findroot wqc_data wue = Ret rs ->
  (RootSoln.isvalid rs = true <-> RootSoln.mssg rs = "")
  /\ (RootSoln.isvalid rs = false ->
      RootSoln.mssg rs = "var_cp <= 0; "
      \/ RootSoln.mssg rs = "corr_cp_cr <-1 OR >0; "
      \/ RootSoln.mssg rs = "var_cp <= 0; corr_cp_cr <-1 OR >0; "
      \/ RootSoln.mssg rs = "Trial root did not satisfy equations").
Proof.
  intros H. apply findroot_inv in H.
  destruct H as (corr_cp_cr & var_cp & v & m & id & s & _ & -> & Hc). cbn.
  destruct Hc as [(Hraw & Hv & _ & _) | (_ & Hc)].
  - unfold _isvalid_root in Hv, Hraw.
    destruct (var_cp <= lit 0), ((lit (-1) < corr_cp_cr) && (corr_cp_cr < lit 0));
      cbn in Hv, Hraw; try discriminate Hraw; injection Hv as -> ->;
      (split; [split; intros H; discriminate H | intros _; auto]).
  - apply findroot_check_inv in Hc.
    destruct Hc as (r0 & r1 & _ & _ & [Hc | [Hc | Hc]]).
    + destruct Hc as (_ & -> & -> & _).
      split; [split; reflexivity | discriminate].
    + destruct Hc as (_ & _ & -> & -> & _).
      split; [split; reflexivity | discriminate].
    + destruct Hc as (_ & _ & -> & -> & _).
      split; [split; intros H; discriminate H | auto].
Qed.

(** The valid root of [wqc_good] and the invalid one of [wqc_weak]. *)
Lemma findroot_mssg_example :
  ((RootSoln.isvalid rs_good = true <-> RootSoln.mssg rs_good = "")
   /\ (RootSoln.isvalid rs_good = false ->
       RootSoln.mssg rs_good = "var_cp <= 0; "
       \/ RootSoln.mssg rs_good = "corr_cp_cr <-1 OR >0; "
       \/ RootSoln.mssg rs_good = "var_cp <= 0; corr_cp_cr <-1 OR >0; "
       \/ RootSoln.mssg rs_good = "Trial root did not satisfy equations"))
  /\ ((RootSoln.isvalid rs_weak = true <-> RootSoln.mssg rs_weak = "")
      /\ (RootSoln.isvalid rs_weak = false ->
          RootSoln.mssg rs_weak = "var_cp <= 0; "
          \/ RootSoln.mssg rs_weak = "corr_cp_cr <-1 OR >0; "
          \/ RootSoln.mssg rs_weak = "var_cp <= 0; corr_cp_cr <-1 OR >0; "
          \/ RootSoln.mssg rs_weak = "Trial root did not satisfy equations")).
Proof.
  split.
  - apply (findroot_mssg wqc_good wue_good rs_good). vm_compute. reflexivity.
  - apply (findroot_mssg wqc_weak wue_weak rs_weak). vm_compute. reflexivity.
Defined.

(** X7: a Partition Result returned by [fvspart_interval] holds the
    covariance summary it was given and the Root Solution of [findroot] on
    it; it is marked valid only with a valid root and an empty message; with
    an invalid root it has the default fluxes and the message of the root;
    and with [wipe_if_invalid] set, every result marked invalid has the
    default fluxes. *)
Theorem fvspart_interval_result (wqc_data : WQCData.t) (wue : num)
    (wipe_if_invalid : bool) (r : FVSPResult.t) :
  fvspart_interval wqc_data wue wipe_if_invalid = Ret r ->
  FVSPResult.wqc_data r = wqc_data
  /\ findroot wqc_data wue = Ret (FVSPResult.rootsoln r)
  /\ (FVSPResult.valid_partition r = true ->
      RootSoln.isvalid (FVSPResult.rootsoln r) = true /\ FVSPResult.mssg r = "")
  /\ (RootSoln.isvalid (FVSPResult.rootsoln r) = false ->
      FVSPResult.fluxes r = MassFluxes.default
      /\ FVSPResult.mssg r = RootSoln.mssg (FVSPResult.rootsoln r))
  /\ (wipe_if_invalid = true -> FVSPResult.valid_partition r = false ->
      FVSPResult.fluxes r = MassFluxes.default).
Proof.
  unfold fvspart_interval. intros H. inv_bind H. rename a into rootsoln.
  destruct (RootSoln.isvalid rootsoln) eqn:E; cbn in H.
  - inv_bind H. rename a into mf.
    pose proof (_isvalid_partition_flag_iff_mssg mf) as Hm.
    destruct (_isvalid_partition mf) as [v m] eqn:Ep. cbn in Hm.
    injection H as <-. cbn. rewrite E.
    split; [reflexivity | split; [assumption |]].
    split; [intros ->; split; [reflexivity | apply Hm; reflexivity] |].
    split; [discriminate |].
    intros -> ->. reflexivity.
  - injection H as <-. cbn. rewrite E.
    split; [reflexivity | split; [assumption |]].
    split; [discriminate | split; auto].
Qed.

(** On [wqc_signs] with the flag set: a valid root, a partition marked
    invalid and the default fluxes. *)
Lemma fvspart_interval_result_example :
  exists r,
    fvspart_interval wqc_signs wue_signs true = Ret r
    /\ RootSoln.isvalid (FVSPResult.rootsoln r) = true
    /\ FVSPResult.valid_partition r = false
    /\ FVSPResult.wqc_data r = wqc_signs
    /\ findroot wqc_signs wue_signs = Ret (FVSPResult.rootsoln r)
    /\ FVSPResult.fluxes r = MassFluxes.default.
Proof.
  eexists. split; [vm_compute; reflexivity |].
  split; [reflexivity | split; [reflexivity |]].
  match goal with
  | |- FVSPResult.wqc_data ?r = _ /\ _ =>
      destruct (fvspart_interval_result wqc_signs wue_signs true r)
        as (Hw & Hf & _ & _ & Hwipe); [vm_compute; reflexivity |]
  end.
  split; [exact Hw | split; [exact Hf | apply Hwipe; reflexivity]].
Defined.

(** X8: the flag [wipe_if_invalid] changes nothing of [fvspart_interval]
    but the fluxes of a partition marked invalid: both values raise the same
    exception or return results with the same covariance summary, Root
    Solution, validity flag and message, and the same fluxes when the
    partition is marked valid. *)
Theorem fvspart_interval_wipe_only_fluxes (wqc_data : WQCData.t) (wue : num) :
  match fvspart_interval wqc_data wue true, fvspart_interval wqc_data wue false with
  | Ret r1, Ret r0 =>
      FVSPResult.wqc_data r1 = FVSPResult.wqc_data r0
      /\ FVSPResult.rootsoln r1 = FVSPResult.rootsoln r0
      /\ FVSPResult.valid_partition r1 = FVSPResult.valid_partition r0
      /\ FVSPResult.mssg r1 = FVSPResult.mssg r0
      /\ (FVSPResult.valid_partition r0 = true -> r1 = r0)
      /\ (FVSPResult.valid_partition r0 = false ->
          FVSPResult.fluxes r1 = MassFluxes.default)
  | Raise e1, Raise e0 => e1 = e0
  | _, _ => False
  end.
Proof.
  unfold fvspart_interval.
  destruct (findroot wqc_data wue) as [rootsoln | e]; cbn; [| reflexivity].
  destruct (RootSoln.isvalid rootsoln); cbn.
  - destruct (_mass_fluxes _ _ _ _ _) as [mf | e]; cbn; [| reflexivity].
    destruct (_isvalid_partition mf) as [[|] m]; cbn;
      (split; [reflexivity |]); (split; [reflexivity |]);
      (split; [reflexivity |]); (split; [reflexivity |]);
      split; intros H; try reflexivity; discriminate H.
  - split; [reflexivity |]. split; [reflexivity |]. split; [reflexivity |].
    split; [reflexivity |]. split; intros H; reflexivity.
Qed.

(** ** The progressive orchestrator, every returned result *)

(** Whatever the loop returns is its initial value on no level, or the pass
    of the first level that is valid, or the pass of the last level. *)
Lemma progressive_loop_inv np_cov max_decomp_lvl wue adjust_fluxes wq_tot wc_tot
    levels :
  forall cnt last out,
    progressive_loop np_cov max_decomp_lvl wue adjust_fluxes wq_tot wc_tot cnt
      levels last = Ret out ->
    (levels = [] /\ out = last)
    \/ exists i x r,
         nth_error levels i = Some x
         /\ progressive_step np_cov wue adjust_fluxes wq_tot wc_tot x = Ret r
         /\ Forall (pass_invalid np_cov wue adjust_fluxes wq_tot wc_tot)
              (firstn i levels)
         /\ (FVSPResult.valid_partition r = true \/ S i = length levels)
         /\ out = Some ((max_decomp_lvl - (cnt + Z.of_nat i))%Z, max_decomp_lvl, r).
Proof.
  induction levels as [| x levels IH]; intros cnt last out H.
  - left. cbn in H. injection H as <-. auto.
  - right. cbn [progressive_loop] in H. inv_bind H. rename a into r.
    destruct (FVSPResult.valid_partition r) eqn:Ev.
    + injection H as <-. exists O, x, r. cbn.
      rewrite Z.add_0_r. repeat split; auto.
    + apply IH in H. destruct H as [(-> & ->) | (i & y & ry & Hn & Hy & Hpre & Hlast & ->)].
      * exists O, x, r. cbn. rewrite Z.add_0_r. repeat split; auto.
      * exists (S i), y, ry. cbn [nth_error firstn length].
        split; [exact Hn | split; [exact Hy |]].
        split; [constructor; [exists r; auto | exact Hpre] |].
        split; [destruct Hlast; auto |].
        rewrite Nat2Z.inj_succ. do 3 f_equal. lia.
Qed.

(** X9: every result returned by [fvspart_progressive] is the pass of the
    first level of the filter whose partition is valid, or of the last level
    when none is, after all earlier levels gave invalid partitions; its
    [wave_lvl] is [(k - i, k)] for the index [i] of that level; it is marked
    valid only with a valid root, and when it is marked invalid its Mass
    Fluxes are the default (not-a-number) ones. *)
Theorem fvspart_progressive_result (np_cov : series -> series -> num)
    (progressive_lowcut_series : series -> list series)
    (w q c : series) (wue : num) (adjust_fluxes : bool) (res : FVSPResult.t) :
  fvspart_progressive np_cov progressive_lowcut_series w q c wue adjust_fluxes
    = Ret res ->
  exists k levels i x r,
    int_log2 (length w) = Ret k
    /\ _progressive_lowcut progressive_lowcut_series w q c = Ret levels
    /\ nth_error levels i = Some x
    /\ progressive_step np_cov wue adjust_fluxes (np_cov w q) (np_cov w c) x = Ret r
    /\ Forall (pass_invalid np_cov wue adjust_fluxes (np_cov w q) (np_cov w c))
         (firstn i levels)
    /\ (FVSPResult.valid_partition r = true \/ S i = length levels)
    /\ FVSPResult.wave_lvl res = Some ((k - Z.of_nat i)%Z, k)
    /\ FVSPResult.rootsoln res = FVSPResult.rootsoln r
    /\ FVSPResult.valid_partition res = FVSPResult.valid_partition r
    /\ (FVSPResult.valid_partition res = true ->
        RootSoln.isvalid (FVSPResult.rootsoln res) = true
        /\ FVSPResult.fluxes res = FVSPResult.fluxes r)
    /\ (FVSPResult.valid_partition res = false ->
        FVSPResult.fluxes res = MassFluxes.default).
Proof.
  unfold fvspart_progressive. intros H.
  inv_bind H. rename a into k. inv_bind H. rename a into levels.
  inv_bind H. rename a into st.
  apply progressive_loop_inv in Hstep1.
  destruct Hstep1 as [(_ & ->) | (i & x & r & Hn & Hx & Hpre & Hlast & ->)];
    [discriminate H |].
  injection H as <-. exists k, levels, i, x, r.
  do 6 (split; [assumption |]).
  unfold progressive_finish. cbn.
  destruct (RootSoln.isvalid (FVSPResult.rootsoln r)) eqn:Er; cbn.
  - destruct (FVSPResult.valid_partition r) eqn:Ev; cbn; rewrite ?Er, ?Ev;
      (split; [reflexivity |]); (split; [reflexivity |]);
      (split; [reflexivity |]);
      split; intros H; try discriminate H; auto.
  - destruct (progressive_step_invalid_root _ _ _ _ _ _ _ Hx Er) as [Hv _].
    rewrite Hv. cbn.
    split; [reflexivity |]. split; [reflexivity |]. split; [reflexivity |].
    split; intros H; try discriminate H; auto.
Qed.

(** The example series with [wue_good]: the result is the pass of level 1,
    the first valid one. *)
Lemma fvspart_progressive_result_example :
  exists res,
    fvspart_progressive cov_sample lowcut_blocks w_ex q_ex c_ex wue_good true
      = Ret res
    /\ FVSPResult.valid_partition res = true
    /\ exists k levels i x r,
         int_log2 (length w_ex) = Ret k
         /\ _progressive_lowcut lowcut_blocks w_ex q_ex c_ex = Ret levels
         /\ nth_error levels i = Some x
         /\ progressive_step cov_sample wue_good true (cov_sample w_ex q_ex)
              (cov_sample w_ex c_ex) x = Ret r
         /\ Forall (pass_invalid cov_sample wue_good true (cov_sample w_ex q_ex)
                      (cov_sample w_ex c_ex)) (firstn i levels)
         /\ (FVSPResult.valid_partition r = true \/ S i = length levels)
         /\ FVSPResult.wave_lvl res = Some ((k - Z.of_nat i)%Z, k)
         /\ FVSPResult.rootsoln res = FVSPResult.rootsoln r
         /\ FVSPResult.valid_partition res = FVSPResult.valid_partition r
         /\ (FVSPResult.valid_partition res = true ->
             RootSoln.isvalid (FVSPResult.rootsoln res) = true
             /\ FVSPResult.fluxes res = FVSPResult.fluxes r)
         /\ (FVSPResult.valid_partition res = false ->
             FVSPResult.fluxes res = MassFluxes.default).
Proof.
  eexists. split; [vm_compute; reflexivity |]. split; [reflexivity |].
  apply (fvspart_progressive_result cov_sample lowcut_blocks w_ex q_ex c_ex
           wue_good true).
  vm_compute. reflexivity.
Defined.

(** X10: [fvspart_progressive] on an empty wind series raises
    [OverflowError] (the logarithm of the size is [-inf]), whatever the other
    two series; on three series of one non-zero length for which the filter
    yields no level it raises [UnboundLocalError], the loop having bound no
    result. *)
Theorem fvspart_progressive_raises (np_cov : series -> series -> num)
    (progressive_lowcut_series : series -> list series)
    (w q c : series) (wue : num) (adjust_fluxes : bool) :
  (w = [] ->
   fvspart_progressive np_cov progressive_lowcut_series w q c wue adjust_fluxes
     = Raise OverflowError)
  /\ (w <> [] -> length q = length w -> length c = length w ->
      _progressive_lowcut progressive_lowcut_series w q c = Ret [] ->
      fvspart_progressive np_cov progressive_lowcut_series w q c wue adjust_fluxes
        = Raise UnboundLocalError).
Proof.
  split.
  - intros ->. reflexivity.
  - intros Hw _ _ Hl. unfold fvspart_progressive. rewrite Hl.
    destruct w; [congruence | reflexivity].
Qed.

(** A filter that yields nothing. *)
Lemma fvspart_progressive_raises_example :
  fvspart_progressive cov_sample (fun _ => []) w_ex q_ex c_ex wue_good true
    = Raise UnboundLocalError
  /\ fvspart_progressive cov_sample lowcut_blocks [] q_ex c_ex wue_good true
     = Raise OverflowError.
Proof.
  split.
  - apply (proj2 (fvspart_progressive_raises cov_sample (fun _ => []) w_ex q_ex
                    c_ex wue_good true));
      [discriminate | reflexivity | reflexivity | reflexivity].
  - apply (proj1 (fvspart_progressive_raises cov_sample lowcut_blocks [] q_ex
                    c_ex wue_good true)). reflexivity.
Defined.

Lemma zip3_length {A B C : Type} (la : list A) (lb : list B) (lc : list C) :
  length (zip3 la lb lc) = Nat.min (length la) (Nat.min (length lb) (length lc)).
Proof.
  revert lb lc. induction la as [| a la IH]; intros [| b lb] [| c lc]; cbn;
    try reflexivity.
  rewrite IH. reflexivity.
Qed.

(** X11: on a non-empty CO2 series of length [N < 2^32],
    [_progressive_lowcut] filters the first [2^k] samples of each of the
    three series, with [2^k <= N < 2^(k+1)] taken from the CO2 series alone;
    series as long as the CO2 series are cut to exactly [2^k] samples; it
    yields as many triples as the shortest of the three filter outputs. *)
Theorem _progressive_lowcut_dyadic
    (progressive_lowcut_series : series -> list series)
    (wind vapor co2 : series) :
  co2 <> [] ->
  (Z.of_nat (length co2) < 2 ^ 32)%Z ->
  exists k levels,
    let n := Z.to_nat (2 ^ k) in
    (0 <= k)%Z
    /\ (2 ^ k <= Z.of_nat (length co2) < 2 ^ (k + 1))%Z
    /\ _progressive_lowcut progressive_lowcut_series wind vapor co2 = Ret levels
    /\ levels = zip3 (progressive_lowcut_series (firstn n wind))
                  (progressive_lowcut_series (firstn n vapor))
                  (progressive_lowcut_series (firstn n co2))
    /\ length (firstn n co2) = n
    /\ (length wind = length co2 -> length (firstn n wind) = n)
    /\ (length vapor = length co2 -> length (firstn n vapor) = n)
    /\ length levels
       = Nat.min (length (progressive_lowcut_series (firstn n wind)))
           (Nat.min (length (progressive_lowcut_series (firstn n vapor)))
              (length (progressive_lowcut_series (firstn n co2)))).
Proof.
  intros Hc _. exists (Z.log2 (Z.of_nat (length co2))).
  exists (zip3
            (progressive_lowcut_series
               (firstn (Z.to_nat (2 ^ Z.log2 (Z.of_nat (length co2)))) wind))
            (progressive_lowcut_series
               (firstn (Z.to_nat (2 ^ Z.log2 (Z.of_nat (length co2)))) vapor))
            (progressive_lowcut_series
               (firstn (Z.to_nat (2 ^ Z.log2 (Z.of_nat (length co2)))) co2))).
  cbn zeta.
  assert (Hpos : (0 < Z.of_nat (length co2))%Z).
  { destruct co2; [congruence | cbn [length]; lia]. }
  pose proof (Z.log2_spec _ Hpos) as Hspec.
  pose proof (Z.log2_nonneg (Z.of_nat (length co2))) as Hk.
  assert (Hn : (Z.to_nat (2 ^ Z.log2 (Z.of_nat (length co2))) <= length co2)%nat)
    by lia.
  split; [exact Hk |].
  split; [unfold Z.succ in Hspec; exact Hspec |].
  split.
  { unfold _progressive_lowcut, int_log2.
    destruct co2; [congruence | reflexivity]. }
  split; [reflexivity |].
  split; [apply firstn_length_le; exact Hn |].
  split; [intros Hw; apply firstn_length_le; lia |].
  split; [intros Hq; apply firstn_length_le; lia |].
  apply zip3_length.
Qed.

(** The example series: four samples, three levels. *)
Lemma _progressive_lowcut_dyadic_example :
  exists k levels,
    let n := Z.to_nat (2 ^ k) in
    (0 <= k)%Z
    /\ (2 ^ k <= Z.of_nat (length c_ex) < 2 ^ (k + 1))%Z
    /\ _progressive_lowcut lowcut_blocks w_ex q_ex c_ex = Ret levels
    /\ levels = zip3 (lowcut_blocks (firstn n w_ex)) (lowcut_blocks (firstn n q_ex))
                  (lowcut_blocks (firstn n c_ex))
    /\ length (firstn n c_ex) = n
    /\ (length w_ex = length c_ex -> length (firstn n w_ex) = n)
    /\ (length q_ex = length c_ex -> length (firstn n q_ex) = n)
    /\ length levels
       = Nat.min (length (lowcut_blocks (firstn n w_ex)))
           (Nat.min (length (lowcut_blocks (firstn n q_ex)))
              (length (lowcut_blocks (firstn n c_ex)))).
Proof.
  apply (_progressive_lowcut_dyadic lowcut_blocks w_ex q_ex c_ex);
    [discriminate | reflexivity].
Defined.

(** ** The flux adjuster, its exception *)

(** X12: [_adjust_fluxes] raises nothing but [ZeroDivisionError], and
    raises it exactly when [fc.Fqe] and [fc.Fqt] are Python floats whose sum
    is zero; [wue] and the two totals have no part in it. *)
Theorem _adjust_fluxes_raises (fc : MassFluxes.t) (wue Fq_tot Fc_tot : num) :
  let zero_sum :=
    negb (is_np (MassFluxes.Fqe fc) || is_np (MassFluxes.Fqt fc))
    && (val (MassFluxes.Fqt fc) + val (MassFluxes.Fqe fc) =? 0)%float in
  match _adjust_fluxes fc wue Fq_tot Fc_tot with
  | Ret _ => zero_sum = false
  | Raise e => e = ZeroDivisionError /\ zero_sum = true
  end.
Proof.
  cbn zeta. unfold _adjust_fluxes, truediv. cbn.
  destruct (is_np (MassFluxes.Fqe fc)), (is_np (MassFluxes.Fqt fc)); cbn;
    try reflexivity.
  destruct (val (MassFluxes.Fqt fc) + val (MassFluxes.Fqe fc) =? 0)%float; cbn;
    auto.
Qed.

(** Opposite Python fluxes raise; the same values from NumPy do not. *)
Lemma _adjust_fluxes_raises_example :
  _adjust_fluxes
    (MassFluxes.mk (lit 0%float) (lit 1e-3%float) (lit (-1e-3)%float)
       (lit 0%float) (lit 0%float) (lit 0%float))
    (lit (-1e-2)%float) (lit 3e-3%float) (lit (-4e-6)%float)
    = Raise ZeroDivisionError
  /\ returns
       (_adjust_fluxes
          (MassFluxes.mk (lit 0%float) (Num true 1e-3%float)
             (Num true (-1e-3)%float) (lit 0%float) (lit 0%float) (lit 0%float))
          (lit (-1e-2)%float) (lit 3e-3%float) (lit (-4e-6)%float)) = true.
Proof.
  split.
  - pose proof (_adjust_fluxes_raises
                  (MassFluxes.mk (lit 0%float) (lit 1e-3%float)
                     (lit (-1e-3)%float) (lit 0%float) (lit 0%float) (lit 0%float))
                  (lit (-1e-2)%float) (lit 3e-3%float) (lit (-4e-6)%float)) as H.
    cbn zeta in H.
    destruct (_adjust_fluxes _ _ _ _) as [m | e]; [discriminate H |].
    destruct H as [-> _]. reflexivity.
  - reflexivity.
Defined.

(** * Properties of [hfdata.py] *)

(** ** [truncate_pow2] *)

(** X14: on a dataframe of [N] records, [1 <= N < 2^32], [truncate_pow2]
    keeps the first [2^k] records, where [2^k <= N < 2^(k+1)]; the integer
    binary logarithm of the kept length is [k], so that truncating once more
    changes nothing. *)
Theorem truncate_pow2_dyadic :
  forall (row : Type) (data : list row) (flag : bool),
    data <> [] ->
    (Z.of_nat (length data) < 2 ^ 32)%Z ->
    exists (k : nat) (kept : list row),
      HF.truncate_pow2 row (HF.mk row (Some data) flag)
      = (HF.mk row (Some kept) flag, HF.Ok tt)
      /\ kept = firstn (2 ^ k) data
      /\ length kept = (2 ^ k)%nat
      /\ (length kept <= length data < 2 * length kept)%nat
      /\ int_log2 (length kept) = Py.Ret (Z.of_nat k)
      /\ HF.truncate_pow2 row (HF.mk row (Some kept) flag)
         = (HF.mk row (Some kept) flag, HF.Ok tt).
Proof.
  intros row data flag Hne _.
  assert (Hpos : (0 < Z.of_nat (length data))%Z)
    by (destruct data; [congruence | simpl length; lia]).
  pose proof (Z.log2_spec _ Hpos) as [Hlo Hhi].
  pose proof (Z.log2_nonneg (Z.of_nat (length data))) as Hk.
  rewrite Z.pow_succ_r in Hhi by exact Hk.
  assert (Hpow : Z.to_nat (2 ^ Z.log2 (Z.of_nat (length data)))
                 = (2 ^ Z.to_nat (Z.log2 (Z.of_nat (length data))))%nat)
    by (rewrite Z2Nat.inj_pow by lia; reflexivity).
  assert (Hle : (2 ^ Z.to_nat (Z.log2 (Z.of_nat (length data))) <= length data)%nat)
    by (rewrite <- Hpow; lia).
  exists (Z.to_nat (Z.log2 (Z.of_nat (length data)))),
         (firstn (2 ^ Z.to_nat (Z.log2 (Z.of_nat (length data)))) data).
  assert (Hlen : length (firstn (2 ^ Z.to_nat (Z.log2 (Z.of_nat (length data)))) data)
                 = (2 ^ Z.to_nat (Z.log2 (Z.of_nat (length data))))%nat)
    by (apply firstn_length_le; exact Hle).
  assert (Hgen : forall n, (0 < n)%nat -> int_log2 n = Py.Ret (Z.log2 (Z.of_nat n)))
    by (intros [|n] Hn; [lia | reflexivity]).
  assert (Hlog : int_log2 (length data) = Py.Ret (Z.log2 (Z.of_nat (length data))))
    by (apply Hgen; lia).
  assert (Hlog' : int_log2 (2 ^ Z.to_nat (Z.log2 (Z.of_nat (length data))))
                  = Py.Ret (Z.log2 (Z.of_nat (length data)))).
  { rewrite Hgen by lia. rewrite <- Hpow, Z2Nat.id by lia.
    rewrite Z.log2_pow2 by exact Hk. reflexivity. }
  split.
  { unfold HF.truncate_pow2. cbn [HF.dataframe HF._already_corrected_external].
    rewrite Hlog, Hpow. reflexivity. }
  split; [reflexivity |]. split; [exact Hlen |]. split; [rewrite Hlen; lia |].
  split; [rewrite Hlen, Hlog', Z2Nat.id by exact Hk; reflexivity |].
  unfold HF.truncate_pow2. cbn [HF.dataframe HF._already_corrected_external].
  rewrite Hlen, Hlog', Hpow, firstn_firstn, Nat.min_id. reflexivity.
Qed.

(** Seven records are cut to the first four. *)
Lemma truncate_pow2_dyadic_example :
  exists kept,
    HF.truncate_pow2 record (HF.mk record (Some records_ex) false)
    = (HF.mk record (Some kept) false, HF.Ok tt)
    /\ kept = firstn 4 records_ex
    /\ HF.truncate_pow2 record (HF.mk record (Some kept) false)
       = (HF.mk record (Some kept) false, HF.Ok tt).
Proof.
  destruct (truncate_pow2_dyadic record records_ex false ltac:(discriminate)
              eq_refl)
    as (k & kept & Hrun & _ & _ & _ & _ & Hidem).
  exists kept. split; [exact Hrun |]. split; [| exact Hidem].
  cbv in Hrun. injection Hrun as <-. reflexivity.
Defined.

(** ** [HFDataReader]: names and columns *)

Lemma insert_by_perm (key : string -> Z) (x : string) (l : list string) :
  Permutation (HF.insert_by key x l) (x :: l).
Proof.
  induction l as [|y l IH]; simpl; [apply Permutation_refl |].
  destruct (key x <=? key y)%Z; [apply Permutation_refl |].
  eapply perm_trans; [apply perm_skip, IH | apply perm_swap].
Qed.

Lemma sorted_by_perm (key : string -> Z) (l : list string) :
  Permutation (HF.sorted_by key l) l.
Proof.
  induction l as [|x l IH]; simpl; [apply perm_nil |].
  eapply perm_trans; [apply insert_by_perm | apply perm_skip, IH].
Qed.

Lemma insert_by_sorted (key : string -> Z) (x : string) (l : list string) :
  Sorted (fun a b => (key a <= key b)%Z) l ->
  Sorted (fun a b => (key a <= key b)%Z) (HF.insert_by key x l).
Proof.
  induction 1 as [|y l Hs IH Hd]; simpl.
  - constructor; constructor.
  - destruct (key x <=? key y)%Z eqn:E.
    + constructor; [constructor; assumption | constructor; lia].
    + constructor; [exact IH |].
      destruct Hd as [|z l Hz]; simpl.
      * constructor. lia.
      * destruct (key x <=? key z)%Z; constructor; lia.
Qed.

Lemma sorted_by_sorted (key : string -> Z) (l : list string) :
  Sorted Z.le (map key (HF.sorted_by key l)).
Proof.
  assert (H : Sorted (fun a b => (key a <= key b)%Z) (HF.sorted_by key l)).
  { induction l as [|x l IH]; simpl; [constructor |].
    apply insert_by_sorted, IH. }
  induction H as [|y l' Hs IH Hd]; simpl; constructor; [exact IH |].
  destruct Hd; simpl; constructor; assumption.
Qed.

Lemma dict_set_keys (k : string) (v : Z) (d : HF.dict) (k' : string) :
  In k' (map fst (HF.dict_set k v d)) <-> k' = k \/ In k' (map fst d).
Proof.
  induction d as [|[k0 v0] d IH]; simpl.
  - intuition congruence.
  - destruct (String.eqb_spec k0 k) as [->|Hne]; simpl.
    + intuition congruence.
    + rewrite IH. intuition congruence.
Qed.

Lemma dict_set_NoDup (k : string) (v : Z) (d : HF.dict) :
  NoDup (map fst d) -> NoDup (map fst (HF.dict_set k v d)).
Proof.
  induction d as [|[k0 v0] d IH]; simpl; intros H.
  - constructor; [intros [] | constructor].
  - inversion H as [|? ? Hn Hd]; subst.
    destruct (String.eqb_spec k0 k) as [->|Hne]; simpl.
    + constructor; assumption.
    + constructor; [| apply IH, Hd].
      rewrite dict_set_keys. intros [->|Hin]; [congruence | contradiction].
Qed.

Lemma dict_set_lookup (k : string) (v : Z) (d : HF.dict) (k' : string) :
  HF.dict_lookup (HF.dict_set k v d) k'
  = if (k =? k')%string then Some v else HF.dict_lookup d k'.
Proof.
  induction d as [|[k0 v0] d IH]; simpl.
  - reflexivity.
  - destruct (String.eqb_spec k0 k) as [->|Hne]; simpl.
    + destruct (String.eqb_spec k k'); reflexivity.
    + rewrite IH.
      destruct (String.eqb_spec k0 k') as [->|]; [| reflexivity].
      destruct (String.eqb_spec k k'); [congruence | reflexivity].
Qed.

Lemma dict_update_keys (items : list (string * Z)) (d : HF.dict) (k : string) :
  In k (map fst (HF.dict_update d items))
  <-> In k (map fst d) \/ In k (map fst items).
Proof.
  revert d. induction items as [|[k0 v0] items IH]; intros d; simpl.
  - intuition.
  - unfold HF.dict_update in *. simpl. rewrite IH, dict_set_keys.
    intuition congruence.
Qed.

Lemma dict_update_NoDup (items : list (string * Z)) (d : HF.dict) :
  NoDup (map fst d) -> NoDup (map fst (HF.dict_update d items)).
Proof.
  revert d. induction items as [|[k0 v0] items IH]; intros d H; simpl.
  - exact H.
  - apply IH, dict_set_NoDup, H.
Qed.

Lemma dict_update_lookup_other (items : list (string * Z)) (d : HF.dict)
    (k : string) :
  ~ In k (map fst items) ->
  HF.dict_lookup (HF.dict_update d items) k = HF.dict_lookup d k.
Proof.
  revert d. induction items as [|[k0 v0] items IH]; intros d H; simpl.
  - reflexivity.
  - unfold HF.dict_update in *. simpl in *. rewrite IH by tauto.
    rewrite dict_set_lookup.
    destruct (String.eqb_spec k0 k); [tauto | reflexivity].
Qed.

Lemma dict_update_lookup (items : list (string * Z)) (d : HF.dict)
    (k : string) (v : Z) :
  NoDup (map fst items) -> In (k, v) items ->
  HF.dict_lookup (HF.dict_update d items) k = Some v.
Proof.
  revert d. induction items as [|[k0 v0] items IH]; intros d Hn Hin; simpl.
  - destruct Hin.
  - simpl in Hn. inversion Hn as [|? ? Hk0 Hn']; subst.
    destruct Hin as [E|Hin].
    + injection E as -> ->.
      change (HF.dict_lookup (HF.dict_update (HF.dict_set k v d) items) k = Some v).
      rewrite dict_update_lookup_other by exact Hk0.
      rewrite dict_set_lookup, String.eqb_refl. reflexivity.
    + apply (IH (HF.dict_set k0 v0 d) Hn' Hin).
Qed.

Lemma dict_lookup_key (d : HF.dict) (k : string) :
  In k (map fst d) -> exists v, HF.dict_lookup d k = Some v.
Proof.
  induction d as [|[k0 v0] d IH]; simpl; [intros [] |].
  intros H. destruct (String.eqb_spec k0 k) as [|Hne]; [eauto |].
  destruct H as [H|H]; [congruence | exact (IH H)].
Qed.

Lemma _namecols_NoDup (goodval : Type) (self : HF.reader goodval) :
  NoDup (map fst (HF._namecols goodval self)).
Proof.
  unfold HF._namecols.
  assert (H : NoDup (map fst
                (HF.dict_update
                   (HF.dict_update [] (combine HF.var_names (HF._cols goodval self)))
                   (map (fun kv => (fst kv, fst (snd kv))) (HF._flags goodval self))))).
  { apply dict_update_NoDup, dict_update_NoDup. constructor. }
  destruct (HF._time_col goodval self); [| exact H].
  destruct (HF._filetype goodval self =? "csv")%string; [| exact H].
  apply dict_set_NoDup, H.
Qed.

(** X15: the column indices of [_usecols] are in increasing order; [_names]
    lists every key of [_namecols] once, and the two lists are aligned: each
    entry of [_usecols] is the column of the name at the same place. *)
Theorem _usecols_sorted_names_aligned (goodval : Type) (self : HF.reader goodval) :
  Sorted Z.le (HF._usecols goodval self)
  /\ Permutation (HF._names goodval self) (map fst (HF._namecols goodval self))
  /\ NoDup (HF._names goodval self)
  /\ Forall2 (fun name col => HF.dict_lookup (HF._namecols goodval self) name = Some col)
       (HF._names goodval self) (HF._usecols goodval self).
Proof.
  unfold HF._usecols, HF._names.
  pose proof (sorted_by_perm (HF.dict_get (HF._namecols goodval self))
                (map fst (HF._namecols goodval self))) as Hp.
  split; [apply sorted_by_sorted |]. split; [exact Hp |].
  split.
  { eapply Permutation_NoDup; [apply Permutation_sym, Hp | apply _namecols_NoDup]. }
  assert (Hin : forall k,
             In k (HF.sorted_by (HF.dict_get (HF._namecols goodval self))
                     (map fst (HF._namecols goodval self))) ->
             In k (map fst (HF._namecols goodval self)))
    by (intros k; apply Permutation_in, Hp).
  clear Hp. revert Hin.
  generalize (HF.sorted_by (HF.dict_get (HF._namecols goodval self))
                (map fst (HF._namecols goodval self))) as l.
  induction l as [|k l IH]; intros Hin; simpl.
  - constructor.
  - constructor; [| apply IH; intros k' Hk'; apply Hin; right; exact Hk'].
    destruct (dict_lookup_key _ _ (Hin k (or_introl eq_refl))) as [v Hv].
    unfold HF.dict_get. rewrite Hv. reflexivity.
Qed.

(** With the vapor and CO2 columns swapped, the names follow the columns. *)
Lemma _usecols_sorted_names_aligned_example :
  HF._names Z reader_ex = ["Datetime"; "u"; "v"; "w"; "q"; "c"; "T"; "P"; "flag"]
  /\ HF._usecols Z reader_ex = [0; 2; 3; 4; 5; 6; 7; 8; 9]%Z
  /\ Sorted Z.le (HF._usecols Z reader_ex).
Proof.
  split; [reflexivity | split; [reflexivity |]].
  apply (_usecols_sorted_names_aligned Z reader_ex).
Defined.

(** X16: [_names] has the name "Datetime" exactly when [_time_col] is an int
    and [_filetype] is the string "csv" as written, or a flag has that name;
    in the first case its column is [_time_col], whatever the flags say. *)
Theorem _namecols_datetime (goodval : Type) (self : HF.reader goodval) :
  (In "Datetime" (HF._names goodval self)
   <-> (exists time_col, HF._time_col goodval self = Some time_col
                         /\ HF._filetype goodval self = "csv")
       \/ In "Datetime" (map fst (HF._flags goodval self)))
  /\ (forall time_col,
        HF._time_col goodval self = Some time_col ->
        HF._filetype goodval self = "csv" ->
        HF.dict_lookup (HF._namecols goodval self) "Datetime" = Some time_col).
Proof.
  assert (Hv : ~ In "Datetime" (map fst (combine HF.var_names (HF._cols goodval self)))).
  { intros H. apply in_map_iff in H. destruct H as [[k v] [Hk H]].
    apply in_combine_l in H. simpl in Hk. subst k.
    unfold HF.var_names in H. simpl in H.
    repeat (destruct H as [H|H]; [discriminate H |]). exact H. }
  assert (Hf : forall k, In k (map fst (map (fun kv : string * (Z * goodval) =>
                                              (fst kv, fst (snd kv)))
                                         (HF._flags goodval self)))
                         <-> In k (map fst (HF._flags goodval self)))
    by (intros k; rewrite map_map; reflexivity).
  split.
  - assert (Hp : In "Datetime" (HF._names goodval self)
                 <-> In "Datetime" (map fst (HF._namecols goodval self))).
    { split; apply Permutation_in;
        [| apply Permutation_sym]; apply sorted_by_perm. }
    rewrite Hp. unfold HF._namecols.
    destruct (HF._time_col goodval self) as [t|].
    + destruct (String.eqb_spec (HF._filetype goodval self) "csv") as [E|E].
      * rewrite dict_set_keys. split; [| intros _; left; reflexivity].
        intros _. left. exists t. split; [reflexivity | exact E].
      * rewrite !dict_update_keys, Hf. simpl.
        split; [tauto |].
        intros [(t' & _ & E') | H]; [contradiction | tauto].
    + rewrite !dict_update_keys, Hf. simpl.
      split; [tauto |].
      intros [(t' & E' & _) | H]; [discriminate E' | tauto].
  - intros t Ht Hc. unfold HF._namecols. rewrite Ht, Hc. simpl.
    rewrite dict_set_lookup. reflexivity.
Qed.

(** A reader of file type "CSV" with a datetime column has no "Datetime"
    name; the one of file type "csv" has it, on its column 0. *)
Lemma _namecols_datetime_example :
  ~ In "Datetime"
      (HF._names Z (HF.mk_reader Z "CSV" [2; 3; 4; 5; 6; 7; 8]%Z (Some 0%Z) []))
  /\ In "Datetime" (HF._names Z reader_ex)
  /\ HF.dict_lookup (HF._namecols Z reader_ex) "Datetime" = Some 0%Z.
Proof.
  split; [| split].
  - intros H.
    apply (proj1 (_namecols_datetime Z
                    (HF.mk_reader Z "CSV" [2; 3; 4; 5; 6; 7; 8]%Z (Some 0%Z) [])))
      in H.
    destruct H as [(t & _ & E) | []]. discriminate E.
  - apply (proj1 (_namecols_datetime Z reader_ex)).
    left. exists 0%Z. split; reflexivity.
  - apply (proj2 (_namecols_datetime Z reader_ex) 0%Z); reflexivity.
Defined.

(** X17: a flag [flg: (col, goodval)] of the flag dict, other than one
    named "Datetime", is read from its own column [col], also when [flg] is
    the name of one of the seven variables: the column given for that
    variable in [cols] is then replaced. *)
Theorem _namecols_flag_overrides (goodval : Type) (self : HF.reader goodval)
    (flg : string) (col : Z) (good : goodval) :
  NoDup (map fst (HF._flags goodval self)) ->
  In (flg, (col, good)) (HF._flags goodval self) ->
  flg <> "Datetime" ->
  HF.dict_lookup (HF._namecols goodval self) flg = Some col
  /\ In flg (HF._names goodval self)
  /\ In col (HF._usecols goodval self).
Proof.
  intros Hn Hin Hd.
  assert (Hl : HF.dict_lookup (HF._namecols goodval self) flg = Some col).
  { assert (H : HF.dict_lookup
                  (HF.dict_update
                     (HF.dict_update [] (combine HF.var_names (HF._cols goodval self)))
                     (map (fun kv => (fst kv, fst (snd kv))) (HF._flags goodval self)))
                  flg = Some col).
    { apply dict_update_lookup.
      - rewrite map_map. exact Hn.
      - apply in_map_iff. exists (flg, (col, good)). split; [reflexivity | exact Hin]. }
    unfold HF._namecols.
    destruct (HF._time_col goodval self); [| exact H].
    destruct (HF._filetype goodval self =? "csv")%string; [| exact H].
    rewrite dict_set_lookup.
    destruct (String.eqb_spec "Datetime" flg); [congruence | exact H]. }
  assert (Hk : In flg (HF._names goodval self)).
  { eapply Permutation_in; [apply Permutation_sym, sorted_by_perm |].
    clear - Hl. induction (HF._namecols goodval self) as [|[k v] d IH];
      simpl in *; [discriminate Hl |].
    destruct (String.eqb_spec k flg); [left; assumption | right; exact (IH Hl)]. }
  split; [exact Hl |]. split; [exact Hk |].
  unfold HF._usecols. apply in_map_iff. exists flg. split; [| exact Hk].
  unfold HF.dict_get. rewrite Hl. reflexivity.
Qed.

(** A flag named [q] on column 9 takes the place of the vapor column 6. *)
Lemma _namecols_flag_overrides_example :
  HF.dict_lookup (HF._namecols Z reader_q) "q" = Some 9%Z
  /\ In "q" (HF._names Z reader_q)
  /\ In 9%Z (HF._usecols Z reader_q)
  /\ ~ In 6%Z (HF._usecols Z reader_q).
Proof.
  destruct (_namecols_flag_overrides Z reader_q "q" 9%Z 1%Z) as (Hl & Hn & Hu).
  - constructor; [simpl; intros [H|[]]; discriminate H |].
    constructor; [intros [] | constructor].
  - left. reflexivity.
  - discriminate.
  - split; [exact Hl | split; [exact Hn | split; [exact Hu |]]].
    cbv. intros H.
    repeat (destruct H as [H|H]; [discriminate H |]). exact H.
Defined.

(** ** [cleanse] *)

Local Open Scope list_scope.

Lemma clumps_sound (m pre : list bool) (cur : option nat) :
  (forall s0, cur = Some s0 ->
     (s0 < length pre)%nat
     /\ forall j, (s0 <= j < length pre)%nat -> nth_error pre j = Some false) ->
  forall s e, In (s, e) (HF.clumps (length pre) cur m) ->
    unmasked_between (pre ++ m) s e.
Proof.
  revert pre cur. induction m as [|x m IH]; intros pre cur Hc s e Hin.
  - simpl in Hin. destruct cur as [s0|]; [| destruct Hin].
    destruct Hin as [E|[]]. injection E as <- <-.
    destruct (Hc s0 eq_refl) as [Hlt Hrun].
    rewrite app_nil_r. split; [lia | exact Hrun].
  - assert (Hstep : forall cur',
              (forall s0, cur' = Some s0 ->
                 (s0 < length (pre ++ [x]))%nat
                 /\ forall j, (s0 <= j < length (pre ++ [x]))%nat ->
                      nth_error (pre ++ [x]) j = Some false) ->
              In (s, e) (HF.clumps (S (length pre)) cur' m) ->
              unmasked_between (pre ++ x :: m) s e).
    { intros cur' Hc' Hin'.
      replace (pre ++ x :: m) with ((pre ++ [x]) ++ m)
        by (rewrite <- app_assoc; reflexivity).
      apply (IH (pre ++ [x]) cur' Hc').
      replace (length (pre ++ [x])) with (S (length pre))
        by (rewrite length_app; simpl; lia).
      exact Hin'. }
    assert (Hext : forall s0,
              (s0 <= length pre)%nat ->
              (forall j, (s0 <= j < length pre)%nat -> nth_error pre j = Some false) ->
              x = false ->
              (s0 < length (pre ++ [x]))%nat
              /\ forall j, (s0 <= j < length (pre ++ [x]))%nat ->
                   nth_error (pre ++ [x]) j = Some false).
    { intros s0 Hle Hrun ->. rewrite length_app. simpl. split; [lia |].
      intros j Hj. destruct (Nat.lt_ge_cases j (length pre)) as [Hlt|Hge].
      - rewrite nth_error_app1 by exact Hlt. apply Hrun. lia.
      - rewrite nth_error_app2 by exact Hge.
        replace (j - length pre)%nat with O by lia. reflexivity. }
    simpl in Hin. destruct x, cur as [s0|].
    + destruct Hin as [E|Hin].
      * injection E as <- <-. destruct (Hc s0 eq_refl) as [Hlt Hrun].
        split; [rewrite length_app; simpl; lia |].
        intros j Hj. rewrite nth_error_app1 by lia. apply Hrun. lia.
      * apply (Hstep None); [intros ? [=] | exact Hin].
    + apply (Hstep None); [intros ? [=] | exact Hin].
    + apply (Hstep (Some s0)); [| exact Hin].
      intros ? [= <-]. destruct (Hc s0 eq_refl) as [Hlt Hrun].
      apply Hext; [lia | exact Hrun | reflexivity].
    + apply (Hstep (Some (length pre))); [| exact Hin].
      intros ? [= <-]. apply Hext; [lia | intros j Hj; lia | reflexivity].
Qed.

Lemma clumps_cover (m pre : list bool) (cur : option nat) (a b : nat) :
  (forall s0, cur = Some s0 -> (s0 <= length pre)%nat) ->
  unmasked_between (pre ++ m) a b ->
  match cur with
  | Some s0 => (s0 <= a)%nat \/ (length pre <= a)%nat
  | None => (length pre <= a)%nat
  end ->
  exists s e, In (s, e) (HF.clumps (length pre) cur m) /\ (s <= a)%nat /\ (b <= e)%nat.
Proof.
  revert pre cur. induction m as [|x m IH]; intros pre cur Hc [Hab Hrun] Ha.
  - rewrite app_nil_r in *. simpl. destruct cur as [s0|]; [| lia].
    exists s0, (length pre). split; [left; reflexivity | lia].
  - assert (Hx : nth_error (pre ++ x :: m) (length pre) = Some x)
      by (rewrite nth_error_app2, Nat.sub_diag by lia; reflexivity).
    assert (Hstep : forall cur',
              (forall s0, cur' = Some s0 -> (s0 <= S (length pre))%nat) ->
              match cur' with
              | Some s0 => (s0 <= a)%nat \/ (S (length pre) <= a)%nat
              | None => (S (length pre) <= a)%nat
              end ->
              exists s e, In (s, e) (HF.clumps (S (length pre)) cur' m)
                          /\ (s <= a)%nat /\ (b <= e)%nat).
    { intros cur' Hc' Ha'.
      assert (El : length (pre ++ [x]) = S (length pre))
        by (rewrite length_app; simpl; lia).
      rewrite <- El. apply IH.
      - rewrite El. exact Hc'.
      - replace ((pre ++ [x]) ++ m) with (pre ++ x :: m)
          by (rewrite <- app_assoc; reflexivity).
        split; assumption.
      - rewrite El. exact Ha'. }
    simpl. destruct x, cur as [s0|].
    + destruct (Nat.le_gt_cases b (length pre)) as [Hb|Hb].
      * exists s0, (length pre). split; [left; reflexivity | lia].
      * assert (Hgt : (length pre < a)%nat).
        { destruct (Nat.lt_ge_cases (length pre) a) as [|Hle]; [assumption |].
          specialize (Hrun (length pre) ltac:(lia)). congruence. }
        destruct (Hstep None) as (s & e & Hin & Hs); [intros ? [=] | lia |].
        exists s, e. split; [right; exact Hin | exact Hs].
    + assert (Hgt : (length pre < a)%nat).
      { destruct (Nat.lt_ge_cases (length pre) a) as [|Hle]; [assumption |].
        specialize (Hrun (length pre) ltac:(lia)). congruence. }
      apply (Hstep None); [intros ? [=] | lia].
    + specialize (Hc s0 eq_refl).
      apply (Hstep (Some s0)); [intros ? [= <-]; lia | lia].
    + apply (Hstep (Some (length pre))); [intros ? [= <-]; lia | lia].
Qed.

Lemma clumps_lower (m : list bool) (i : nat) (cur : option nat) (s e : nat) :
  (forall s0, cur = Some s0 -> (s0 <= i)%nat) ->
  In (s, e) (HF.clumps i cur m) ->
  match cur with
  | Some s0 => (s0 <= s)%nat
  | None => (i <= s)%nat
  end.
Proof.
  revert i cur. induction m as [|x m IH]; intros i cur Hc Hin; simpl in Hin.
  - destruct cur as [s0|]; [| destruct Hin].
    destruct Hin as [E|[]]. injection E as <- <-. lia.
  - destruct x, cur as [s0|].
    + specialize (Hc s0 eq_refl). destruct Hin as [E|Hin].
      * injection E as <- <-. lia.
      * apply IH in Hin; [lia | intros ? [=]].
    + apply IH in Hin; [lia | intros ? [=]].
    + specialize (Hc s0 eq_refl).
      apply IH in Hin; [exact Hin | intros ? [= <-]; lia].
    + apply IH in Hin; [exact Hin | intros ? [= <-]; lia].
Qed.

Lemma clumps_sorted (m : list bool) (i : nat) (cur : option nat) :
  (forall s0, cur = Some s0 -> (s0 <= i)%nat) ->
  StronglySorted (fun x y : HF.slice => (fst x <= fst y)%nat) (HF.clumps i cur m).
Proof.
  revert i cur. induction m as [|x m IH]; intros i cur Hc; simpl.
  - destruct cur; repeat constructor.
  - destruct x, cur as [s0|].
    + specialize (Hc s0 eq_refl). constructor; [apply IH; intros ? [=] |].
      apply Forall_forall. intros [s e] Hin.
      apply clumps_lower in Hin; [simpl; lia | intros ? [=]].
    + apply IH. intros ? [=].
    + specialize (Hc s0 eq_refl). apply IH. intros ? [= <-]. lia.
    + apply IH. intros ? [= <-]. lia.
Qed.

Lemma argmax_from_spec (l pre : list Z) (best : Z) (best_i : nat) :
  (best_i < length pre)%nat ->
  nth_error pre best_i = Some best ->
  (forall j x, nth_error pre j = Some x -> (x <= best)%Z) ->
  (forall j x, (j < best_i)%nat -> nth_error pre j = Some x -> (x < best)%Z) ->
  exists v,
    nth_error (pre ++ l) (HF.argmax_from best best_i (length pre) l) = Some v
    /\ (forall j x, nth_error (pre ++ l) j = Some x -> (x <= v)%Z)
    /\ (forall j x, (j < HF.argmax_from best best_i (length pre) l)%nat ->
                    nth_error (pre ++ l) j = Some x -> (x < v)%Z).
Proof.
  revert pre best best_i. induction l as [|y l IH]; intros pre best best_i Hi Hb Hmax Hfirst.
  - simpl. rewrite app_nil_r. exists best. auto.
  - cbn [HF.argmax_from].
    assert (El : length (pre ++ [y]) = S (length pre))
      by (rewrite length_app; simpl; lia).
    assert (Ea : pre ++ y :: l = (pre ++ [y]) ++ l)
      by (rewrite <- app_assoc; reflexivity).
    assert (Hsplit : forall j x, nth_error (pre ++ [y]) j = Some x ->
                       nth_error pre j = Some x \/ (j = length pre /\ x = y)).
    { intros j x Hj. destruct (Nat.lt_ge_cases j (length pre)) as [Hlt|Hge].
      - left. rewrite nth_error_app1 in Hj by exact Hlt. exact Hj.
      - right. rewrite nth_error_app2 in Hj by exact Hge.
        destruct (j - length pre)%nat as [|n] eqn:E.
        + simpl in Hj. injection Hj as <-. split; [lia | reflexivity].
        + simpl in Hj. destruct n; discriminate Hj. }
    destruct (best <? y)%Z eqn:E; rewrite Ea, <- El.
    + apply IH.
      * lia.
      * rewrite nth_error_app2, Nat.sub_diag by lia. reflexivity.
      * intros j x Hj. destruct (Hsplit j x Hj) as [Hp|[_ ->]]; [| lia].
        specialize (Hmax j x Hp). lia.
      * intros j x Hlt Hj.
        destruct (Hsplit j x Hj) as [Hp|[-> _]]; [| lia].
        specialize (Hmax j x Hp). lia.
    + apply IH.
      * lia.
      * rewrite nth_error_app1 by exact Hi. exact Hb.
      * intros j x Hj. destruct (Hsplit j x Hj) as [Hp|[_ ->]]; [| lia].
        exact (Hmax j x Hp).
      * intros j x Hlt Hj. destruct (Hsplit j x Hj) as [Hp|[-> _]]; [| lia].
        exact (Hfirst j x Hlt Hp).
Qed.

Lemma argmax_spec (l : list Z) :
  l <> [] ->
  exists v,
    nth_error l (HF.argmax l) = Some v
    /\ (forall j x, nth_error l j = Some x -> (x <= v)%Z)
    /\ (forall j x, (j < HF.argmax l)%nat -> nth_error l j = Some x -> (x < v)%Z).
Proof.
  destruct l as [|x l]; [congruence | intros _].
  apply (argmax_from_spec l [x] x 0); simpl.
  - lia.
  - reflexivity.
  - intros [|[|j]] y Hj; simpl in Hj; [injection Hj as <-; lia | discriminate Hj ..].
  - intros j y Hj. lia.
Qed.

Lemma StronglySorted_nth_error {A : Type} (R : A -> A -> Prop) (l : list A) :
  StronglySorted R l ->
  forall p q x y, (p < q)%nat ->
    nth_error l p = Some x -> nth_error l q = Some y -> R x y.
Proof.
  induction 1 as [|z l Hs IH Hall]; intros p q x y Hpq Hp Hq.
  - destruct p; discriminate Hp.
  - destruct q as [|q]; [lia |]. simpl in Hq. destruct p as [|p]; simpl in Hp.
    + injection Hp as <-. rewrite Forall_forall in Hall.
      apply Hall. eapply nth_error_In. exact Hq.
    + apply (IH p q); [lia | assumption ..].
Qed.

Lemma Forall_segment {A : Type} (P : A -> Prop) (l : list A) (a n : nat) :
  Forall P (firstn n (skipn a l))
  <-> forall j x, (a <= j < a + n)%nat -> nth_error l j = Some x -> P x.
Proof.
  rewrite Forall_forall. split.
  - intros H j x Hj Hx. apply H. apply (nth_error_In _ (j - a)).
    rewrite nth_error_firstn.
    destruct (Nat.ltb_spec (j - a) n) as [_|Hge]; [| lia].
    rewrite nth_error_skipn. replace (a + (j - a))%nat with j by lia. exact Hx.
  - intros H x Hin. apply In_nth_error in Hin. destruct Hin as [i Hi].
    rewrite nth_error_firstn in Hi.
    destruct (Nat.ltb_spec i n) as [Hlt|_]; [| discriminate Hi].
    rewrite nth_error_skipn in Hi. apply (H (a + i)%nat x); [lia | exact Hi].
Qed.

Section Cleanse.

Variable row : Type.
Variable masked : row -> bool.

Lemma unmasked_between_rows (data : list row) (a b : nat) :
  (a < b <= length data)%nat ->
  (unmasked_between (map masked data) a b
   <-> Forall (fun x => masked x = false) (firstn (b - a) (skipn a data))).
Proof.
  intros Hab. rewrite Forall_segment. unfold unmasked_between.
  rewrite length_map. split.
  - intros [_ H] j x Hj Hx. specialize (H j ltac:(lia)).
    rewrite nth_error_map, Hx in H. simpl in H. congruence.
  - intros H. split; [exact Hab |]. intros j Hj.
    rewrite nth_error_map.
    destruct (nth_error data j) as [x|] eqn:E.
    + simpl. f_equal. apply (H j x); [lia | exact E].
    + apply nth_error_None in E. lia.
Qed.

(** The slice that [cleanse] selects and what it does with it. *)
Lemma cleanse_selects (rd_tol : float) (ad_tol : Z) (data : list row) (flag : bool) :
  data <> [] ->
  exists start stop,
    (start <= stop <= length data)%nat
    /\ Forall (fun x => masked x = false) (firstn (stop - start) (skipn start data))
    /\ (forall a b, (a <= b <= length data)%nat ->
          Forall (fun x => masked x = false) (firstn (b - a) (skipn a data)) ->
          (b - a <= stop - start)%nat
          /\ ((b - a = stop - start)%nat -> (start <= a)%nat))
    /\ HF.cleanse row masked rd_tol ad_tol (HF.mk row (Some data) flag)
       = let len_max_slice := Z.of_nat (stop - start) in
         let data_frac :=
           (HF.float_of_Z len_max_slice / HF.float_of_Z (Z.of_nat (length data)))%float in
         if (data_frac <? rd_tol)%float || (len_max_slice <? ad_tol)%Z
         then (HF.mk row None flag,
               HF.Err (HF.TooFewDataError data_frac rd_tol len_max_slice ad_tol))
         else (HF.mk row (Some (firstn (stop - start) (skipn start data))) flag,
               HF.Ok tt).
Proof.
  intros Hne.
  assert (Hmask : HF.clump_unmasked (map masked data)
                  = HF.Ok (HF.clumps 0 None (map masked data)))
    by (destruct data; [congruence | reflexivity]).
  assert (Hsound : forall s e, In (s, e) (HF.clumps 0 None (map masked data)) ->
                     unmasked_between (map masked data) s e)
    by (intros s e; apply (clumps_sound (map masked data) [] None); intros ? [=]).
  assert (Hcover : forall a b, unmasked_between (map masked data) a b ->
                     exists s e, In (s, e) (HF.clumps 0 None (map masked data))
                                 /\ (s <= a)%nat /\ (b <= e)%nat).
  { intros a b Hab.
    apply (clumps_cover (map masked data) [] None a b);
      [intros ? [=] | exact Hab | simpl; lia]. }
  assert (Hsorted := clumps_sorted (map masked data) 0 None ltac:(intros ? [=])).
  unfold HF.cleanse. cbn [HF.dataframe HF._already_corrected_external].
  rewrite Hmask.
  destruct (HF.clumps 0 None (map masked data)) as [|c0 found] eqn:Ef.
  - exists O, O. split; [lia |]. split; [constructor |]. split; [| reflexivity].
    intros a b Hab Hall.
    destruct (Nat.eq_dec a b) as [->|Hn]; [lia |].
    apply unmasked_between_rows in Hall; [| lia].
    destruct (Hcover a b Hall) as (s & e & [] & _).
  - cbv beta iota zeta.
    destruct (argmax_spec (map HF.slice_len (c0 :: found)) ltac:(discriminate))
      as (v & Hv & Hmax & Hfirst).
    set (max_indx := HF.argmax (map HF.slice_len (c0 :: found))) in *.
    rewrite nth_error_map in Hv.
    destruct (nth_error (c0 :: found) max_indx) as [[start stop]|] eqn:En;
      [| discriminate Hv].
    simpl in Hv. injection Hv as <-.
    assert (Hnth : @nth (nat * nat) max_indx (c0 :: found) (O, O) = (start, stop))
      by exact (nth_error_nth (c0 :: found) max_indx (O, O) En).
    exists start, stop. rewrite Hnth.
    pose proof (Hsound start stop (nth_error_In _ _ En)) as Hrun.
    assert (Hb : (start < stop <= length data)%nat)
      by (destruct Hrun as [Hb _]; rewrite length_map in Hb; exact Hb).
    assert (Hlen : HF.slice_len (start, stop) = Z.of_nat (stop - start))
      by (unfold HF.slice_len; simpl; lia).
    split; [lia |].
    split; [apply unmasked_between_rows; [exact Hb | exact Hrun] |].
    split.
    + intros a b Hab Hall.
      destruct (Nat.eq_dec a b) as [->|Hn]; [lia |].
      apply unmasked_between_rows in Hall; [| lia].
      destruct (Hcover a b Hall) as (s & e & Hin & Hs & He).
      pose proof (Hsound s e Hin) as [Hse _].
      apply In_nth_error in Hin. destruct Hin as [q Hq].
      assert (Hq' : nth_error (map HF.slice_len (c0 :: found)) q
                    = Some (HF.slice_len (s, e)))
        by (rewrite nth_error_map; exact (f_equal (option_map HF.slice_len) Hq)).
      pose proof (Hmax q _ Hq') as Hle.
      unfold HF.slice_len in Hle. simpl in Hle.
      split; [lia |]. intros Heq.
      destruct (Nat.lt_ge_cases q max_indx) as [Hlt|Hge].
      * pose proof (Hfirst q _ Hlt Hq') as Hlt'.
        unfold HF.slice_len in Hlt'. simpl in Hlt'. lia.
      * destruct (Nat.eq_dec q max_indx) as [->|Hneq].
        -- pose proof (eq_trans (eq_sym Hq) En) as Eq.
           injection Eq as -> ->. exact Hs.
        -- pose proof (StronglySorted_nth_error _ _ Hsorted max_indx q _ _
                         ltac:(lia) En Hq) as Hord.
           simpl in Hord. lia.
    + cbv zeta. rewrite Hlen. reflexivity.
Qed.

End Cleanse.

(** X18: when [cleanse] returns, the dataframe it leaves is a contiguous
    stretch of the records it was given, none of them masked; no stretch of
    unmasked records is longer, and of the longest ones it is the earliest.
    It has at least [ad_tol] records and is not a smaller fraction of the
    data than [rd_tol]; when no record is masked it is the whole data. *)
Theorem cleanse_keeps_longest_run (row : Type) (masked : row -> bool)
    (rd_tol : float) (ad_tol : Z) (data : list row) (flag : bool)
    (self' : HF.t row) :
  HF.cleanse row masked rd_tol ad_tol (HF.mk row (Some data) flag)
  = (self', HF.Ok tt) ->
  exists start kept,
    self' = HF.mk row (Some kept) flag
    /\ (start + length kept <= length data)%nat
    /\ kept = firstn (length kept) (skipn start data)
    /\ Forall (fun x => masked x = false) kept
    /\ (forall a b, (a <= b <= length data)%nat ->
          Forall (fun x => masked x = false) (firstn (b - a) (skipn a data)) ->
          (b - a <= length kept)%nat
          /\ ((b - a)%nat = length kept -> (start <= a)%nat))
    /\ (ad_tol <= Z.of_nat (length kept))%Z
    /\ (HF.float_of_Z (Z.of_nat (length kept))
        / HF.float_of_Z (Z.of_nat (length data)) <? rd_tol)%float = false
    /\ (Forall (fun x => masked x = false) data -> kept = data).
Proof.
  intros H.
  assert (Hne : data <> []) by (intros ->; discriminate H).
  destruct (cleanse_selects row masked rd_tol ad_tol data flag Hne)
    as (start & stop & Hb & Hall & Hlong & Hc).
  rewrite Hc in H. cbv zeta in H.
  destruct ((HF.float_of_Z (Z.of_nat (stop - start))
             / HF.float_of_Z (Z.of_nat (length data)) <? rd_tol)%float
            || (Z.of_nat (stop - start) <? ad_tol)%Z) eqn:E;
    [discriminate H |].
  injection H as <-. apply orb_false_iff in E. destruct E as [Er Ea].
  assert (Hlen : length (firstn (stop - start) (skipn start data))
                 = (stop - start)%nat)
    by (apply firstn_length_le; rewrite length_skipn; lia).
  exists start, (firstn (stop - start) (skipn start data)).
  rewrite Hlen.
  split; [reflexivity |]. split; [lia |]. split; [reflexivity |].
  split; [exact Hall |]. split; [exact Hlong |].
  split; [apply Z.ltb_ge in Ea; exact Ea |]. split; [exact Er |].
  intros Hd.
  destruct (Hlong O (length data) ltac:(lia)) as [Hl _].
  { rewrite Nat.sub_0_r, firstn_all. exact Hd. }
  replace start with O by lia.
  replace (stop - 0)%nat with (length data) by lia.
  apply firstn_all.
Qed.

(** Of the runs of lengths 1, 2 and 2 of the seven records, the first of
    length 2 is kept. *)
Lemma cleanse_keeps_longest_run_example :
  exists kept,
    HF.cleanse record record_masked 0.25 2 (HF.mk record (Some records_ex) false)
    = (HF.mk record (Some kept) false, HF.Ok tt)
    /\ kept = [(2e-3, false); (3e-3, false)]%float
    /\ Forall (fun x => record_masked x = false) kept
    /\ (forall a b, (a <= b <= 7)%nat ->
          Forall (fun x => record_masked x = false)
            (firstn (b - a) (skipn a records_ex)) ->
          (b - a <= 2)%nat).
Proof.
  destruct (cleanse_keeps_longest_run record record_masked 0.25 2 records_ex false
              (HF.mk record (Some [(2e-3, false); (3e-3, false)]%float) false))
    as (start & kept & Hs & _ & _ & Hall & Hlong & _);
    [vm_compute; reflexivity |].
  injection Hs as <-.
  exists [(2e-3, false); (3e-3, false)]%float.
  split; [vm_compute; reflexivity |]. split; [reflexivity |].
  split; [exact Hall |].
  intros a b Hab Hseg. exact (proj1 (Hlong a b Hab Hseg)).
Defined.

(** X19: on a non-empty dataframe the only exception of [cleanse] is
    [TooFewDataError]; it then sets the dataframe to [None], and the length
    it reports is that of the longest stretch of unmasked records, which is
    shorter than [ad_tol] or a smaller fraction of the data than [rd_tol]. *)
Theorem cleanse_rejects (row : Type) (masked : row -> bool)
    (rd_tol : float) (ad_tol : Z) (data : list row) (flag : bool)
    (self' : HF.t row) (e : HF.exn) :
  data <> [] ->
  HF.cleanse row masked rd_tol ad_tol (HF.mk row (Some data) flag)
  = (self', HF.Err e) ->
  exists len_max_slice,
    let data_frac :=
      (HF.float_of_Z len_max_slice / HF.float_of_Z (Z.of_nat (length data)))%float in
    self' = HF.mk row None flag
    /\ e = HF.TooFewDataError data_frac rd_tol len_max_slice ad_tol
    /\ ((data_frac <? rd_tol)%float = true \/ (len_max_slice < ad_tol)%Z)
    /\ (forall a b, (a <= b <= length data)%nat ->
          Forall (fun x => masked x = false) (firstn (b - a) (skipn a data)) ->
          (Z.of_nat (b - a) <= len_max_slice)%Z)
    /\ (exists a b, (a <= b <= length data)%nat
          /\ Forall (fun x => masked x = false) (firstn (b - a) (skipn a data))
          /\ Z.of_nat (b - a) = len_max_slice).
Proof.
  intros Hne H.
  destruct (cleanse_selects row masked rd_tol ad_tol data flag Hne)
    as (start & stop & Hb & Hall & Hlong & Hc).
  rewrite Hc in H. cbv zeta in H.
  destruct ((HF.float_of_Z (Z.of_nat (stop - start))
             / HF.float_of_Z (Z.of_nat (length data)) <? rd_tol)%float
            || (Z.of_nat (stop - start) <? ad_tol)%Z) eqn:E;
    [| discriminate H].
  injection H as <- <-. exists (Z.of_nat (stop - start)). cbv zeta.
  split; [reflexivity |]. split; [reflexivity |].
  split.
  { apply orb_true_iff in E. destruct E as [E|E]; [left; exact E |].
    right. apply Z.ltb_lt. exact E. }
  split.
  - intros a b Hab Hseg. destruct (Hlong a b Hab Hseg) as [Hl _]. lia.
  - exists start, stop. split; [exact Hb |]. split; [exact Hall | reflexivity].
Qed.

(** With the default tolerances the seven records are rejected: the longest
    run has 2 records. *)
Lemma cleanse_rejects_example :
  exists len_max_slice,
    HF.cleanse record record_masked 0.5 1024 (HF.mk record (Some records_ex) true)
    = (HF.mk record None true,
       HF.Err (HF.TooFewDataError
                 (HF.float_of_Z len_max_slice / HF.float_of_Z 7) 0.5
                 len_max_slice 1024))
    /\ len_max_slice = 2%Z.
Proof.
  destruct (cleanse_rejects record record_masked 0.5 1024 records_ex true
              (HF.mk record None true)
              (HF.TooFewDataError (HF.float_of_Z 2 / HF.float_of_Z 7) 0.5 2 1024))
    as (len & _ & He & _); [discriminate | vm_compute; reflexivity |].
  cbv zeta in He. injection He as _ <-.
  exists 2%Z. split; [vm_compute; reflexivity | reflexivity].
Defined.

(** X20: when every record of a non-empty dataframe is masked and [ad_tol]
    is positive, [cleanse] raises [TooFewDataError] with a longest stretch of
    length 0 and sets the dataframe to [None]. *)
Theorem cleanse_all_masked (row : Type) (masked : row -> bool)
    (rd_tol : float) (ad_tol : Z) (data : list row) (flag : bool) :
  data <> [] ->
  Forall (fun x => masked x = true) data ->
  (0 < ad_tol)%Z ->
  HF.cleanse row masked rd_tol ad_tol (HF.mk row (Some data) flag)
  = (HF.mk row None flag,
     HF.Err (HF.TooFewDataError
               (HF.float_of_Z 0 / HF.float_of_Z (Z.of_nat (length data)))
               rd_tol 0 ad_tol)).
Proof.
  intros Hne Hm Hpos.
  destruct (cleanse_selects row masked rd_tol ad_tol data flag Hne)
    as (start & stop & Hb & Hall & _ & Hc).
  assert (Hz : (stop - start)%nat = O).
  { destruct (Nat.eq_dec (stop - start) O) as [|Hn]; [assumption |].
    destruct (nth_error data start) as [x|] eqn:E;
      [| apply nth_error_None in E; lia].
    rewrite Forall_segment in Hall. rewrite Forall_forall in Hm.
    specialize (Hall start x ltac:(lia) E).
    specialize (Hm x (nth_error_In _ _ E)). congruence. }
  rewrite Hc, Hz. cbv zeta. change (Z.of_nat 0) with 0%Z.
  replace (0 <? ad_tol)%Z with true by (symmetry; apply Z.ltb_lt; exact Hpos).
  rewrite orb_true_r. reflexivity.
Qed.

(** Two masked records. *)
Lemma cleanse_all_masked_example :
  HF.cleanse record record_masked 0.5 1024 (HF.mk record (Some records_bad) false)
  = (HF.mk record None false,
     HF.Err (HF.TooFewDataError (HF.float_of_Z 0 / HF.float_of_Z 2) 0.5 0 1024)).
Proof.
  apply (cleanse_all_masked record record_masked 0.5 1024 records_bad false).
  - discriminate.
  - repeat constructor.
  - reflexivity.
Defined.
